(** * COBS: compact bit-sliced signature index

    A shallow embedding of the parts of the COBS sources that the
    specification talks about, and the properties settled against it.

    - [Mem], [NormalizeKmer]: [isi::query::normalize_kmer] of
      [isi/util/query.cpp], over a two-region byte memory with a log of
      every load and store.
    - [CanonicalSpec]: the canonical form in the words of the specification.
    - [Basepair]: the table built by [print_basepair_map] of [src/cobs.cpp].
    - [Cli]: the subtools of [src/cobs.cpp] and [main], over a world of
      existing paths and the two output streams; the command-line parser and
      the cobs library are parameters.
    - [Index]: construction of and search over the bit-sliced index, modelled
      from the specification.
    - [ClassicIndex]: the reader of [cobs/query/classic_index/base.hpp].
    - [Sizer]: the signature size of section 4.2, modelled from the
      specification.
    - [Mmap]: [initialize_mmap] and [destroy_mmap] of [isi/util/query.cpp],
      over the open descriptors and the mappings of the process.
    - [CobsMore], [DocDump]: the loops of [print_document_list] and
      [generate_queries], and [doc_dump], of [src/cobs.cpp].
    - [ExpFpDist]: the score histogram of [src/exp_fp_dist.cpp].

    Bytes ([char]) are integers in [Z]; offsets and sizes that index memory
    are [nat]. *)

From Stdlib Require Import ZArith List Lia ZifyNat Bool String Ascii Reals Lra.
From stdpp Require Import base tactics option list sorting strings pretty gmap.
Import ListNotations.

(* ================================================================== *)
(** * Part I: definitions *)
(* ================================================================== *)

(** ** Byte memory with a log of accesses

    [normalize_kmer] receives two pointers: [query_8], into the query
    string, and [kmer_raw_8], the caller's scratch buffer.  The two regions
    are disjoint ([std::reverse_copy] requires it).  Offsets are relative to
    the value of each pointer on entry.  A load or store outside a region is
    undefined behaviour in C++; here it is a fault ([None]). *)
Module Mem.

Inductive region := Query | Buffer.

Inductive event :=
| Load (r : region) (off : nat)
| Store (r : region) (off : nat) (v : Z).

Record state := mkState {
  query_bytes : list Z;
  buffer_bytes : list Z;
  trace : list event
}.

Definition Cmd (A : Type) : Type := state -> option (A * state).

#[export] Instance cmd_ret : MRet Cmd := fun A a s => Some (a, s).

#[export] Instance cmd_bind : MBind Cmd := fun A B f c s =>
  match c s with
  | Some (a, s') => f a s'
  | None => None
  end.

Definition fault {A} : Cmd A := fun _ => None.

Definition region_bytes (r : region) (s : state) : list Z :=
  match r with
  | Query => query_bytes s
  | Buffer => buffer_bytes s
  end.

Definition record (e : event) (s : state) : state :=
  mkState (query_bytes s) (buffer_bytes s) (trace s ++ [e]).

Definition write (r : region) (off : nat) (v : Z) (s : state) : state :=
  match r with
  | Query => mkState (<[off := v]> (query_bytes s)) (buffer_bytes s) (trace s)
  | Buffer => mkState (query_bytes s) (<[off := v]> (buffer_bytes s)) (trace s)
  end.

(** [*p] as an rvalue. *)
Definition load (r : region) (off : nat) : Cmd Z := fun s =>
  match region_bytes r s !! off with
  | Some v => Some (v, record (Load r off) s)
  | None => None
  end.

(** [*p = v]. *)
Definition store (r : region) (off : nat) (v : Z) : Cmd unit := fun s =>
  if decide (off < length (region_bytes r s))
  then Some (tt, record (Store r off v) (write r off v s))
  else None.

Definition is_store (e : event) : bool :=
  match e with
  | Store _ _ _ => true
  | Load _ _ => false
  end.

(** Number of stores in a log. *)
Definition store_count (t : list event) : nat :=
  length (List.filter is_store t).

End Mem.

(** ** [normalize_kmer] (isi/util/query.cpp) *)
Module NormalizeKmer.
Import Mem.

(** A returned [const char*]: the region it points into and its offset. *)
Inductive pointer := Ptr (r : region) (off : nat).

(** The [while] loop.  Both operands of [==] are loaded before the bound on
    [counter] is looked at ([&&] evaluates its left operand first).  The
    loop body runs at most [kmer_size / 2] times, which is the fuel
    [normalize_kmer] passes. *)
Fixpoint scan (fuel kmer_size query_8 query_8_reverse counter : nat)
  : Cmd (nat * nat * nat) :=
  a ← load Query query_8;
  b ← load Query query_8_reverse;
  if bool_decide (a = b) && bool_decide (counter < kmer_size / 2) then
    match fuel with
    | O => fault
    | S fuel' =>
        scan fuel' kmer_size (query_8 + 1) (query_8_reverse - 1) (counter + 1)
    end
  else mret (query_8, query_8_reverse, counter).

(** [std::reverse_copy(first, last, d_first)]:
    [for (; first != last; ++d_first) *d_first = *(--last);]
    with [n = last - first] iterations. *)
Fixpoint reverse_copy (n last d_first : nat) : Cmd nat :=
  match n with
  | O => mret d_first
  | S n' =>
      v ← load Query (last - 1);
      _ ← store Buffer d_first v;
      reverse_copy n' (last - 1) (d_first + 1)
  end.

Definition normalize_kmer (kmer_size : nat) : Cmd pointer :=
  '(query_8, query_8_reverse, counter) ← scan (kmer_size / 2) kmer_size 0 kmer_size 0;
  a ← load Query query_8;
  b ← load Query query_8_reverse;
  if bool_decide (a ≤ b)%Z then mret (Ptr Query (query_8 - counter))
  else
    let first := query_8 - counter in
    let last := query_8_reverse + counter in
    _ ← reverse_copy (last - first) last 0;
    mret (Ptr Buffer 0).

(** A call on a query memory [q] (the bytes from [query_8] on) and a
    scratch buffer [buf]. *)
Definition run (q buf : list Z) (kmer_size : nat) : option (pointer * state) :=
  normalize_kmer kmer_size (mkState q buf []).

(** The [kmer_size] bytes at a returned pointer. *)
Definition window_at (p : pointer) (kmer_size : nat) (s : state) : list Z :=
  match p with
  | Ptr r off => take kmer_size (drop off (region_bytes r s))
  end.

(** The window the caller gets back, if the call does not fault. *)
Definition result_window (q buf : list Z) (kmer_size : nat) : option (list Z) :=
  match run q buf kmer_size with
  | Some (p, s) => Some (window_at p kmer_size s)
  | None => None
  end.

(** State of the two pointers and the counter when the loop is left. *)
Definition scan_stop (q : list Z) (kmer_size : nat) : option (nat * nat * nat) :=
  match scan (kmer_size / 2) kmer_size 0 kmer_size 0 (mkState q [] []) with
  | Some (r, _) => Some r
  | None => None
  end.

(** What the log of one call may contain when the window has [kmer_size]
    bytes: loads from the query at offsets [0 .. kmer_size], stores into the
    scratch buffer at offsets below [kmer_size]. *)
Definition access_within (kmer_size : nat) (e : event) : Prop :=
  match e with
  | Load r off => r = Query /\ off <= kmer_size
  | Store r off _ => r = Buffer /\ off < kmer_size
  end.

(** A load from the query at an offset of at most [bound]. *)
Definition is_query_load (bound : nat) (e : event) : Prop :=
  exists off, e = Load Query off /\ off <= bound.

(** What [reverse_copy n last d] may log: loads from the query below
    [last], stores into the buffer at offsets [d .. d + n - 1]. *)
Definition copy_event (last d n : nat) (e : event) : Prop :=
  (exists off, e = Load Query off /\ off < last)
  \/ (exists off v, e = Store Buffer off v /\ d <= off < d + n).

End NormalizeKmer.

(** ** Canonical form, as the specification words it

    These definitions follow the text of the specification, not the code:
    "min(window, reverse-complement(window)) under lexicographic order ...
    other bytes compare by raw value" and "Reverse-complement maps A<->T,
    C<->G byte-wise; other bytes map to themselves". *)
Module CanonicalSpec.

Definition spec_complement (b : Z) : Z :=
  if (b =? 65)%Z then 84%Z          (* A -> T *)
  else if (b =? 84)%Z then 65%Z     (* T -> A *)
  else if (b =? 67)%Z then 71%Z     (* C -> G *)
  else if (b =? 71)%Z then 67%Z     (* G -> C *)
  else b.

Definition spec_reverse_complement (w : list Z) : list Z :=
  map spec_complement (reverse w).

Fixpoint lex_leb (u v : list Z) : bool :=
  match u, v with
  | [], _ => true
  | _ :: _, [] => false
  | x :: u', y :: v' =>
      if (x <? y)%Z then true
      else if (y <? x)%Z then false
      else lex_leb u' v'
  end.

Definition spec_canonical (w : list Z) : list Z :=
  if lex_leb w (spec_reverse_complement w) then w
  else spec_reverse_complement w.

End CanonicalSpec.


(** ** The base-pair table of [print_basepair_map] (src/cobs.cpp)

    [char basepair_map[256]], cleared by [memset] and then assigned at the
    four letters, in the order of the source. *)
Module Basepair.

Definition basepair_map : list Z :=
  <[84 := 65%Z]>           (* basepair_map['T'] = 'A' *)
    (<[71 := 67%Z]>        (* basepair_map['G'] = 'C' *)
       (<[67 := 71%Z]>     (* basepair_map['C'] = 'G' *)
          (<[65 := 84%Z]>  (* basepair_map['A'] = 'T' *)
             (replicate 256 0%Z)))).

(** The lines [print_basepair_map] writes: every entry as a number followed
    by a comma, a line break after each 16 entries. *)
Definition basepair_lines : list string :=
  map (fun row =>
         String.concat "" (map (fun v => pretty v +:+ ",")
                               (take 16 (drop (16 * row) basepair_map))))
      (seq 0 16).

End Basepair.

(** ** The command-line tool (src/cobs.cpp)

    A subtool runs against a [world]: the paths that exist, and what has been
    written to the two output streams, one entry per line.  It either
    returns its [int], dies, or lets an exception escape. *)
Module Cli.

Record world := mkWorld {
  files : gset string;
  out : list string;     (* std::cout *)
  err : list string      (* std::cerr *)
}.

Inductive outcome (A : Type) :=
| Returned (a : A)
| Died (msg : string)
| Threw (what : string).
Arguments Returned {A} a.
Arguments Died {A} msg.
Arguments Threw {A} what.

Definition Tool (A : Type) : Type := world -> outcome A * world.

#[export] Instance tool_ret : MRet Tool := fun A a w => (Returned a, w).

#[export] Instance tool_bind : MBind Tool := fun A B f c w =>
  match c w with
  | (Returned a, w') => f a w'
  | (Died msg, w') => (Died msg, w')
  | (Threw what, w') => (Threw what, w')
  end.

Definition cout (line : string) : Tool unit := fun w =>
  (Returned tt, mkWorld (files w) (out w ++ [line]) (err w)).

Definition cerr (line : string) : Tool unit := fun w =>
  (Returned tt, mkWorld (files w) (out w) (err w ++ [line])).

Fixpoint for_each {A} (f : A -> Tool unit) (l : list A) : Tool unit :=
  match l with
  | [] => mret tt
  | x :: l' => _ ← f x; for_each f l'
  end.

(** Modelled from the spec: [die] (the macro of tlx/die.hpp, which is not
    among the sources).  "All error paths print a single diagnostic line to
    standard error and set a nonzero exit code": the message becomes one
    line on standard error and control never comes back. *)
Definition die {A} (msg : string) : Tool A := fun w =>
  (Died msg, mkWorld (files w) (out w) (err w ++ [msg])).

(** A step that only inspects the world. *)
Definition reading {A} (f : world -> A) : Tool A := fun w => (Returned (f w), w).

(** [cobs::fs::exists(p)]. *)
Definition fs_exists (p : string) : Tool bool := fun w =>
  (Returned (bool_decide (p ∈ files w)), w).

(** [q] is [p] or lies below it. *)
Definition below (p q : string) : Prop :=
  q = p \/ String.prefix (p +:+ "/") q = true.

#[export] Instance below_dec p q : Decision (below p q).
Proof. unfold below. apply _. Defined.


(** How the process ends. *)
Inductive status :=
| Exit (code : Z)     (* [main] returned [code] *)
| Terminated.         (* ended from inside [die] *)

(** Modelled from the spec: a process ended by [die] has a nonzero exit
    code; otherwise the code is what [main] returned. *)
Definition failed (st : status) : Prop := st <> Exit 0.

Definition dquote : string := String (ascii_of_nat 34) EmptyString.

Definition to_lower_char (c : ascii) : ascii :=
  let n := nat_of_ascii c in
  if (65 <=? n)%nat && (n <=? 90)%nat then ascii_of_nat (n + 32) else c.

(** [tlx::to_lower]. *)
Fixpoint to_lower (s : string) : string :=
  match s with
  | EmptyString => EmptyString
  | String c s' => String (to_lower_char c) (to_lower s')
  end.

Inductive FileType := Any | Text | Cortex | KMerBuffer | Fasta | Fastq.

Definition StringToFileType (s0 : string) : Tool FileType :=
  let s := to_lower s0 in
  if bool_decide (s = "any" \/ s = "*") then mret Any
  else if bool_decide (s = "text" \/ s = "txt") then mret Text
  else if bool_decide (s = "cortex" \/ s = "ctx") then mret Cortex
  else if bool_decide (s = "cobs" \/ s = "cobs_doc") then mret KMerBuffer
  else if bool_decide (s = "fasta") then mret Fasta
  else if bool_decide (s = "fastq") then mret Fastq
  else die ("Unknown file type " +:+ s).

(** Options of [classic_construct] and [compact_construct] after
    [cp.process]; [params] stands for the index parameter block that is
    passed on to the library untouched. *)
Record construct_options (params : Type) := mkConstruct {
  in_dir : string;
  out_dir : string;
  file_type : string;
  clobber : bool;
  continue_ : bool;
  index_params : params
}.
Arguments mkConstruct {params}.
Arguments in_dir {params}.
Arguments out_dir {params}.
Arguments file_type {params}.
Arguments clobber {params}.
Arguments continue_ {params}.
Arguments index_params {params}.

Record query_options := mkQuery {
  in_file : string;
  query_string : string;
  num_results : nat
}.

(** What [src/cobs.cpp] does not fix: the tlx command-line parser and the
    cobs library, which are not in that file; whether the system lets a
    directory be removed; and what a run does once its behaviour is
    undefined. *)
Class Library := {
  classic_params : Type;
  compact_params : Type;
  document_list : Type;
  (* tlx::CmdlineParser: the options, or nothing when process() fails;
     what process() prints in that case; what print_result prints *)
  cmdline_classic : list string -> option (construct_options classic_params);
  cmdline_compact : list string -> option (construct_options compact_params);
  cmdline_query : list string -> option query_options;
  cmdline_kmers : list string -> option (string * Z);
  cmdline_rejected : list string -> Tool unit;
  print_result_classic : construct_options classic_params -> list string;
  print_result_compact : construct_options compact_params -> list string;
  (* cobs::DocumentList, print_document_list's logging *)
  make_document_list : string -> FileType -> Tool document_list;
  log_document_list : document_list -> classic_params -> Tool unit;
  (* cobs::classic_construct, cobs::compact_construct *)
  cobs_classic_construct : document_list -> string -> classic_params -> Tool unit;
  cobs_compact_construct : string -> string -> compact_params -> Tool unit;
  (* cobs::file_has_header<...>, which only reads; the two searches, each
     giving the result vector and the printed timer *)
  has_classic_header : string -> world -> bool;
  has_compact_header : string -> world -> bool;
  search_classic : query_options -> Tool (list (Z * string) * string);
  search_compact : query_options -> Tool (list (Z * string) * string);
  (* cobs::canonicalize_kmer, from the window to the k-mer it yields *)
  canonicalize_kmer : string -> string;
  (* cobs::fs::remove_all(p), the overload that throws: nothing when the
     system removes p and all below it; when it refuses, what() of the
     filesystem_error and which of the paths were already gone by then *)
  remove_all_fails : string -> world -> option (string * (string -> bool));
  (* print_kmers on a query shorter than kmer_size reads behind the query:
     the behaviour is undefined, so what the run does is given from outside *)
  reads_behind_query : string -> Z -> Tool Z;
  (* tlx::CmdlineParser::output_wrap *)
  output_wrap : string -> list string;
  (* the subtools that are not modelled here *)
  other_subtool : string -> list string -> Tool Z
}.

(** The two messages of [die] in [src/cobs.cpp] that matter below. *)
Definition overwrite_refused : string :=
  "Output directory exists, will not overwrite without --clobber".

Definition could_not_open (o : query_options) : string :=
  "Could not open index path " +:+ dquote +:+ in_file o +:+ dquote.

(** Steps that only append lines to standard output. *)
Definition prints_only {A} (c : Tool A) : Prop :=
  forall w, exists a lines,
    c w = (Returned a, mkWorld (files w) (out w ++ lines) (err w)).

Section Tools.
Context `{Library}.

(** [cobs::fs::remove_all(p)], called with one argument: when it returns,
    [p] and everything below it is gone; when the system refuses (a
    directory in use, a missing permission), it throws with some of the
    paths below [p] already gone. *)
Definition remove_all (p : string) : Tool unit := fun w =>
  match remove_all_fails p w with
  | None =>
      (Returned tt,
       mkWorld (filter (fun q => ¬ below p q) (files w)) (out w) (err w))
  | Some (what, gone) =>
      (Threw what,
       mkWorld (filter (fun q => ¬ (below p q /\ gone q = true)) (files w))
               (out w) (err w))
  end.

(** "check output and maybe clobber" *)
Definition check_output (out_dir : string) (clobber continue_ : bool) : Tool unit :=
  e ← fs_exists out_dir;
  if e : bool then
    if clobber then remove_all out_dir
    else if continue_ then mret tt
    else die overwrite_refused
  else mret tt.

(** [classic_construct] from the list of documents on. *)
Definition classic_build (o : construct_options classic_params) : Tool Z :=
  ft ← StringToFileType (file_type o);
  filelist ← make_document_list (in_dir o) ft;
  _ ← log_document_list filelist (index_params o);
  _ ← cobs_classic_construct filelist (out_dir o) (index_params o);
  mret 0%Z.

Definition classic_construct (argv : list string) : Tool Z :=
  match cmdline_classic argv with
  | None => _ ← cmdline_rejected argv; mret (-1)%Z
  | Some o =>
      _ ← for_each cerr (print_result_classic o);
      _ ← check_output (out_dir o) (clobber o) (continue_ o);
      classic_build o
  end.

(** [compact_construct] from the library call on. *)
Definition compact_build (o : construct_options compact_params) : Tool Z :=
  _ ← cobs_compact_construct (in_dir o) (out_dir o) (index_params o);
  mret 0%Z.

Definition compact_construct (argv : list string) : Tool Z :=
  match cmdline_compact argv with
  | None => _ ← cmdline_rejected argv; mret (-1)%Z
  | Some o =>
      _ ← for_each cerr (print_result_compact o);
      _ ← check_output (out_dir o) (clobber o) (continue_ o);
      compact_build o
  end.

Definition result_line (res : Z * string) : string :=
  res.2 +:+ " - " +:+ pretty res.1.

Definition query (argv : list string) : Tool Z :=
  match cmdline_query argv with
  | None => _ ← cmdline_rejected argv; mret (-1)%Z
  | Some o =>
      classic ← reading (has_classic_header (in_file o));
      '(result, timer) ←
        (if classic : bool then search_classic o
         else
           compact ← reading (has_compact_header (in_file o));
           if compact : bool then search_compact o
           else die (could_not_open o));
      _ ← for_each (fun res => cout (result_line res)) result;
      _ ← cout timer;
      mret 0%Z
  end.

Definition print_basepair_map (argv : list string) : Tool Z :=
  _ ← for_each cout Basepair.basepair_lines;
  mret 0%Z.

(** The loop of [print_kmers]:
    [for (size_t i = 0; i < query.size() - kmer_size; i++)],
    the bound computed in [size_t].  Each round passes the window at
    [query.data() + i] to [canonicalize_kmer].  [kmer_windows] lists these
    windows for a query of at least [kmer_size] characters, where all of
    them lie inside the query; for a shorter query the windows reach behind
    it, and [print_kmers] below does not use the list. *)
Definition kmer_loop_bound (query : string) (kmer_size : Z) : Z :=
  ((Z.of_nat (String.length query) - kmer_size) mod 2 ^ 64)%Z.

Definition kmer_windows (query : string) (kmer_size : Z) : list string :=
  map (fun i => String.substring i (Z.to_nat kmer_size) query)
      (seq 0 (Z.to_nat (kmer_loop_bound query kmer_size))).

Definition print_kmers (argv : list string) : Tool Z :=
  match cmdline_kmers argv with
  | None => _ ← cmdline_rejected argv; mret (-1)%Z
  | Some (query, kmer_size) =>
      if bool_decide (kmer_size <= Z.of_nat (String.length query))%Z then
        _ ← for_each (fun window => cout (canonicalize_kmer window))
                     (kmer_windows query kmer_size);
        mret 0%Z
      else reads_behind_query query kmer_size
  end.

(** The loop over the terms of a negative query in [generate_queries]:
    [for (size_t i = 0; i + term_size <= neg.size(); ++i)] with
    [neg.substr(i, term_size)]. *)
Fixpoint negative_terms_from (fuel i : nat) (neg : string) (term_size : nat) : list string :=
  match fuel with
  | O => []
  | S fuel' =>
      if (i + term_size <=? String.length neg)%nat
      then String.substring i term_size neg
             :: negative_terms_from fuel' (i + 1) neg term_size
      else []
  end.

Definition negative_terms (neg : string) (term_size : nat) : list string :=
  negative_terms_from (String.length neg + 1) 0 neg term_size.

Record SubTool := mkSubTool {
  name : string;
  func : list string -> Tool Z;
  shortline : bool;
  description : string
}.

Definition subtools : list SubTool := [
  mkSubTool "doc_list" (other_subtool "doc_list") true
    "read a list of documents and print the list";
  mkSubTool "doc_dump" (other_subtool "doc_dump") true
    "read a list of documents and dump their contents";
  mkSubTool "classic_construct" classic_construct true
    "constructs a classic index from the documents in <in_dir>";
  mkSubTool "classic_construct_random" (other_subtool "classic_construct_random") true
    "constructs a classic index with random content";
  mkSubTool "compact_construct" compact_construct true
    "creates the folders used for further construction";
  mkSubTool "compact_construct_combine" (other_subtool "compact_construct_combine") true
    "combines the classic indices in <in_dir> to form a compact index";
  mkSubTool "ranfold_construct" (other_subtool "ranfold_construct") true
    "constructs a ranfold index from documents";
  mkSubTool "ranfold_construct_random" (other_subtool "ranfold_construct_random") true
    "constructs a ranfold index with random content";
  mkSubTool "query" query true
    "query an index";
  mkSubTool "print_parameters" (other_subtool "print_parameters") true
    "calculates index parameters";
  mkSubTool "print_kmers" print_kmers true
    "print all canonical kmers from <query>";
  mkSubTool "print_basepair_map" print_basepair_map true
    "print canonical basepair character mapping";
  mkSubTool "benchmark_fpr" (other_subtool "benchmark_fpr") true
    "run benchmark and false positive measurement";
  mkSubTool "generate_queries" (other_subtool "generate_queries") true
    "select queries randomly from documents"
].

(** [std::left << std::setw(width) << s] *)
Definition pad_right (width : nat) (s : string) : string :=
  s +:+ String.concat "" (replicate (width - String.length s) " ").

Definition main_usage (arg0 : string) : Tool Z :=
  _ ← cout "(Co)mpact (B)it-Sliced (S)ignature Index for Genome Search";
  _ ← cout "";
  _ ← cout ("Usage: " +:+ arg0 +:+ " <subtool> ...");
  _ ← cout "";
  _ ← cout "Available subtools: ";
  let shortlen :=
    foldl (fun acc t => if shortline t then Nat.max acc (String.length (name t)) else acc)
          0 subtools in
  _ ← for_each (fun t =>
         if shortline t then mret tt
         else
           _ ← cout ("  " +:+ name t);
           _ ← for_each cout (output_wrap (description t));
           cout "")
       subtools;
  _ ← for_each (fun t =>
         if shortline t then cout ("  " +:+ pad_right (shortlen + 2) (name t) +:+ description t)
         else mret tt)
       subtools;
  _ ← cout "";
  mret 0%Z.

(** The [try]/[catch] around the call of a subtool. *)
Definition catching (c : Tool Z) : Tool Z := fun w =>
  match c w with
  | (Threw what, w') =>
      (Returned (-1)%Z, mkWorld (files w') (out w') (err w' ++ ["EXCEPTION: " +:+ what]))
  | r => r
  end.

(** [snprintf(progsub, sizeof(progsub), "%s %s", argv[0], argv[1])] *)
Definition progsub (arg0 arg1 : string) : string :=
  String.substring 0 255 (arg0 +:+ " " +:+ arg1).

Definition main (argv : list string) : Tool Z :=
  match argv with
  | [] => main_usage ""
  | [arg0] => main_usage arg0
  | arg0 :: arg1 :: rest =>
      match List.find (fun t => bool_decide (name t = arg1)) subtools with
      | Some t => catching (func t (progsub arg0 arg1 :: rest))
      | None =>
          _ ← cout ("Unknown subtool '" +:+ arg1 +:+ "'");
          main_usage arg0
      end
  end.

(** The process as the shell sees it. *)
Definition run_main (argv : list string) (w : world) : status * world :=
  match main argv w with
  | (Returned code, w') => (Exit code, w')
  | (Died _, w') => (Terminated, w')
  | (Threw _, w') => (Terminated, w')
  end.

End Tools.

(** A small stand-in for the parser and the library, to run the tools on
    concrete command lines: the construct tools take
    [prog in_dir out_dir [-C] [--continue]], the query tool takes
    [prog in_file query]; construction leaves [out_dir/index.cobs]; a file
    has a classic header when it is named [classic.cobs], a compact one when
    it is named [compact.cobs]; searches find nothing; the directory [.]
    cannot be removed, everything else can. *)
Definition sample_cmdline (argv : list string) : option (construct_options unit) :=
  match argv with
  | _ :: i :: o :: flags =>
      Some (mkConstruct i o "any" (bool_decide ("-C" ∈ flags))
                        (bool_decide ("--continue" ∈ flags)) tt)
  | _ => None
  end.

Definition sample_library : Library := {|
  classic_params := unit;
  compact_params := unit;
  document_list := unit;
  cmdline_classic := sample_cmdline;
  cmdline_compact := sample_cmdline;
  cmdline_query := fun argv =>
    match argv with
    | [_; f; q] => Some (mkQuery f q 100)
    | _ => None
    end;
  cmdline_kmers := fun argv =>
    match argv with
    | [_; q] => Some (q, 31%Z)
    | _ => None
    end;
  cmdline_rejected := fun _ => mret tt;
  print_result_classic := fun _ => [];
  print_result_compact := fun _ => [];
  make_document_list := fun _ _ => mret tt;
  log_document_list := fun _ _ => mret tt;
  cobs_classic_construct := fun _ o _ w =>
    (Returned tt, mkWorld ({[ o; o +:+ "/index.cobs" ]} ∪ files w) (out w) (err w));
  cobs_compact_construct := fun _ o _ w =>
    (Returned tt, mkWorld ({[ o; o +:+ "/index.com_idx.cobs" ]} ∪ files w) (out w) (err w));
  has_classic_header := fun f _ => bool_decide (f = "classic.cobs");
  has_compact_header := fun f _ => bool_decide (f = "compact.cobs");
  search_classic := fun _ => mret ([], "timer");
  search_compact := fun _ => mret ([], "timer");
  canonicalize_kmer := fun window => window;
  remove_all_fails := fun p _ =>
    if bool_decide (p = ".") then Some ("cannot remove: Invalid argument", fun _ => false)
    else None;
  reads_behind_query := fun _ _ w => (Died "Segmentation fault", w);
  output_wrap := fun s => [s];
  other_subtool := fun _ _ => mret 0%Z
|}.

(** A world in which the output directory of the sample runs exists. *)
Definition sample_world : world :=
  mkWorld {[ "out"; "out/index.cobs" ]} [] [].

End Cli.

(** ** The bit-sliced index and the search over it

    The construction of a classic index (batch
    materialization, batch serialization, pairwise merge) and the query
    engine (k-mer extraction, row fetch, AND within a k-mer, accumulation
    into 16-bit counters, top-K).  The sources of both
    (cobs/construction/classic_index, cobs/query/classic_search) are not
    part of this development; only their callers and tests are.  The
    definitions below are therefore modelled from sections 3, 4.4, 4.5 and
    4.7 of the specification, whose words they quote.

    The hash family and the canonicalization are parameters: [hash i t] is
    the [i]-th 64-bit hash of the term [t], and [canonical] is what the
    index applies to a term before hashing it (the identity when the index
    is built without canonicalization). *)
Module Index.

Definition term : Type := list Z.

(** A document, as its source emits it: the stream of its k-mers. *)
Definition document : Type := list term.

(** Modelled from the spec: the counters are "uint16 counters", and a
    hit makes the engine "increment" one of them.  What a counter that
    stands at 65535 holds after one more increment is not said; it is left
    open here, as any 16-bit value: 0 for a counter that wraps around, 65535
    for one that saturates. *)
Class Overflow := { overflowed : Z }.

(** Modelled from the spec: a counter after "increment". *)
Definition next {overflow : Overflow} (c : Z) : Z :=
  if (c <? 65535)%Z then (c + 1)%Z else (overflowed mod 65536)%Z.

Section Model.
Context (hash : nat -> term -> Z) (canonical : term -> term)
        {overflow : Overflow}.

(** Modelled from the spec: row_indices.  "row_indices(term, k, h, m): ...
    each is taken modulo m". *)
Definition row_indices (t : term) (h : nat) (m : Z) : list nat :=
  (fun i => Z.to_nat (hash i t mod m)) <$> seq 0 h.

(** *** Construction *)

(** Modelled from the spec: batch materialization.  "for each k-mer,
    canonicalize if configured, compute h row indices, set bit (d, row_i)
    in M" *)
Definition add_term (h : nat) (m : Z) (filter : list bool) (t : term) : list bool :=
  foldl (fun f r => <[r := true]> f) filter (row_indices (canonical t) h m).

Definition bloom_filter (h : nat) (m : Z) (doc : document) : list bool :=
  foldl (add_term h m) (replicate (Z.to_nat m) false) doc.

(** Modelled from the spec: "a matrix M of size B x m bits (one Bloom
    filter per document)" *)
Definition materialize (h : nat) (m : Z) (docs : list document) : list (list bool) :=
  bloom_filter h m <$> docs.

(** Modelled from the spec: "Bit ordering within a byte is LSB-first
    relative to the document index inside the byte." *)
Definition byte_of_bits (bits : list bool) : Z :=
  foldr (fun b acc => (Z.b2z b + 2 * acc)%Z) 0%Z bits.

(** Modelled from the spec: "row_size = ceil(B / 8)" *)
Definition row_size (B : nat) : nat := (B + 7) / 8.

(** Modelled from the spec: "byte b encodes documents [8b, 8b+8) of row
    r" *)
Definition pack_row (bits : list bool) : list Z :=
  (fun b => byte_of_bits (take 8 (drop (8 * b) bits)))
    <$> seq 0 (row_size (length bits)).

(** Bit [d] of a stored row. *)
Definition row_bit (row : list Z) (d : nat) : bool :=
  Z.testbit (default 0%Z (row !! (d / 8))) (Z.of_nat (d mod 8)).

Definition unpack_row (B : nat) (row : list Z) : list bool :=
  row_bit row <$> seq 0 B.

(** A (sub-)index file: the header fields that matter here and the body,
    [signature_size] rows of [row_size num_documents] bytes. *)
Record batch := mkBatch {
  signature_size : Z;
  num_documents : nat;
  body : list (list Z)
}.

(** Modelled from the spec: batch serialization.  "Write a transposed
    view: for r in 0..m, emit ceil(B/8) bytes" *)
Definition serialize (m : Z) (M : list (list bool)) : batch :=
  mkBatch m (length M)
          ((fun r => pack_row ((fun f => default false (f !! r)) <$> M))
             <$> seq 0 (Z.to_nat m)).

(** Modelled from the spec: merge.  "A merge of two batches with document
    counts B1, B2 and identical m produces a batch of documents B1+B2 whose
    row r is the concatenation (B1 bits then B2 bits) of the source rows". *)
Definition merge (b1 b2 : batch) : batch :=
  mkBatch (signature_size b1) (num_documents b1 + num_documents b2)
          (zip_with (fun r1 r2 =>
                       pack_row (unpack_row (num_documents b1) r1
                                   ++ unpack_row (num_documents b2) r2))
                    (body b1) (body b2)).

(** Modelled from the spec: the merge tree.  "Merge-combine successive
    batches pairwise (binary merge tree) until a single file remains."  One
    level halves the number of files, so as many levels as there are files
    are enough fuel. *)
Fixpoint merge_level (bs : list batch) : list batch :=
  match bs with
  | b1 :: b2 :: rest => merge b1 b2 :: merge_level rest
  | _ => bs
  end.

Fixpoint merge_tree (fuel : nat) (bs : list batch) : option batch :=
  match bs with
  | [] => None
  | [b] => Some b
  | _ =>
      match fuel with
      | O => None
      | S fuel' => merge_tree fuel' (merge_level bs)
      end
  end.

(** Consecutive groups of [size] elements, the last one possibly short. *)
Fixpoint chunks {A} (fuel size : nat) (l : list A) : list (list A) :=
  match fuel with
  | O => []
  | S fuel' =>
      match l with
      | [] => []
      | _ => take size l :: chunks fuel' size (drop size l)
      end
  end.

(** Modelled from the spec: the classic builder.  Batches of [batch_size]
    documents, all with the same signature size [m], are materialized,
    serialized and merged into one file; there is no file for an empty
    document list. *)
Definition classic_construct (h : nat) (m : Z) (batch_size : nat)
    (docs : list document) : option batch :=
  let batches :=
    (fun ds => serialize m (materialize h m ds))
      <$> chunks (length docs) batch_size docs in
  merge_tree (length batches) batches.

(** *** Query *)

(** Modelled from the spec: k-mer extraction.  "Produce a list of |Q|-k+1
    k-mer windows"; none when the query is shorter than [k], a case the
    specification leaves open. *)
Definition kmers (Q : term) (k : nat) : list term :=
  if decide (length Q < k) then []
  else (fun i => take k (drop i Q)) <$> seq 0 (length Q - k + 1).

Definition fetch_row (b : batch) (r : nat) : list Z :=
  default [] (body b !! r).

(** Modelled from the spec: "AND its h fetched rows together into a
    transient row-sized buffer" *)
Definition and_rows (rows : list (list Z)) : list Z :=
  match rows with
  | [] => []
  | r :: rs => foldl (zip_with Z.land) r rs
  end.

Definition kmer_row (b : batch) (h : nat) (t : term) : list Z :=
  and_rows (fetch_row b <$> row_indices (canonical t) h (signature_size b)).

(** Modelled from the spec: "increment counter[b*8+j]", one step of a
    [uint16] counter. *)
Definition increment (counters : list Z) (i : nat) : list Z :=
  match counters !! i with
  | Some c => <[i := next c]> counters
  | None => counters
  end.

(** Modelled from the spec: bit-sliced accumulation.  "For each byte
    position b of the combined row and each of the 8 bits b*8+j, if set,
    increment counter[b*8+j]" *)
Definition add_byte (b : nat) (byte : Z) (counters : list Z) : list Z :=
  foldl (fun cs j =>
           if Z.testbit byte (Z.of_nat j) then increment cs (8 * b + j) else cs)
        counters (seq 0 8).

Definition add_row (row : list Z) (counters : list Z) : list Z :=
  foldl (fun cs b => add_byte b (default 0%Z (row !! b)) cs)
        counters (seq 0 (length row)).

(** Modelled from the spec: "an array of uint16 counters of length equal
    to the number of documents", filled k-mer by k-mer. *)
Definition counts (b : batch) (h k : nat) (Q : term) : list Z :=
  foldl (fun cs t => add_row (kmer_row b h t) cs)
        (replicate (num_documents b) 0%Z) (kmers Q k).

(** Modelled from the spec: top-K selection.  "Partial-sort the
    per-document counters descending; tie-breaks by document index
    ascending." *)
Definition before (x y : Z * nat) : Prop :=
  (x.1 > y.1)%Z \/ (x.1 = y.1 /\ x.2 <= y.2).

#[export] Instance before_dec x y : Decision (before x y).
Proof. unfold before. apply _. Defined.

(** Modelled from the spec: the search.  "Emit up to K (score, name)
    pairs"; a document is named by its index. *)
Definition search (b : batch) (h k : nat) (Q : term) (top_k : nat) : list (Z * nat) :=
  take top_k (merge_sort before (imap (fun d c => (c, d)) (counts b h k Q))).

(** The h-wise AND test of one k-mer against one document column. *)
Definition passes (b : batch) (h : nat) (d : nat) (t : term) : bool :=
  forallb (fun r => row_bit (fetch_row b r) d)
          (row_indices (canonical t) h (signature_size b)).

(** The number of a query's k-mers that pass the test for document [d]. *)
Definition hits (b : batch) (h k : nat) (Q : term) (d : nat) : Z :=
  Z.of_nat (length (List.filter (passes b h d) (kmers Q k))).

(** *** The compact index *)

(** Modelled from the spec: the compact builder.  "Partition the N
    documents into ceil(N/page_size) pages ...  For each
    page, run the classic builder with that page's documents as a full input,
    producing a classic sub-index file with its own m_page"; [m_page] is the
    signature size chosen for a page. *)
Definition compact_construct (h : nat) (m_page : list document -> Z)
    (batch_size page_size : nat) (docs : list document) : option (list batch) :=
  mapM (fun page => classic_construct h (m_page page) batch_size page)
       (chunks (length docs) page_size docs).

(** Modelled from the spec: "each page is queried independently": the
    counters of all pages, in
    page order, so that the counter of document [d] is at position [d]. *)
Definition compact_counts (pages : list batch) (h k : nat) (Q : term) : list Z :=
  concat ((fun b => counts b h k Q) <$> pages).

(** Modelled from the spec: "concatenate per-page results and re-sort" *)
Definition compact_search (pages : list batch) (h k : nat) (Q : term)
    (top_k : nat) : list (Z * nat) :=
  take top_k (merge_sort before (imap (fun d c => (c, d)) (compact_counts pages h k Q))).

(** A body of the announced shape. *)
Definition well_formed (b : batch) : Prop :=
  (1 <= signature_size b)%Z
  /\ length (body b) = Z.to_nat (signature_size b)
  /\ Forall (fun row => length row = row_size (num_documents b)) (body b).

(** *** What an index file stands for *)

(** Bit [r] of the filter of document [d]; 0 when there is no such
    document. *)
Definition filter_bit (h : nat) (m : Z) (docs : list document) (d r : nat) : bool :=
  default false (doc ← docs !! d; bloom_filter h m doc !! r).

(** [b] is the bit-sliced form of the filters of [docs]: row [r], seen as
    bits, has bit [d] set exactly when the filter of document [d] has bit
    [r] set, and the padding bits are 0. *)
Definition represents (h : nat) (m : Z) (docs : list document) (b : batch) : Prop :=
  signature_size b = m
  /\ num_documents b = length docs
  /\ length (body b) = Z.to_nat m
  /\ forall r row, body b !! r = Some row ->
       length row = row_size (length docs)
       /\ forall d, row_bit row d = filter_bit h m docs d r.

End Model.

(** The documents of consecutive pairs of batches, as [merge_level] joins
    them. *)
Fixpoint pair_up (gs : list (list document)) : list (list document) :=
  match gs with
  | g1 :: g2 :: rest => (g1 ++ g2) :: pair_up rest
  | _ => gs
  end.

(** A counter after a k-mer: incremented when the k-mer hits. *)
Definition bumped {overflow : Overflow} (hit : bool) (c : Z) : Z :=
  if hit then next c else c.

(** The counters of the concrete runs below wrap around. *)
Definition wrapping : Overflow := {| overflowed := 0 |}.

(** The canonicalization of an index built with [canonicalize = 0]. *)
Definition as_given (t : term) : term := t.

(** A stand-in for the hash family, to run the model on concrete data. *)
Definition sample_hash (i : nat) (t : term) : Z :=
  foldl (fun acc b => ((acc * 31 + b) mod 2 ^ 64)%Z) (Z.of_nat i + 7)%Z t.

(** Three small documents of 2-mers, and the index that
    [classic_construct] builds from them with two hashes, eleven rows and
    batches of two documents. *)
Definition sample_docs : list document :=
  [ [[65; 67]; [67; 71]]; [[84; 84]]; [[71; 84]; [65; 67]] ]%Z.

Definition sample_index : batch :=
  mkBatch 11 3 [[0]; [0]; [5]; [6]; [0]; [0]; [0]; [4]; [0]; [5]; [2]]%Z.

(** An index of one document whose only row has the bit of that document
    set: every k-mer passes the test. *)
Definition one_row_index : batch := mkBatch 1 1 [[1%Z]].

End Index.

(** ** The classic index reader (cobs/query/classic_index/base.hpp) *)
Module ClassicIndex.

(** [cobs::ClassicIndexHeader], by the accessors the reader uses and the
    fields the specification lists for the header. *)
Record ClassicIndexHeader := mkHeader {
  header_term_size : Z;          (* uint32_t *)
  header_canonicalize : Z;       (* uint8_t *)
  header_num_hashes : Z;         (* uint64_t *)
  header_signature_size : Z;     (* uint64_t *)
  header_row_size : Z;           (* uint64_t *)
  header_file_names : list string
}.

(** The virtual interface [query::IndexFile], as far as [base] overrides it
    inline.  ([counts_size] is only declared in base.hpp; its body is in a
    source file that is not included here.) *)
Class IndexFile (T : Type) := {
  term_size : T -> Z;
  canonicalize : T -> Z;
  num_hashes : T -> Z;
  row_size : T -> Z;
  page_size : T -> Z;
  file_names : T -> list string
}.

(** [class base], with its one data member. *)
Record base := mkBase { header_ : ClassicIndexHeader }.

#[export] Instance base_index_file : IndexFile base := {|
  term_size b := header_term_size (header_ b);
  canonicalize b := header_canonicalize (header_ b);
  num_hashes b := header_num_hashes (header_ b);
  row_size b := header_row_size (header_ b);
  page_size _ := 1%Z;
  file_names b := header_file_names (header_ b)
|}.

End ClassicIndex.

(** ** The Bloom sizer

    [calc_signature_size] and [calc_signature_size_ratio] are declared in
    cobs/util/calc_signature_size.hpp, which is not among the sources;
    [print_parameters] only calls them.  They are modelled from section 4.2
    of the specification, read over the real numbers. *)
Module Sizer.

(** The least integer that is not below [x]. *)
Definition ceiling (x : R) : Z := (- Int_part (- x))%Z.

(** Modelled from the spec: [calc_signature_size_ratio].  "given (h, p),
    compute bits-per-element ratio" *)
Definition signature_size_ratio (h : Z) (p : R) : R :=
  (- IZR h / ln (1 - Rpower p (1 / IZR h)))%R.

(** The quantity under the ceiling. *)
Definition exact_size (n h : Z) (p : R) : R :=
  (- (IZR n * IZR h) / ln (1 - Rpower p (1 / IZR h)))%R.

(** Modelled from the spec: [calc_signature_size].  "signature_size(n, h,
    p) = ceil(-n*h / ln(1 - p^(1/h))), clamped to >= 1" *)
Definition signature_size (n h : Z) (p : R) : Z :=
  Z.max 1 (ceiling (exact_size n h p)).

End Sizer.


(** ** Mapping an index file (isi/util/query.cpp)

    [initialize_mmap] and [destroy_mmap] against a small operating system:
    the descriptors that are open, the mappings that exist (address and
    length), and what has been reported.  What the system answers to [open],
    [mmap] and [madvise] is given from outside.  Addresses are integers.

    [exit_error_errno] and [print_errno] (isi/util/error_handling.hpp) are
    not among the sources; as their names say, the first reports and ends the
    process, the second reports and returns. *)
Module Mmap.

Record stream_metadata := mkSmd {
  curr_pos : Z;     (* uint64_t: where the body starts in the file *)
  end_pos : Z       (* uint64_t: the size of the file *)
}.

Record os := mkOs {
  open_fds : gset Z;
  mapped : gmap Z Z;          (* start address -> length *)
  reported : list string
}.

(** The answers of the system to the three calls of [initialize_mmap]. *)
Record answers := mkAnswers {
  open_returns : Z;               (* a descriptor, or -1 *)
  mmap_returns : option Z;        (* an address, or MAP_FAILED *)
  madvise_returns : Z             (* 0, or -1 *)
}.

Inductive outcome (A : Type) :=
| Done (a : A)
| Exited (msg : string).
Arguments Done {A} a.
Arguments Exited {A} msg.

Definition print_errno (msg : string) (s : os) : os :=
  mkOs (open_fds s) (mapped s) (reported s ++ [msg]).

Definition initialize_mmap (path : string) (smd : stream_metadata)
    (env : answers) (s : os) : outcome (Z * Z) * os :=
  let fd := open_returns env in
  if bool_decide (fd = -1)%Z then
    (Exited ("could not open index file " +:+ path), print_errno ("could not open index file " +:+ path) s)
  else
    let s1 := mkOs ({[ fd ]} ∪ open_fds s) (mapped s) (reported s) in
    match mmap_returns env with
    | None => (Exited "mmap failed", print_errno "mmap failed" s1)
    | Some mmap_ptr =>
        let s2 := mkOs (open_fds s1) (<[mmap_ptr := end_pos smd]> (mapped s1)) (reported s1) in
        let s3 := if bool_decide (madvise_returns env = 0)%Z then s2
                  else print_errno "madvise failed" s2 in
        (Done (fd, (curr_pos smd + mmap_ptr)%Z), s3)
    end.

(** The page size and the size of the address space, as on x86-64 Linux. *)
Definition os_page_size : Z := 4096.
Definition task_size : Z := 2 ^ 47.

(** A length rounded up to whole pages, as [mmap] and [munmap] do. *)
Definition round_up (len : Z) : Z :=
  ((len + os_page_size - 1) / os_page_size * os_page_size)%Z.

(** The mapping [a ↦ l] has a page in the range from [lo] to [hi]. *)
Definition in_range (lo hi a l : Z) : bool :=
  (a <? hi)%Z && (lo <? a + round_up l)%Z.

(** The mappings after the pages from [lo] to [hi] are unmapped: a mapping
    with no page in the range stays; of one that reaches into the range,
    what lies below [lo] stays under its address, and what lies above [hi]
    becomes a mapping that starts at [hi]. *)
Definition unmap_range (lo hi : Z) (m : gmap Z Z) : gmap Z Z :=
  map_imap (fun a l =>
              if in_range lo hi a l
              then (if (a <? lo)%Z then Some (lo - a)%Z else None)
              else Some l) m
  ∪ map_fold (fun a l above =>
                if in_range lo hi a l && (hi <? a + round_up l)%Z
                then <[hi := (a + l - hi)%Z]> above else above) ∅ m.

(** Mappings as the system lays them out: they start at page boundaries,
    are not empty and do not overlap. *)
Definition laid_out (m : gmap Z Z) : Prop :=
  (forall a l, m !! a = Some l -> (a mod os_page_size = 0 /\ 0 < l)%Z)
  /\ (forall a l a' l', m !! a = Some l -> m !! a' = Some l' -> a <> a' ->
        (a + round_up l <= a' \/ a' + round_up l' <= a)%Z).

(** [munmap(addr, len)].  The call fails with [EINVAL] when [addr] is not
    at a page boundary, when [len] is 0, or when the range leaves the address
    space.  Otherwise it unmaps every page of the range and succeeds, whether
    or not pages of the range were mapped.  When the range is a mapping of its
    own, as [mmap] made it, that mapping is what goes: mappings do not overlap,
    so no other has a page in the range (see [unmap_own_mapping]). *)
Definition munmap (addr len : Z) (s : os) : bool * os :=
  if bool_decide (mapped s !! addr = Some len)
  then (true, mkOs (open_fds s) (delete addr (mapped s)) (reported s))
  else if bool_decide (addr mod os_page_size = 0 /\ 0 <= addr /\ 0 < len
                       /\ addr + len <= task_size)%Z
  then (true, mkOs (open_fds s)
                   (unmap_range addr (addr + round_up len) (mapped s))
                   (reported s))
  else (false, s).

(** [close(fd)]: succeeds on an open descriptor. *)
Definition close (fd : Z) (s : os) : bool * os :=
  if bool_decide (fd ∈ open_fds s)
  then (true, mkOs (open_fds s ∖ {[ fd ]}) (mapped s) (reported s))
  else (false, s).

Definition destroy_mmap (fd mmap_ptr : Z) (smd : stream_metadata) (s : os) : os :=
  let '(unmapped, s1) := munmap (mmap_ptr - curr_pos smd)%Z (end_pos smd) s in
  let s2 := if unmapped then s1 else print_errno "could not unmap index file" s1 in
  let '(closed, s3) := close fd s2 in
  if closed then s3 else print_errno "could not close index file" s3.

End Mmap.

(** ** More of src/cobs.cpp: the loops of [print_document_list] and
    [generate_queries] *)
Module CobsMore.

(** [size_t] addition. *)
Definition size_t_add (a b : Z) : Z := ((a + b) mod 2 ^ 64)%Z.

(** The ten names [StringToFileType] knows, in the order it tests them. *)
Definition file_type_names : list string :=
  ["any"; "*"; "text"; "txt"; "cortex"; "ctx"; "cobs"; "cobs_doc"; "fasta"; "fastq"].

(** [print_document_list]: [max_kmers] and [total_kmers] after the loop,
    from the [num_terms] of the documents in order. *)
Definition document_statistics (num_terms : list Z) : Z * Z :=
  foldl (fun '(max_kmers, total_kmers) n =>
           (Z.max max_kmers n, size_t_add total_kmers n))
        (0%Z, 0%Z) num_terms.

(** [generate_queries]: [terms_prefixsum] and [total_terms] after the loop
    [terms_prefixsum.push_back(total_terms); total_terms += num_terms]. *)
Definition terms_prefixsum (num_terms : list Z) : list Z * Z :=
  foldl (fun '(prefixsum, total_terms) n =>
           (prefixsum ++ [total_terms], size_t_add total_terms n))
        ([], 0%Z) num_terms.

(** [struct Query] of [generate_queries]; a negative query has
    [doc_index = size_t(-1)] and its [term_index] is never assigned. *)
Record Query := mkGenQuery {
  term : string;
  doc_index : Z;
  term_index : option Z
}.

Definition no_document : Z := (2 ^ 64 - 1)%Z.

(** The loop that moves negative queries into [queries]:
    [for (auto it = negatives.begin(); ni < num_negative; ++it)], skipping
    the strings that were cleared.  [missing] is [num_negative - ni].  The
    iterator is not compared with [negatives.end()]; stepping over the end is
    undefined behaviour, here [None]. *)
Fixpoint collect_negatives (it : list string) (missing : nat) {struct it}
  : option (list Query) :=
  match missing with
  | O => Some []
  | S missing' =>
      match it with
      | [] => None
      | neg :: it' =>
          if bool_decide (neg = EmptyString) then collect_negatives it' missing
          else cons (mkGenQuery neg no_document None)
                 <$> collect_negatives it' missing'
      end
  end.

Inductive gathered :=
| Queries (queries : list Query)     (* what is handed to [std::shuffle] *)
| NotEnough                          (* the [die] of the check *)
| PastTheEnd.                        (* the loop left the vector *)

(** From "check if there are enough negatives queries left" to the
    [std::shuffle]. *)
Definition gather_queries (positives : list Query) (negatives : list string)
    (num_negative : nat) : gathered :=
  if (length negatives <? num_negative)%nat then NotEnough
  else
    match collect_negatives negatives num_negative with
    | Some found => Queries (positives ++ found)
    | None => PastTheEnd
    end.

End CobsMore.

(** ** The score histogram of src/exp_fp_dist.cpp *)
Module ExpFpDist.

(** [for (const auto& r: result) counts[r.first]++;] on a
    [std::map<size_t, size_t>]: a missing key starts at 0. *)
Definition count_scores (counts : gmap Z Z) (result : list (Z * string)) : gmap Z Z :=
  foldl (fun m r => <[r.1 := ((default 0 (m !! r.1) + 1) mod 2 ^ 64)%Z]> m)
        counts result.

(** The map after the loop over the queries, from the result vector of each
    search. *)
Definition histogram (results : list (list (Z * string))) : gmap Z Z :=
  foldl count_scores ∅ results.

(** The lines written for one index: [score,count,in], by ascending
    score, as the iteration over a [std::map] goes. *)
Definition histogram_lines (results : list (list (Z * string))) (index : Z) : list string :=
  (fun a : Z * Z => pretty a.1 +:+ "," +:+ pretty a.2 +:+ "," +:+ pretty index)
    <$> @merge_sort (Z * Z) (fun x y => (x.1 <= y.1)%Z)
          (fun x y => decide (x.1 <= y.1)%Z) (map_to_list (histogram results)).

End ExpFpDist.

(** ** A stand-in library with a chosen file type *)
Module CliSamples.
Import Cli.

(** [Cli.sample_library] with the [--file_type] option read as [ft]. *)
Definition typed_library (ft : string) : Library := {|
  classic_params := unit;
  compact_params := unit;
  document_list := unit;
  cmdline_classic := fun argv =>
    (fun o => mkConstruct (in_dir o) (out_dir o) ft
                (clobber o) (continue_ o) tt)
      <$> sample_cmdline argv;
  cmdline_compact := sample_cmdline;
  cmdline_query := @cmdline_query sample_library;
  cmdline_kmers := @cmdline_kmers sample_library;
  cmdline_rejected := @cmdline_rejected sample_library;
  print_result_classic := fun _ => [];
  print_result_compact := fun _ => [];
  make_document_list := fun _ _ => mret tt;
  log_document_list := fun _ _ => mret tt;
  cobs_classic_construct := @cobs_classic_construct sample_library;
  cobs_compact_construct := @cobs_compact_construct sample_library;
  has_classic_header := @has_classic_header sample_library;
  has_compact_header := @has_compact_header sample_library;
  search_classic := @search_classic sample_library;
  search_compact := @search_compact sample_library;
  canonicalize_kmer := @canonicalize_kmer sample_library;
  remove_all_fails := @remove_all_fails sample_library;
  reads_behind_query := @reads_behind_query sample_library;
  output_wrap := @output_wrap sample_library;
  other_subtool := @other_subtool sample_library
|}.

End CliSamples.

(** ** [doc_dump] (src/cobs.cpp), from the document list on *)
Module DocDump.
Import Cli.

(** What [doc_dump] uses of an entry of the [cobs::DocumentList]. *)
Record document := mkDocument {
  path_ : string;
  name_ : string;
  terms : list string;   (* what [process_terms] hands to the callback, in order *)
  num_terms : Z          (* [num_terms(term_size)] *)
}.

(** One round of the loop, for the document at index [i]. *)
Definition dump_document (i : nat) (d : document) : Tool unit :=
  _ ← cerr ("document[" +:+ pretty i +:+ "] : " +:+ path_ d +:+ " : " +:+ name_ d);
  _ ← for_each cout (terms d);
  cerr ("document[" +:+ pretty i +:+ "] : " +:+ pretty (num_terms d) +:+ " terms.").

Fixpoint dump_from (i : nat) (filelist : list document) : Tool unit :=
  match filelist with
  | [] => mret tt
  | d :: filelist' => _ ← dump_document i d; dump_from (S i) filelist'
  end.

Definition doc_dump (filelist : list document) : Tool Z :=
  _ ← cerr ("Found " +:+ pretty (length filelist) +:+ " documents.");
  _ ← dump_from 0 filelist;
  mret 0%Z.

End DocDump.
(* ================================================================== *)
(** * Part II: properties *)
(* ================================================================== *)

Import Mem NormalizeKmer CanonicalSpec.

Ltac Zify.zify_post_hook ::= Z.to_euclidean_division_equations.


Lemma bind_unfold {A B} (c : Cmd A) (f : A -> Cmd B) (s : state) :
  (c ≫= f) s = match c s with Some (a, s') => f a s' | None => None end.
Proof. reflexivity. Qed.

Lemma load_in_range (r : region) (off : nat) (s : state) (v : Z) :
  region_bytes r s !! off = Some v ->
  load r off s = Some (v, record (Load r off) s).
Proof. intros H. unfold load. by rewrite H. Qed.

Lemma load_out_of_range (r : region) (off : nat) (s : state) :
  length (region_bytes r s) <= off -> load r off s = None.
Proof.
  intros H. unfold load. by rewrite (lookup_ge_None_2 _ _ H).
Qed.

Lemma bind_load {B} (r : region) (off : nat) (s : state) (v : Z) (f : Z -> Cmd B) :
  region_bytes r s !! off = Some v ->
  (load r off ≫= f) s = f v (record (Load r off) s).
Proof. intros H. rewrite bind_unfold, (load_in_range r off s v H). done. Qed.

Lemma scan_runs (fuel k c : nat) (s : state) :
  k < length (query_bytes s) ->
  c <= k / 2 ->
  k / 2 - c <= fuel ->
  exists c' t,
    scan fuel k c (k - c) c s
      = Some ((c', k - c', c'),
              mkState (query_bytes s) (buffer_bytes s)
                      (trace s ++ Load Query c :: Load Query (k - c) :: t))
    /\ c <= c' <= k / 2
    /\ Forall (is_query_load k) t
    /\ (forall i, c <= i < c' -> query_bytes s !! i = query_bytes s !! (k - i))
    /\ (c' < k / 2 -> query_bytes s !! c' <> query_bytes s !! (k - c')).
Proof.
  revert c s. induction fuel as [|fuel IH]; intros c s Hlen Hc Hfuel.
  - assert (c = k / 2) as Hck by lia.
    destruct (lookup_lt_is_Some_2 (query_bytes s) c) as [a Ha]; [lia|].
    destruct (lookup_lt_is_Some_2 (query_bytes s) (k - c)) as [b Hb]; [lia|].
    exists c, []. split; [|repeat split; try lia; auto].
    + cbn [scan]. rewrite (bind_load Query c s a _ Ha); cbv beta.
      rewrite (bind_load Query (k - c) (record (Load Query c) s) b _ Hb); cbv beta.
      rewrite (bool_decide_eq_false_2 (c < k / 2)) by lia.
      rewrite andb_false_r. unfold record; cbn. by rewrite <- app_assoc.
  - destruct (lookup_lt_is_Some_2 (query_bytes s) c) as [a Ha]; [lia|].
    destruct (lookup_lt_is_Some_2 (query_bytes s) (k - c)) as [b Hb]; [lia|].
    cbn [scan]. rewrite (bind_load Query c s a _ Ha); cbv beta.
    rewrite (bind_load Query (k - c) (record (Load Query c) s) b _ Hb); cbv beta.
    destruct (bool_decide (a = b) && bool_decide (c < k / 2)) eqn:Hcond.
    + apply andb_true_iff in Hcond as [Hab Hlt].
      apply bool_decide_eq_true_1 in Hab, Hlt. subst b.
      set (s1 := record (Load Query (k - c)) (record (Load Query c) s)).
      destruct (IH (c + 1) s1) as (c' & t & Hrun & Hb' & Ht & Heq & Hne);
        [cbn; lia | lia | lia |].
      replace (k - c - 1) with (k - (c + 1)) by lia.
      exists c', (Load Query (c + 1) :: Load Query (k - (c + 1)) :: t).
      split; [|repeat split].
      * rewrite Hrun. cbn. by rewrite <- !app_assoc.
      * lia.
      * lia.
      * constructor; [exists (c + 1); split; [done|lia]|].
        constructor; [exists (k - (c + 1)); split; [done|lia]|]. done.
      * intros i Hi. destruct (decide (i = c)) as [->|Hic].
        -- by rewrite Ha, Hb.
        -- apply (Heq i). lia.
      * exact Hne.
    + exists c, []. split; [|repeat split; try lia; auto].
      * unfold record; cbn. by rewrite <- app_assoc.
      * intros Hlt. rewrite Ha, Hb. intros [= ->].
        rewrite bool_decide_eq_true_2 in Hcond by done.
        rewrite bool_decide_eq_true_2 in Hcond by done. discriminate.
Qed.


Lemma bind_store {B} (r : region) (off : nat) (v : Z) (s : state) (f : unit -> Cmd B) :
  off < length (region_bytes r s) ->
  (store r off v ≫= f) s = f tt (record (Store r off v) (write r off v s)).
Proof.
  intros H. rewrite bind_unfold. unfold store. by rewrite decide_True.
Qed.

Lemma copy_event_weaken (last d n last' d' n' : nat) (e : event) :
  last' <= last -> d <= d' -> d' + n' <= d + n ->
  copy_event last' d' n' e -> copy_event last d n e.
Proof.
  intros ? ? ? [(off & -> & ?)|(off & v & -> & ?)].
  - left. exists off. split; [done|lia].
  - right. exists off, v. split; [done|lia].
Qed.

Lemma reverse_copy_runs (n last d : nat) (s : state) :
  n <= last ->
  last <= length (query_bytes s) ->
  d + n <= length (buffer_bytes s) ->
  exists t,
    reverse_copy n last d s
      = Some (d + n,
              mkState (query_bytes s)
                      (take d (buffer_bytes s)
                         ++ reverse (take n (drop (last - n) (query_bytes s)))
                         ++ drop (d + n) (buffer_bytes s))
                      (trace s ++ t))
    /\ Forall (copy_event last d n) t
    /\ store_count t = n.
Proof.
  revert last d s. induction n as [|n IH]; intros last d s Hn Hlast Hd.
  - exists []. split; [|split; [constructor|done]].
    cbn. rewrite Nat.add_0_r, app_nil_r, take_0. cbn. rewrite take_drop. by destruct s.
  - destruct (lookup_lt_is_Some_2 (query_bytes s) (last - 1)) as [v Hv]; [lia|].
    cbn [reverse_copy].
    rewrite (bind_load Query (last - 1) s v _ Hv); cbv beta.
    rewrite bind_store by (cbn; lia).
    set (s2 := record _ (write _ _ _ _)).
    destruct (IH (last - 1) (d + 1) s2) as (t & Hrun & Ht & Hcount);
      [lia | cbn; lia | cbn; rewrite length_insert; lia |].
    exists (Load Query (last - 1) :: Store Buffer d v :: t).
    split; [|split].
    + rewrite Hrun. f_equal. f_equal; [lia|]. subst s2; cbn. f_equal.
      * replace (last - 1 - n) with (last - S n) by lia.
        rewrite (take_S_r _ n v) by (rewrite lookup_drop, <- Hv; f_equal; lia).
        rewrite reverse_snoc.
        replace (d + 1) with (S d) by lia.
        rewrite (take_S_r _ d v) by (apply list_lookup_insert_eq; lia).
        rewrite take_insert_ge by lia.
        rewrite drop_insert_lt by lia.
        rewrite <- app_assoc. cbn. by replace (S (d + n)) with (d + S n) by lia.
      * by rewrite <- !app_assoc.
    + constructor; [left; exists (last - 1); split; [done|lia]|].
      constructor; [right; exists d, v; split; [done|lia]|].
      eapply Forall_impl; [exact Ht|].
      intros e He. eapply copy_event_weaken; [| | |exact He]; lia.
    + unfold store_count in *. cbn. by rewrite Hcount.
Qed.


(** Both outcomes of a call, with the memory and the log it leaves. *)
Lemma run_cases (q buf : list Z) (k : nat) :
  k < length q ->
  k <= length buf ->
  exists c a b t,
    c <= k / 2
    /\ scan_stop q k = Some (c, k - c, c)
    /\ q !! c = Some a /\ q !! (k - c) = Some b
    /\ (c < k / 2 -> a <> b)
    /\ (((a <= b)%Z
         /\ run q buf k
            = Some (Ptr Query 0,
                    mkState q buf (Load Query 0 :: Load Query k :: t))
         /\ Forall (is_query_load k) t)
        \/ ((b < a)%Z
            /\ run q buf k
               = Some (Ptr Buffer 0,
                       mkState q (reverse (take k q) ++ drop k buf)
                               (Load Query 0 :: Load Query k :: t))
            /\ Forall (fun e => is_query_load k e \/ copy_event k 0 k e) t
            /\ store_count t = k)).
Proof.
  intros Hq Hbuf.
  destruct (scan_runs (k / 2) k 0 (mkState q buf [])) as (c & t & Hrun & Hc & Ht & Heq1 & Hne);
    [done | lia | lia |].
  destruct (scan_runs (k / 2) k 0 (mkState q [] [])) as (c0 & t0 & Hrun0 & Hc0 & _ & Heq0 & Hne0);
    [done | lia | lia |].
  cbn [query_bytes buffer_bytes trace app] in Hrun, Hrun0, Hne, Hne0, Heq0, Heq1.
  rewrite Nat.sub_0_r in Hrun, Hrun0.
  assert (c0 = c) as ->.
  { destruct (Nat.lt_trichotomy c0 c) as [Hlt|[Heq|Hgt]]; [|done|].
    - exfalso. apply Hne0; [lia|]. apply Heq1. lia.
    - exfalso. apply Hne; [lia|]. apply Heq0. lia. }
  destruct (lookup_lt_is_Some_2 q c) as [a Ha]; [lia|].
  destruct (lookup_lt_is_Some_2 q (k - c)) as [b Hb]; [lia|].
  exists c, a, b.
  assert (Hstop : scan_stop q k = Some (c, k - c, c)).
  { unfold scan_stop. by rewrite Hrun0. }
  assert (Hab : c < k / 2 -> a <> b).
  { intros Hlt ->. apply (Hne Hlt). by rewrite Ha, Hb. }
  unfold run, normalize_kmer. rewrite bind_unfold, Hrun. cbv beta iota.
  set (s1 := mkState q buf _).
  rewrite (bind_load Query c s1 a _ Ha); cbv beta.
  rewrite (bind_load Query (k - c) (record (Load Query c) s1) b _ Hb); cbv beta.
  destruct (decide (a <= b)%Z) as [Hle|Hgt].
  - rewrite bool_decide_eq_true_2 by done.
    exists (t ++ [Load Query c; Load Query (k - c)]).
    split; [lia|]. do 4 (split; [done|]). left. split; [done|]. split.
    + subst s1. rewrite Nat.sub_diag. unfold mret, cmd_ret, record. cbn.
      by rewrite <- ?app_assoc.
    + apply Forall_app. split; [done|].
      constructor; [exists c; split; [done|lia]|].
      constructor; [exists (k - c); split; [done|lia]|]. constructor.
  - rewrite bool_decide_eq_false_2 by done. cbv zeta.
    rewrite Nat.sub_diag, Nat.sub_0_r.
    replace (k - c + c) with k by lia.
    rewrite bind_unfold.
    set (s2 := record _ (record _ s1)).
    destruct (reverse_copy_runs k k 0 s2) as (t2 & Hcopy & Ht2 & Hcount);
      [lia | cbn; lia | cbn; lia |].
    rewrite Hcopy.
    exists (t ++ [Load Query c; Load Query (k - c)] ++ t2).
    split; [lia|]. do 4 (split; [done|]). right. split; [lia|]. split; [|split].
    + subst s2 s1. unfold mret, cmd_ret, record. cbn.
      rewrite ?take_0, ?drop_0, ?Nat.sub_diag, ?drop_0. cbn. by rewrite <- ?app_assoc.
    + apply Forall_app. split.
      { eapply Forall_impl; [exact Ht|]. intros; by left. }
      constructor; [left; exists c; split; [done|lia]|].
      constructor; [left; exists (k - c); split; [done|lia]|].
      eapply Forall_impl; [exact Ht2|]. intros; by right.
    + unfold store_count in *. rewrite !List.filter_app, !length_app. cbn.
      rewrite Hcount.
      assert (length (List.filter is_store t) = 0) as ->; [|lia].
      clear -Ht. induction Ht as [|e t (off & -> & _) _ IH]; [done|]. cbn. exact IH.
Qed.


(** Without a readable byte behind the window the first comparison already
    leaves the query memory: the call faults. *)
Lemma normalize_kmer_needs_trailing_byte (q buf : list Z) :
  run q buf (length q) = None.
Proof.
  unfold run, normalize_kmer. rewrite bind_unfold.
  destruct (length q / 2) as [|fuel]; cbn [scan].
  - destruct q as [|x q]; [done|].
    rewrite (bind_load Query 0 _ x) by done. cbv beta.
    rewrite bind_unfold, load_out_of_range; [done|]. cbn. lia.
  - destruct q as [|x q]; [done|].
    rewrite (bind_load Query 0 _ x) by done. cbv beta.
    rewrite bind_unfold, load_out_of_range; [done|]. cbn. lia.
Qed.

(** C2, as amended.  [normalize_kmer] hands back either the window itself
    or the scratch buffer holding the window reversed byte by byte; no byte is
    complemented.  The choice is made where the two-pointer scan stops (after
    at most [kmer_size / 2] steps, earlier only at two unequal bytes): the
    window is returned when the byte at the left pointer is at most the byte
    at the right pointer, and the reversed copy otherwise. *)
Theorem normalize_kmer_window_or_reversal (q buf : list Z) (k : nat) :
  k < length q ->
  k <= length buf ->
  exists l r c a b,
    scan_stop q k = Some (l, r, c)
    /\ c <= k / 2
    /\ q !! l = Some a /\ q !! r = Some b
    /\ (c < k / 2 -> a <> b)
    /\ ((a <= b)%Z ->
          exists s, run q buf k = Some (Ptr Query 0, s)
                    /\ buffer_bytes s = buf
                    /\ result_window q buf k = Some (take k q))
    /\ ((b < a)%Z ->
          exists s, run q buf k = Some (Ptr Buffer 0, s)
                    /\ buffer_bytes s = reverse (take k q) ++ drop k buf
                    /\ result_window q buf k = Some (reverse (take k q))).
Proof.
  intros Hq Hbuf.
  destruct (run_cases q buf k Hq Hbuf)
    as (c & a & b & t & Hc & Hstop & Ha & Hb & Hab & Hcases).
  exists c, (k - c), c, a, b. do 5 (split; [done|]).
  destruct Hcases as [(Hle & Hrun & _)|(Hgt & Hrun & _)].
  - split; [|lia]. intros _. eexists. split; [exact Hrun|]. split; [done|].
    unfold result_window. rewrite Hrun. cbn. by rewrite drop_0.
  - split; [lia|]. intros _. eexists. split; [exact Hrun|]. split; [done|].
    unfold result_window. rewrite Hrun. cbn. rewrite drop_0.
    rewrite take_app_length'; [done|].
    rewrite length_reverse, length_take. lia.
Qed.

Lemma normalize_kmer_window_or_reversal_witness :
  exists l r c a b,
    scan_stop [67; 65; 65]%Z 2 = Some (l, r, c)
    /\ c <= 2 / 2
    /\ [67; 65; 65]%Z !! l = Some a /\ [67; 65; 65]%Z !! r = Some b
    /\ (c < 2 / 2 -> a <> b)
    /\ ((a <= b)%Z ->
          exists s, run [67; 65; 65]%Z [0; 0]%Z 2 = Some (Ptr Query 0, s)
                    /\ buffer_bytes s = [0; 0]%Z
                    /\ result_window [67; 65; 65]%Z [0; 0]%Z 2
                       = Some (take 2 [67; 65; 65]%Z))
    /\ ((b < a)%Z ->
          exists s, run [67; 65; 65]%Z [0; 0]%Z 2 = Some (Ptr Buffer 0, s)
                    /\ buffer_bytes s
                       = reverse (take 2 [67; 65; 65]%Z) ++ drop 2 [0; 0]%Z
                    /\ result_window [67; 65; 65]%Z [0; 0]%Z 2
                       = Some (reverse (take 2 [67; 65; 65]%Z))).
Proof.
  apply (normalize_kmer_window_or_reversal [67; 65; 65]%Z [0; 0]%Z 2); cbn; lia.
Defined.

(** C2 fails as stated: for the window CA (followed by another A) the
    function returns AC, while the lexicographic minimum of CA and its
    reverse complement TG is CA. *)
Lemma normalize_kmer_not_canonical :
  result_window [67; 65; 65]%Z [0; 0]%Z 2 = Some [65; 67]%Z
  /\ spec_canonical [67; 65]%Z = [67; 65]%Z
  /\ result_window [67; 65; 65]%Z [0; 0]%Z 2 <> Some (spec_canonical [67; 65]%Z).
Proof. split; [reflexivity|]. split; [reflexivity|]. discriminate. Qed.

(** C10.  With a window of [k >= 1] bytes, a readable byte behind it and a
    scratch buffer of at least [k] bytes, a call returns; the first two
    accesses are loads at offsets [0] and [k] of the query (the mirror
    pointer starts one byte past the window); every load is at a query
    offset in [0 .. k]; every store goes to the scratch buffer below offset
    [k], there are at most [k] of them, and there is none unless the
    returned pointer is the scratch buffer; the query bytes are unchanged. *)
Theorem normalize_kmer_accesses (q buf : list Z) (k : nat) :
  1 <= k ->
  k < length q ->
  k <= length buf ->
  exists p s t,
    run q buf k = Some (p, s)
    /\ trace s = Load Query 0 :: Load Query k :: t
    /\ Forall (access_within k) (trace s)
    /\ store_count (trace s) <= k
    /\ (p = Ptr Query 0 \/ p = Ptr Buffer 0)
    /\ (store_count (trace s) <> 0 -> p = Ptr Buffer 0)
    /\ (p = Ptr Query 0 -> buffer_bytes s = buf)
    /\ query_bytes s = q.
Proof.
  intros Hk Hq Hbuf.
  destruct (run_cases q buf k Hq Hbuf)
    as (c & a & b & t & Hc & Hstop & Ha & Hb & Hab & Hcases).
  assert (Hloads : forall t', Forall (is_query_load k) t' ->
                     Forall (access_within k) t' /\ store_count t' = 0).
  { intros t' Ht'. induction Ht' as [|e t' (off & -> & Hoff) _ [IH1 IH2]].
    - by split; [constructor|].
    - split; [constructor; [by split|done]|]. exact IH2. }
  destruct Hcases as [(Hle & Hrun & Ht)|(Hgt & Hrun & Ht & Hcount)].
  - destruct (Hloads t Ht) as [Hacc Hzero].
    eexists _, _, t. split; [exact Hrun|]. cbn [trace query_bytes buffer_bytes].
    split; [done|]. split.
    { constructor; [split; [done|lia]|]. constructor; [split; [done|lia]|]. done. }
    unfold store_count in *. cbn. rewrite Hzero.
    split; [lia|]. split; [by left|]. split; [done|]. by split.
  - eexists _, _, t. split; [exact Hrun|]. cbn [trace query_bytes buffer_bytes].
    split; [done|]. split.
    { constructor; [split; [done|lia]|]. constructor; [split; [done|lia]|].
      eapply Forall_impl; [exact Ht|].
      intros e [(off & -> & Hoff)|[(off & -> & Hoff)|(off & v & -> & Hoff)]];
        cbn; split; (done || lia). }
    unfold store_count in *. cbn. rewrite Hcount.
    split; [lia|]. split; [by right|]. split; [done|]. by split.
Qed.

Lemma normalize_kmer_accesses_witness :
  exists p s t,
    run [67; 71; 84; 65; 67]%Z [0; 0; 0; 0]%Z 4 = Some (p, s)
    /\ trace s = Load Query 0 :: Load Query 4 :: t
    /\ Forall (access_within 4) (trace s)
    /\ store_count (trace s) <= 4
    /\ (p = Ptr Query 0 \/ p = Ptr Buffer 0)
    /\ (store_count (trace s) <> 0 -> p = Ptr Buffer 0)
    /\ (p = Ptr Query 0 -> buffer_bytes s = [0; 0; 0; 0]%Z)
    /\ query_bytes s = [67; 71; 84; 65; 67]%Z.
Proof.
  apply (normalize_kmer_accesses [67; 71; 84; 65; 67]%Z [0; 0; 0; 0]%Z 4); cbn; lia.
Defined.

(** ** The command-line tool *)

Import Cli.

Lemma tool_bind_unfold {A B} (c : Tool A) (f : A -> Tool B) (w : world) :
  (c ≫= f) w
  = match c w with
    | (Returned a, w') => f a w'
    | (Died msg, w') => (Died msg, w')
    | (Threw what, w') => (Threw what, w')
    end.
Proof. reflexivity. Qed.

Lemma for_each_cerr (lines : list string) (w : world) :
  for_each cerr lines w
  = (Returned tt, mkWorld (files w) (out w) (err w ++ lines)).
Proof.
  revert w. induction lines as [|l lines IH]; intros w.
  - cbn. rewrite app_nil_r. by destruct w.
  - cbn [for_each]. rewrite tool_bind_unfold. unfold cerr at 1.
    rewrite IH. cbn. by rewrite <- app_assoc.
Qed.

Lemma for_each_cout (lines : list string) (w : world) :
  for_each cout lines w
  = (Returned tt, mkWorld (files w) (out w ++ lines) (err w)).
Proof.
  revert w. induction lines as [|l lines IH]; intros w.
  - cbn. rewrite app_nil_r. by destruct w.
  - cbn [for_each]. rewrite tool_bind_unfold. unfold cout at 1.
    rewrite IH. cbn. by rewrite <- app_assoc.
Qed.

(** The directory check on an existing directory. *)
Lemma check_output_existing `{Library} (dir : string) (clobber continue_ : bool) (w : world) :
  dir ∈ files w ->
  check_output dir clobber continue_ w
  = if clobber then remove_all dir w
    else if continue_ then (Returned tt, w)
    else die overwrite_refused w.
Proof.
  intros Hin. unfold check_output. rewrite tool_bind_unfold. unfold fs_exists.
  rewrite bool_decide_eq_true_2 by done. by destruct clobber, continue_.
Qed.

Lemma remove_all_clears `{Library} (dir q : string) (w w' : world) :
  remove_all dir w = (Returned tt, w') ->
  below dir q -> q ∉ files w'.
Proof.
  unfold remove_all. destruct (remove_all_fails dir w) as [[what gone]|]; [done|].
  intros [= <-] Hbelow. cbn.
  rewrite elem_of_filter. intros [Hnot _]. by apply Hnot.
Qed.

(** C5.  For [classic_construct] and [compact_construct] alike, on an
    output directory that exists:
    - when neither [--clobber] nor [--continue] was given, the tool dies with
      a message on standard error, the file system is left as it was and the
      construction is not reached;
    - when [--clobber] was given and the removal goes through, the directory
      and everything below it is gone, and the construction starts from that
      emptied state;
    - when [--clobber] was given and the removal fails, its exception leaves
      the tool (and is caught by [main]): the construction is not reached, so
      it never runs on a directory that was not erased. *)
Theorem construct_guards_output_directory `{Library}
    (argv_c argv_p : list string)
    (oc : construct_options classic_params)
    (op : construct_options compact_params) (w : world) :
  cmdline_classic argv_c = Some oc ->
  cmdline_compact argv_p = Some op ->
  out_dir oc ∈ files w ->
  out_dir op ∈ files w ->
  let refused lines :=
    ((Died overwrite_refused : outcome Z),
     mkWorld (files w) (out w) (err w ++ lines ++ [overwrite_refused])) in
  let listed lines := mkWorld (files w) (out w) (err w ++ lines) in
  let erased dir lines :=
    mkWorld (filter (fun q => ¬ below dir q) (files w)) (out w) (err w ++ lines) in
  let thrown what dir (gone : string -> bool) lines :=
    ((Threw what : outcome Z),
     mkWorld (filter (fun q => ¬ (below dir q /\ gone q = true)) (files w))
             (out w) (err w ++ lines)) in
  (clobber oc = false -> continue_ oc = false ->
     Cli.classic_construct argv_c w = refused (print_result_classic oc))
  /\ (clobber op = false -> continue_ op = false ->
     Cli.compact_construct argv_p w = refused (print_result_compact op))
  /\ (clobber oc = true ->
     remove_all_fails (out_dir oc) (listed (print_result_classic oc)) = None ->
     Cli.classic_construct argv_c w
       = classic_build oc (erased (out_dir oc) (print_result_classic oc))
     /\ forall q, below (out_dir oc) q ->
          q ∉ files (erased (out_dir oc) (print_result_classic oc)))
  /\ (clobber op = true ->
     remove_all_fails (out_dir op) (listed (print_result_compact op)) = None ->
     Cli.compact_construct argv_p w
       = compact_build op (erased (out_dir op) (print_result_compact op))
     /\ forall q, below (out_dir op) q ->
          q ∉ files (erased (out_dir op) (print_result_compact op)))
  /\ (forall what gone, clobber oc = true ->
     remove_all_fails (out_dir oc) (listed (print_result_classic oc))
       = Some (what, gone) ->
     Cli.classic_construct argv_c w
       = thrown what (out_dir oc) gone (print_result_classic oc))
  /\ (forall what gone, clobber op = true ->
     remove_all_fails (out_dir op) (listed (print_result_compact op))
       = Some (what, gone) ->
     Cli.compact_construct argv_p w
       = thrown what (out_dir op) gone (print_result_compact op)).
Proof.
  intros Hc Hp Hinc Hinp refused listed erased thrown.
  unfold Cli.classic_construct, Cli.compact_construct. rewrite Hc, Hp.
  rewrite !tool_bind_unfold, !for_each_cerr, !tool_bind_unfold.
  rewrite !check_output_existing by done.
  split; [|split; [|split; [|split; [|split]]]].
  - intros -> ->. unfold refused, die. cbn. by rewrite <- app_assoc.
  - intros -> ->. unfold refused, die. cbn. by rewrite <- app_assoc.
  - intros -> Hremoved. unfold remove_all. fold (listed (print_result_classic oc)).
    rewrite Hremoved. split; [done|].
    intros q Hq. cbn. rewrite elem_of_filter. intros [Hnot _]. by apply Hnot.
  - intros -> Hremoved. unfold remove_all. fold (listed (print_result_compact op)).
    rewrite Hremoved. split; [done|].
    intros q Hq. cbn. rewrite elem_of_filter. intros [Hnot _]. by apply Hnot.
  - intros what gone -> Hfails. unfold remove_all.
    fold (listed (print_result_classic oc)). by rewrite Hfails.
  - intros what gone -> Hfails. unfold remove_all.
    fold (listed (print_result_compact op)). by rewrite Hfails.
Qed.


Lemma sample_world_has_out : "out" ∈ files sample_world.
Proof. cbn; set_solver. Defined.

Lemma construct_guards_output_directory_witness :
  Cli.classic_construct (H := sample_library) ["cobs classic_construct"; "in"; "out"] sample_world
    = (Died overwrite_refused,
       mkWorld (files sample_world) (out sample_world)
               (err sample_world ++ [] ++ [overwrite_refused]))
  /\ "out/index.cobs" ∉
       files (mkWorld (filter (fun q => ¬ below "out" q) (files sample_world))
                      (out sample_world) (err sample_world ++ [])).
Proof.
  split.
  - destruct (construct_guards_output_directory (H := sample_library)
             ["cobs classic_construct"; "in"; "out"]
             ["cobs compact_construct"; "in"; "out"]
             (mkConstruct "in" "out" "any" false false tt)
             (mkConstruct "in" "out" "any" false false tt)
             sample_world eq_refl eq_refl sample_world_has_out sample_world_has_out)
      as (Hrefused & _).
    exact (Hrefused eq_refl eq_refl).
  - destruct (construct_guards_output_directory (H := sample_library)
             ["cobs classic_construct"; "in"; "out"; "-C"]
             ["cobs compact_construct"; "in"; "out"; "-C"]
             (mkConstruct "in" "out" "any" true false tt)
             (mkConstruct "in" "out" "any" true false tt)
             sample_world eq_refl eq_refl sample_world_has_out sample_world_has_out)
      as (_ & _ & Herased & _).
    destruct (Herased eq_refl eq_refl) as [_ Hgone].
    apply Hgone. right. reflexivity.
Defined.

(** The same run on the directory the system refuses to remove: the
    exception leaves [classic_construct], [main] reports it on standard
    error and returns -1, and nothing has been built. *)
Lemma clobber_of_current_directory_fails :
  run_main (H := sample_library) ["cobs"; "classic_construct"; "in"; "."; "-C"]
           (mkWorld {[ "." ]} [] [])
  = (Exit (-1),
     mkWorld (filter (fun q => ¬ (below "." q /\ false = true)) {[ "." ]}) []
             ["EXCEPTION: cannot remove: Invalid argument"]).
Proof. reflexivity. Qed.

Lemma prints_only_ret {A} (a : A) : prints_only (mret a).
Proof. intros w. exists a, []. cbn. rewrite app_nil_r. by destruct w. Qed.

Lemma prints_only_cout (line : string) : prints_only (cout line).
Proof. intros w. by exists tt, [line]. Qed.

Lemma prints_only_bind {A B} (c : Tool A) (f : A -> Tool B) :
  prints_only c -> (forall a, prints_only (f a)) -> prints_only (c ≫= f).
Proof.
  intros Hc Hf w. destruct (Hc w) as (a & l1 & Hcw).
  destruct (Hf a (mkWorld (files w) (out w ++ l1) (err w))) as (b & l2 & Hfw).
  exists b, (l1 ++ l2). rewrite tool_bind_unfold, Hcw, Hfw. cbn.
  by rewrite <- app_assoc.
Qed.

Lemma prints_only_for_each {A} (f : A -> Tool unit) (l : list A) :
  (forall x, prints_only (f x)) -> prints_only (for_each f l).
Proof.
  intros Hf. induction l as [|x l IH]; cbn [for_each].
  - apply prints_only_ret.
  - apply prints_only_bind; [apply Hf|]. intros _. exact IH.
Qed.

Lemma main_usage_prints_only `{Library} (arg0 : string) :
  prints_only (main_usage arg0).
Proof.
  unfold main_usage.
  repeat (apply prints_only_bind; [apply prints_only_cout|]; intros _).
  apply prints_only_bind.
  { apply prints_only_for_each. intros t. destruct (shortline t).
    - apply prints_only_ret.
    - apply prints_only_bind; [apply prints_only_cout|]. intros _.
      apply prints_only_bind; [|intros _; apply prints_only_cout].
      apply prints_only_for_each. intros; apply prints_only_cout. }
  intros _. apply prints_only_bind.
  { apply prints_only_for_each. intros t. destruct (shortline t).
    - apply prints_only_cout.
    - apply prints_only_ret. }
  intros _. apply prints_only_bind; [apply prints_only_cout|]. intros _.
  apply prints_only_ret.
Qed.

Lemma main_usage_returns_zero `{Library} (arg0 : string) (w : world) :
  (main_usage arg0 w).1 = Returned 0%Z.
Proof.
  assert (Hstep : forall (c : Tool unit) (k : Tool Z),
            prints_only c -> (forall w1, (k w1).1 = Returned 0%Z) ->
            forall w0, ((c ≫= fun _ => k) w0).1 = Returned 0%Z).
  { intros c k Hc Hk w0. destruct (Hc w0) as ([] & l & Hcw).
    rewrite tool_bind_unfold, Hcw. apply Hk. }
  revert w. unfold main_usage.
  repeat (apply Hstep; [apply prints_only_cout|]).
  apply Hstep.
  { apply prints_only_for_each. intros t. destruct (shortline t).
    - apply prints_only_ret.
    - apply prints_only_bind; [apply prints_only_cout|]. intros _.
      apply prints_only_bind; [|intros _; apply prints_only_cout].
      apply prints_only_for_each. intros; apply prints_only_cout. }
  apply Hstep.
  { apply prints_only_for_each. intros t. destruct (shortline t).
    - apply prints_only_cout.
    - apply prints_only_ret. }
  apply Hstep; [apply prints_only_cout|]. done.
Qed.

Lemma find_subtool `{Library} (t : SubTool) :
  t ∈ subtools ->
  List.find (fun t' => bool_decide (name t' = name t)) subtools = Some t.
Proof.
  unfold subtools. intros Ht.
  repeat (apply elem_of_cons in Ht as [->|Ht]; [reflexivity|]).
  by apply elem_of_nil in Ht.
Qed.

Lemma find_nothing {A} (f : A -> bool) (l : list A) :
  (forall x, In x l -> f x = false) -> List.find f l = None.
Proof.
  induction l as [|x l IH]; intros Hall; [done|]. cbn.
  rewrite (Hall x) by (by left). apply IH. intros y Hy. apply Hall. by right.
Qed.

(** [query] on a file with neither kind of header. *)
Lemma query_unknown_header `{Library} (argv : list string) (o : query_options) (w : world) :
  cmdline_query argv = Some o ->
  has_classic_header (in_file o) w = false ->
  has_compact_header (in_file o) w = false ->
  query argv w
  = (Died (could_not_open o),
     mkWorld (files w) (out w) (err w ++ [could_not_open o])).
Proof.
  intros Hparse Hclassic Hcompact. unfold query. rewrite Hparse.
  rewrite tool_bind_unfold. unfold reading at 1. rewrite Hclassic.
  rewrite !tool_bind_unfold. unfold reading at 1. rewrite Hcompact.
  reflexivity.
Qed.

(** A command line the parser rejects makes [query] return -1, after
    whatever the parser prints. *)
Lemma query_rejected `{Library} (argv : list string) (w : world) :
  cmdline_query argv = None ->
  query argv w
  = match cmdline_rejected argv w with
    | (Returned _, w') => (Returned (-1)%Z, w')
    | (Died msg, w') => (Died msg, w')
    | (Threw what, w') => (Threw what, w')
    end.
Proof. intros Hparse. unfold query. by rewrite Hparse, tool_bind_unfold. Qed.

(** C8, as amended.  For a subtool [t] of the table:
    - when [t] dies, the process ends from inside [die], which is a failure;
    - when an exception escapes [t], [main] adds the single line
      [EXCEPTION: what] to standard error and returns -1;
    - [query] on a file that has neither a classic nor a compact header dies
      with one line on standard error and nothing added to standard output;
    - a subtool name that is not in the table is reported on standard
      output, followed by the usage text, standard error stays as it was and
      the exit code is 0. *)
Theorem main_error_paths `{Library}
    (arg0 : string) (rest : list string) (w : world) (t : SubTool) :
  t ∈ subtools ->
  let args := progsub arg0 (name t) :: rest in
  (forall msg w',
      func t args w = (Died msg, w') ->
      run_main (arg0 :: name t :: rest) w = (Terminated, w')
      /\ failed Terminated)
  /\ (forall what w',
      func t args w = (Threw what, w') ->
      run_main (arg0 :: name t :: rest) w
        = (Exit (-1), mkWorld (files w') (out w') (err w' ++ ["EXCEPTION: " +:+ what]))
      /\ failed (Exit (-1)))
  /\ (forall o,
      cmdline_query (progsub arg0 "query" :: rest) = Some o ->
      has_classic_header (in_file o) w = false ->
      has_compact_header (in_file o) w = false ->
      run_main (arg0 :: "query" :: rest) w
        = (Terminated, mkWorld (files w) (out w) (err w ++ [could_not_open o]))
      /\ failed Terminated)
  /\ (forall arg1,
      (forall t', t' ∈ subtools -> name t' <> arg1) ->
      exists usage,
        run_main (arg0 :: arg1 :: rest) w
          = (Exit 0,
             mkWorld (files w)
                     (out w ++ ("Unknown subtool '" +:+ arg1 +:+ "'") :: usage)
                     (err w))).
Proof.
  intros Ht args. split; [|split; [|split]].
  - intros msg w' Hdie. split; [|done].
    unfold run_main, main. rewrite (find_subtool t Ht).
    unfold catching. fold args. by rewrite Hdie.
  - intros what w' Hthrow. split; [|done].
    unfold run_main, main. rewrite (find_subtool t Ht).
    unfold catching. fold args. by rewrite Hthrow.
  - intros o Hparse Hclassic Hcompact. split; [|done].
    unfold run_main, main.
    change (List.find (fun t0 => bool_decide (name t0 = "query")) subtools)
      with (Some (mkSubTool "query" query true "query an index")).
    cbn [func]. unfold catching.
    by rewrite (query_unknown_header _ o w Hparse Hclassic Hcompact).
  - intros arg1 Hunknown.
    unfold run_main, main.
    assert (Hfind : List.find (fun t0 => bool_decide (name t0 = arg1)) subtools = None).
    { apply find_nothing. intros t' Hin.
      apply bool_decide_eq_false_2, Hunknown. by apply list_elem_of_In. }
    rewrite Hfind, tool_bind_unfold. unfold cout at 1.
    set (w1 := mkWorld _ _ _).
    destruct (main_usage_prints_only arg0 w1) as (a & usage & Hrun).
    pose proof (main_usage_returns_zero arg0 w1) as Hzero.
    rewrite Hrun in Hzero |- *. cbn in Hzero. injection Hzero as ->.
    exists usage. subst w1. cbn. by rewrite <- app_assoc.
Qed.

Lemma main_error_paths_witness :
  run_main (H := sample_library) ["cobs"; "query"; "notes.txt"; "ACGT"]
           (mkWorld ∅ [] [])
  = (Terminated,
     mkWorld ∅ [] [could_not_open (mkQuery "notes.txt" "ACGT" 100)]).
Proof.
  pose (t := mkSubTool "query" (query (H := sample_library)) true "query an index").
  assert (Ht : t ∈ subtools (H := sample_library)).
  { unfold subtools. do 8 apply list_elem_of_further. apply list_elem_of_here. }
  destruct (main_error_paths (H := sample_library) "cobs" ["notes.txt"; "ACGT"]
              (mkWorld ∅ [] []) t Ht) as (_ & _ & Hquery & _).
  destruct (Hquery (mkQuery "notes.txt" "ACGT" 100) eq_refl eq_refl eq_refl)
    as [Hrun _].
  exact Hrun.
Defined.

(** C8 fails as stated: an unknown subtool name is an error of the command
    line, yet nothing is written to standard error and the exit code is 0;
    the complaint and the usage text go to standard output. *)
Lemma unknown_subtool_exits_zero :
  (run_main (H := sample_library) ["cobs"; "frobnicate"] (mkWorld ∅ [] [])).1 = Exit 0
  /\ err (run_main (H := sample_library) ["cobs"; "frobnicate"] (mkWorld ∅ [] [])).2 = []
  /\ head (out (run_main (H := sample_library) ["cobs"; "frobnicate"] (mkWorld ∅ [] [])).2)
     = Some "Unknown subtool 'frobnicate'"
  /\ ~ failed (run_main (H := sample_library) ["cobs"; "frobnicate"] (mkWorld ∅ [] [])).1.
Proof.
  split; [reflexivity|]. split; [reflexivity|]. split; [reflexivity|].
  intros Hfailed. by apply Hfailed.
Qed.

(** ** k-mer enumeration in [print_kmers] *)

(** The loop of [print_kmers] visits [|Q| - k] windows when [k <= |Q|]. *)
Lemma kmer_windows_count (query : string) (kmer_size : Z) :
  (0 <= kmer_size <= Z.of_nat (String.length query))%Z ->
  (Z.of_nat (String.length query) < 2 ^ 64)%Z ->
  Z.of_nat (length (kmer_windows query kmer_size))
  = (Z.of_nat (String.length query) - kmer_size)%Z.
Proof.
  intros Hk Hsize. unfold kmer_windows, kmer_loop_bound.
  rewrite length_map, length_seq, Z.mod_small by lia. lia.
Qed.

(** The loop of [generate_queries] visits [|Q| - k + 1] windows. *)
Lemma negative_terms_from_count (fuel i : nat) (neg : string) (term_size : nat) :
  String.length neg + 1 <= fuel + i + term_size ->
  length (negative_terms_from fuel i neg term_size)
  = String.length neg + 1 - (i + term_size).
Proof.
  revert i. induction fuel as [|fuel IH]; intros i Hfuel; cbn [negative_terms_from].
  - cbn. lia.
  - destruct (Nat.leb_spec (i + term_size) (String.length neg)) as [Hle|Hgt].
    + cbn [length]. rewrite IH by lia. lia.
    + cbn. lia.
Qed.

Lemma negative_terms_count (neg : string) (term_size : nat) :
  term_size <= String.length neg ->
  length (negative_terms neg term_size) = String.length neg - term_size + 1.
Proof.
  intros Hk. unfold negative_terms. rewrite negative_terms_from_count by lia. lia.
Qed.

(** C3, at the input of the specification.  For ACGTACGTACG and k = 4 the
    loop of [print_kmers] hands seven windows to the canonicalization, in
    order of their start; the eighth, TACG at offset 7, is never visited.
    The sibling loop of [generate_queries] visits all eight. *)
Theorem print_kmers_misses_last_window :
  kmer_windows "ACGTACGTACG" 4
  = ["ACGT"; "CGTA"; "GTAC"; "TACG"; "ACGT"; "CGTA"; "GTAC"]
  /\ length (kmer_windows "ACGTACGTACG" 4) = 11 - 4
  /\ negative_terms "ACGTACGTACG" 4
     = ["ACGT"; "CGTA"; "GTAC"; "TACG"; "ACGT"; "CGTA"; "GTAC"; "TACG"].
Proof. split; [reflexivity|]. split; reflexivity. Qed.

(** What [print_kmers] writes for that input, with a canonicalization that
    leaves the window as it is: seven lines. *)
Lemma print_kmers_sample_output :
  print_kmers (H := sample_library) ["cobs print_kmers"; "ACGTACGTACGTACGTACGTACGTACGTACGTAC"]
              (mkWorld ∅ [] [])
  = (Returned 0%Z,
     mkWorld ∅ ["ACGTACGTACGTACGTACGTACGTACGTACG";
                "CGTACGTACGTACGTACGTACGTACGTACGT";
                "GTACGTACGTACGTACGTACGTACGTACGTA"] []).
Proof. reflexivity. Qed.

(** ** The base-pair table *)

Import Basepair.

(** C4, as amended.  The table of [print_basepair_map] sends A to T, T to A,
    C to G and G to C; every other byte value is sent to 0. *)
Theorem basepair_map_entries :
  basepair_map !! 65 = Some 84%Z
  /\ basepair_map !! 84 = Some 65%Z
  /\ basepair_map !! 67 = Some 71%Z
  /\ basepair_map !! 71 = Some 67%Z
  /\ length basepair_map = 256
  /\ forall i, i < 256 -> i <> 65 -> i <> 84 -> i <> 67 -> i <> 71 ->
       basepair_map !! i = Some 0%Z.
Proof.
  do 5 (split; [reflexivity|]).
  intros i Hi HA HT HC HG. unfold basepair_map.
  rewrite !list_lookup_insert_ne by done.
  by apply lookup_replicate_2.
Qed.

(** C4 fails as stated: N (78) is none of the four letters and is sent to 0,
    not to itself. *)
Lemma basepair_map_N_is_zero :
  basepair_map !! 78 = Some 0%Z /\ basepair_map !! 78 <> Some 78%Z.
Proof. split; [reflexivity|discriminate]. Qed.

(** ** The classic index reader *)

Import ClassicIndex.

(** C9.  Whatever the header of the opened index holds, a classic index
    reader reports a page size of 1. *)
Theorem classic_page_size_is_one (b : base) : page_size b = 1%Z.
Proof. reflexivity. Qed.

Lemma classic_page_size_ignores_header (h1 h2 : ClassicIndexHeader) :
  page_size (mkBase h1) = page_size (mkBase h2).
Proof. reflexivity. Qed.

(** ** The Bloom sizer *)

Import Sizer.

Lemma ceiling_bounds (x : R) : (x <= IZR (ceiling x) < x + 1)%R.
Proof.
  unfold ceiling. rewrite opp_IZR.
  destruct (base_Int_part (- x)) as [Hle Hgt]. lra.
Qed.

Lemma ceiling_least (x : R) (z : Z) : (x <= IZR z)%R -> (ceiling x <= z)%Z.
Proof.
  intros Hz. destruct (ceiling_bounds x) as [_ Hlt].
  apply Z.lt_succ_r, lt_IZR. rewrite succ_IZR. lra.
Qed.

Lemma ceiling_monotone (x y : R) : (x <= y)%R -> (ceiling x <= ceiling y)%Z.
Proof.
  intros Hxy. apply ceiling_least.
  destruct (ceiling_bounds y) as [Hy _]. lra.
Qed.

(** For [0 < p < 1] and [h >= 1] the logarithm in the denominator is
    negative, so the formula divides by a nonzero number and the ratio of
    bits per element is positive. *)
Lemma denominator_negative (h : Z) (p : R) :
  (1 <= h)%Z -> (0 < p < 1)%R ->
  (ln (1 - Rpower p (1 / IZR h)) < 0)%R.
Proof.
  intros Hh [Hp0 Hp1].
  assert (Hh' : (0 < IZR h)%R) by (apply IZR_lt; lia).
  assert (Hln : (ln p < 0)%R).
  { rewrite <- ln_1. by apply ln_increasing. }
  assert (Hinv : (0 < 1 / IZR h)%R).
  { apply Rdiv_lt_0_compat; lra. }
  assert (Hexp : (0 < Rpower p (1 / IZR h) < 1)%R).
  { unfold Rpower. split; [apply exp_pos|].
    assert ((1 / IZR h) * - ln p > 0)%R by (apply Rmult_gt_0_compat; lra).
    apply Rlt_le_trans with (exp 0); [apply exp_increasing; lra|].
    rewrite exp_0. lra. }
  rewrite <- ln_1. apply ln_increasing; lra.
Qed.

Lemma signature_size_ratio_positive (h : Z) (p : R) :
  (1 <= h)%Z -> (0 < p < 1)%R -> (0 < signature_size_ratio h p)%R.
Proof.
  intros Hh Hp. unfold signature_size_ratio.
  pose proof (denominator_negative h p Hh Hp) as Hneg.
  assert (Hh' : (0 < IZR h)%R) by (apply IZR_lt; lia).
  replace (- IZR h / ln (1 - Rpower p (1 / IZR h)))%R
    with (IZR h / - ln (1 - Rpower p (1 / IZR h)))%R by (field; lra).
  apply Rdiv_lt_0_compat; lra.
Qed.

Lemma exact_size_ratio (n h : Z) (p : R) :
  (1 <= h)%Z -> (0 < p < 1)%R ->
  exact_size n h p = (IZR n * signature_size_ratio h p)%R.
Proof.
  intros Hh Hp. unfold exact_size, signature_size_ratio.
  pose proof (denominator_negative h p Hh Hp). field. lra.
Qed.

Lemma exact_size_monotone (n1 n2 h : Z) (p : R) :
  (n1 <= n2)%Z -> (1 <= h)%Z -> (0 < p < 1)%R ->
  (exact_size n1 h p <= exact_size n2 h p)%R.
Proof.
  intros Hn Hh Hp. rewrite !exact_size_ratio by done.
  apply Rmult_le_compat_r.
  - left. by apply signature_size_ratio_positive.
  - by apply IZR_le.
Qed.

(** C6.  For [n >= 0], [h >= 1] and [0 < p < 1], [signature_size n h p] is
    the least integer that is at least 1 and at least
    [-n*h / ln (1 - p^(1/h))], that is, the ceiling of that quotient
    clamped to 1; and it does not decrease when [n] grows. *)
Theorem signature_size_is_clamped_ceiling_and_monotone (n n' h : Z) (p : R) :
  (0 <= n)%Z -> (n <= n')%Z -> (1 <= h)%Z -> (0 < p < 1)%R ->
  let x := (- (IZR n * IZR h) / ln (1 - Rpower p (1 / IZR h)))%R in
  (1 <= signature_size n h p)%Z
  /\ (x <= IZR (signature_size n h p))%R
  /\ (forall z : Z, (1 <= z)%Z -> (x <= IZR z)%R -> (signature_size n h p <= z)%Z)
  /\ ((1 < signature_size n h p)%Z -> (IZR (signature_size n h p) - 1 < x)%R)
  /\ (signature_size n h p <= signature_size n' h p)%Z.
Proof.
  intros Hn Hnn' Hh Hp x. subst x. fold (exact_size n h p).
  unfold signature_size. set (x := exact_size n h p).
  destruct (ceiling_bounds x) as [Hlow Hhigh].
  split; [lia|]. split; [|split; [|split]].
  - destruct (Z.max_spec 1 (ceiling x)) as [[_ ->]|[Hle ->]]; [done|].
    apply IZR_le in Hle. lra.
  - intros z Hz Hxz. apply Z.max_lub; [done|]. by apply ceiling_least.
  - intros Hbig. rewrite Z.max_r by lia. lra.
  - apply Z.max_le_compat_l, ceiling_monotone, exact_size_monotone; done.
Qed.

Lemma signature_size_is_clamped_ceiling_and_monotone_witness :
  (1 <= signature_size 1000 3 (1 / 10))%Z
  /\ (signature_size 1000 3 (1 / 10) <= signature_size 2000 3 (1 / 10))%Z.
Proof.
  destruct (signature_size_is_clamped_ceiling_and_monotone 1000 2000 3 (1 / 10))
    as (Hone & _ & _ & _ & Hmono); [lia | lia | lia | lra |].
  split; [exact Hone | exact Hmono].
Defined.

(** ** The bit-sliced index *)

Import Index.

#[local] Arguments Nat.div : simpl never.
#[local] Arguments Nat.modulo : simpl never.
#[local] Arguments Nat.mul : simpl never.
#[local] Arguments Z.modulo : simpl never.
#[local] Arguments Z.testbit : simpl never.

(** *** Bits and bytes of a row *)

Lemma byte_of_bits_testbit (bits : list bool) (j : nat) :
  Z.testbit (byte_of_bits bits) (Z.of_nat j) = default false (bits !! j).
Proof.
  revert j. induction bits as [|b bits IH]; intros j; cbn [byte_of_bits foldr].
  - by rewrite Z.testbit_0_l.
  - fold (byte_of_bits bits). rewrite Z.add_comm. destruct j as [|j].
    + by rewrite Z.testbit_0_r.
    + rewrite Nat2Z.inj_succ, Z.testbit_succ_r by lia. apply IH.
Qed.

Lemma length_pack_row (bits : list bool) :
  length (pack_row bits) = Index.row_size (length bits).
Proof. unfold pack_row. by rewrite length_fmap, length_seq. Qed.

(** Bit [d] of a packed row is bit [d] of the bit list, and 0 in the
    padding. *)
Lemma row_bit_pack_row (bits : list bool) (d : nat) :
  row_bit (pack_row bits) d = default false (bits !! d).
Proof.
  unfold row_bit, pack_row. rewrite list_lookup_fmap.
  destruct (decide (d / 8 < Index.row_size (length bits))) as [Hlt|Hge].
  - rewrite lookup_seq_lt by done. cbn.
    rewrite byte_of_bits_testbit.
    assert (Hmod : d mod 8 < 8) by (apply Nat.mod_upper_bound; lia).
    rewrite lookup_take_lt by done. rewrite lookup_drop.
    by replace (8 * (d / 8) + d mod 8) with d by lia.
  - rewrite lookup_seq_ge by lia. cbn. rewrite Z.testbit_0_l.
    rewrite lookup_ge_None_2; [done|]. unfold Index.row_size in Hge. lia.
Qed.

Lemma length_unpack_row (B : nat) (row : list Z) : length (unpack_row B row) = B.
Proof. unfold unpack_row. by rewrite length_fmap, length_seq. Qed.

Lemma lookup_unpack_row (B : nat) (row : list Z) (d : nat) :
  unpack_row B row !! d = if decide (d < B) then Some (row_bit row d) else None.
Proof.
  unfold unpack_row. rewrite list_lookup_fmap. case_decide.
  - by rewrite lookup_seq_lt.
  - by rewrite lookup_seq_ge by lia.
Qed.

(** *** Lists, rows and counters *)

Lemma length_set_rows (f : list bool) (rs : list nat) :
  length (foldl (fun f r => <[r := true]> f) f rs) = length f.
Proof.
  revert f. induction rs as [|r rs IH]; intros f; [done|].
  cbn. by rewrite IH, length_insert.
Qed.

Lemma set_rows_keeps (f : list bool) (rs : list nat) (r : nat) :
  f !! r = Some true ->
  foldl (fun f r => <[r := true]> f) f rs !! r = Some true.
Proof.
  revert f. induction rs as [|r' rs IH]; intros f Hf; [done|].
  cbn. apply IH. destruct (decide (r' = r)) as [->|Hne].
  - apply list_lookup_insert_eq. by eapply lookup_lt_Some.
  - by rewrite list_lookup_insert_ne.
Qed.

Lemma set_rows_sets (f : list bool) (rs : list nat) (r : nat) :
  r ∈ rs -> r < length f ->
  foldl (fun f r => <[r := true]> f) f rs !! r = Some true.
Proof.
  revert f. induction rs as [|r' rs IH]; intros f Hin Hlen.
  - by apply elem_of_nil in Hin.
  - cbn. apply elem_of_cons in Hin as [->|Hin].
    + apply set_rows_keeps. by apply list_lookup_insert_eq.
    + apply IH; [done|]. by rewrite length_insert.
Qed.

(** *** The merge tree *)

Lemma list_pair_ind {A} (P : list A -> Prop) :
  P [] -> (forall x, P [x]) -> (forall x y l, P l -> P (x :: y :: l)) ->
  forall l, P l.
Proof.
  intros Hnil Hone Hstep l.
  assert (H : P l /\ forall x, P (x :: l)); [|by destruct H].
  induction l as [|y l [IH1 IH2]]; [by split|].
  split; [apply IH2|]. intros x. by apply Hstep.
Qed.

Lemma concat_pair_up (gs : list (list document)) : concat (pair_up gs) = concat gs.
Proof.
  induction gs as [| |g1 g2 gs IH] using list_pair_ind; [done..|].
  cbn. by rewrite IH, app_assoc.
Qed.

Lemma length_merge_level (bs : list batch) :
  length (merge_level bs) = (length bs + 1) / 2.
Proof.
  induction bs as [| |b1 b2 bs IH] using list_pair_ind; [done..|].
  cbn [merge_level length]. rewrite IH. lia.
Qed.

Lemma concat_chunks {A} (fuel size : nat) (l : list A) :
  1 <= size -> length l <= fuel -> concat (chunks fuel size l) = l.
Proof.
  intros Hsize. revert l. induction fuel as [|fuel IH]; intros l Hlen.
  - destruct l; [done|]. cbn in Hlen. lia.
  - destruct l as [|x l]; [done|].
    cbn [chunks concat]. rewrite IH; [apply take_drop|].
    rewrite length_drop. cbn [length] in *. lia.
Qed.

(** *** AND of the rows of one k-mer *)

Lemma row_bit_zip_land (r1 r2 : list Z) (d : nat) :
  length r1 = length r2 ->
  row_bit (zip_with Z.land r1 r2) d = row_bit r1 d && row_bit r2 d.
Proof.
  intros Hlen. unfold row_bit. rewrite lookup_zip_with.
  destruct (r1 !! (d / 8)) as [x|] eqn:H1; cbn.
  - destruct (lookup_lt_is_Some_2 r2 (d / 8)) as [y H2].
    { rewrite <- Hlen. by eapply lookup_lt_Some. }
    rewrite H2. cbn. apply Z.land_spec.
  - by rewrite Z.testbit_0_l.
Qed.

Lemma and_fold (L : nat) (r : list Z) (rs : list (list Z)) (d : nat) :
  length r = L ->
  Forall (fun row => length row = L) rs ->
  length (foldl (zip_with Z.land) r rs) = L
  /\ row_bit (foldl (zip_with Z.land) r rs) d
     = row_bit r d && forallb (fun row => row_bit row d) rs.
Proof.
  intros Hr Hrs. revert r Hr. induction Hrs as [|row rs Hrow _ IH]; intros r Hr.
  - cbn. by rewrite andb_true_r.
  - cbn [foldl forallb].
    destruct (IH (zip_with Z.land r row)) as [Hlen Hbit].
    { rewrite length_zip_with. lia. }
    split; [done|]. rewrite Hbit, row_bit_zip_land by lia. by rewrite andb_assoc.
Qed.

Lemma row_bit_and_rows (L : nat) (rows : list (list Z)) (d : nat) :
  rows <> [] ->
  Forall (fun row => length row = L) rows ->
  length (and_rows rows) = L
  /\ row_bit (and_rows rows) d = forallb (fun row => row_bit row d) rows.
Proof.
  intros Hne Hall. destruct rows as [|r rs]; [done|].
  inversion Hall; subst. by apply and_fold.
Qed.

Lemma forallb_fmap {A B} (f : B -> bool) (g : A -> B) (l : list A) :
  forallb f (g <$> l) = forallb (fun x => f (g x)) l.
Proof. induction l as [|x l IH]; [done|]. cbn. by rewrite IH. Qed.

(** *** The counters *)

Lemma bumped_false_fmap `{Overflow} (o : option Z) : bumped false <$> o = o.
Proof. by destruct o. Qed.

Lemma increment_lookup `{Overflow} (cs : list Z) (i d : nat) :
  increment cs i !! d = bumped (bool_decide (d = i)) <$> cs !! d.
Proof.
  unfold increment. destruct (cs !! i) as [c|] eqn:Hi.
  - case_bool_decide as Hd.
    + subst d. rewrite Hi. cbn. apply list_lookup_insert_eq.
      by eapply lookup_lt_Some.
    + rewrite list_lookup_insert_ne by done. by rewrite bumped_false_fmap.
  - case_bool_decide as Hd.
    + subst d. by rewrite Hi.
    + by rewrite bumped_false_fmap.
Qed.

(** A fold of steps each of which bumps the counters it hits, when no
    counter is hit by two of the steps. *)
Lemma fold_bump_lookup `{Overflow} {X} (step : list Z -> X -> list Z) (hit : X -> bool)
    (xs : list X) (cs : list Z) (d : nat) :
  (forall cs x, step cs x !! d = bumped (hit x) <$> cs !! d) ->
  (forall i j x y, xs !! i = Some x -> xs !! j = Some y ->
                   hit x = true -> hit y = true -> i = j) ->
  foldl step cs xs !! d = bumped (existsb hit xs) <$> cs !! d.
Proof.
  intros Hstep. revert cs. induction xs as [|x xs IH]; intros cs Hone.
  - cbn. by rewrite bumped_false_fmap.
  - cbn [foldl existsb]. rewrite IH, Hstep.
    + destruct (hit x) eqn:Hx; cbn.
      * assert (existsb hit xs = false) as ->.
        { destruct (existsb hit xs) eqn:Hex; [|done].
          apply existsb_exists in Hex as (y & Hy & Hhit).
          apply list_elem_of_In, list_elem_of_lookup in Hy as [j Hj].
          by specialize (Hone 0 (S j) x y eq_refl Hj Hx Hhit). }
        by destruct (cs !! d).
      * by destruct (cs !! d).
    + intros i j y z Hi Hj Hy Hz.
      specialize (Hone (S i) (S j) y z Hi Hj Hy Hz). lia.
Qed.

Lemma add_byte_lookup `{Overflow} (b : nat) (byte : Z) (cs : list Z) (d : nat) :
  add_byte b byte cs !! d
  = bumped (bool_decide (d / 8 = b) && Z.testbit byte (Z.of_nat (d mod 8)))
      <$> cs !! d.
Proof.
  unfold add_byte.
  rewrite (fold_bump_lookup _
             (fun j => Z.testbit byte (Z.of_nat j) && bool_decide (d = 8 * b + j))).
  - f_equal. f_equal. apply eq_iff_eq_true. rewrite existsb_exists. split.
    + intros (j & Hj%in_seq & [Hbit Hd%bool_decide_eq_true_1]%andb_true_iff).
      apply andb_true_iff. split; [apply bool_decide_eq_true_2; lia|].
      replace (d mod 8) with j by lia. done.
    + intros [Hb%bool_decide_eq_true_1 Hbit]%andb_true_iff.
      exists (d mod 8). split.
      * apply in_seq. lia.
      * apply andb_true_iff. split; [done|]. apply bool_decide_eq_true_2. lia.
  - intros cs' j. destruct (Z.testbit byte (Z.of_nat j)); cbn.
    + apply increment_lookup.
    + by rewrite bumped_false_fmap.
  - intros i j x y Hi%lookup_seq Hj%lookup_seq
      [_ Hx%bool_decide_eq_true_1]%andb_true_iff
      [_ Hy%bool_decide_eq_true_1]%andb_true_iff. lia.
Qed.

(** Adding a row bumps exactly the counters of the documents whose bit is
    set in the row. *)
Lemma add_row_lookup `{Overflow} (row cs : list Z) (d : nat) :
  add_row row cs !! d = bumped (row_bit row d) <$> cs !! d.
Proof.
  unfold add_row.
  rewrite (fold_bump_lookup _
             (fun b => bool_decide (d / 8 = b)
                       && Z.testbit (default 0%Z (row !! b)) (Z.of_nat (d mod 8)))).
  - f_equal. f_equal. apply eq_iff_eq_true. rewrite existsb_exists.
    unfold row_bit. split.
    + by intros (b & _ & [<-%bool_decide_eq_true_1 Hbit]%andb_true_iff).
    + intros Hbit. exists (d / 8). split.
      * apply in_seq. split; [lia|]. cbn.
        destruct (row !! (d / 8)) as [x|] eqn:Hx.
        -- by eapply lookup_lt_Some.
        -- cbn in Hbit. by rewrite Z.testbit_0_l in Hbit.
      * apply andb_true_iff. split; [by apply bool_decide_eq_true_2|done].
  - intros cs' b. apply add_byte_lookup.
  - intros i j x y Hi%lookup_seq Hj%lookup_seq
      [Hx%bool_decide_eq_true_1 _]%andb_true_iff
      [Hy%bool_decide_eq_true_1 _]%andb_true_iff. lia.
Qed.

Lemma same_lookups_length {A} (l k : list A) :
  (forall i, is_Some (l !! i) <-> is_Some (k !! i)) -> length l = length k.
Proof.
  intros Hdom.
  destruct (Nat.lt_trichotomy (length l) (length k)) as [Hlt|[Heq|Hgt]]; [|done|].
  - apply lookup_lt_is_Some_2, Hdom, lookup_lt_is_Some_1 in Hlt. lia.
  - apply lookup_lt_is_Some_2, Hdom, lookup_lt_is_Some_1 in Hgt. lia.
Qed.

Lemma length_add_row `{Overflow} (row cs : list Z) : length (add_row row cs) = length cs.
Proof.
  apply same_lookups_length. intros i. rewrite add_row_lookup. apply fmap_is_Some.
Qed.

Lemma length_kmers (Q : term) (k : nat) :
  k <= length Q -> length (kmers Q k) = length Q - k + 1.
Proof.
  intros Hk. unfold kmers. rewrite decide_False by lia.
  by rewrite length_fmap, length_seq.
Qed.

Lemma kmers_single (t : term) : kmers t (length t) = [t].
Proof.
  unfold kmers. rewrite decide_False by lia.
  replace (length t - length t + 1) with 1 by lia. cbn.
  by rewrite drop_0, take_ge.
Qed.

Lemma chunks_nonempty {A} (fuel size : nat) (l : list A) :
  1 <= size -> Forall (fun g => g <> []) (chunks fuel size l).
Proof.
  intros Hsize. revert l. induction fuel as [|fuel IH]; intros l; [constructor|].
  destruct l as [|x l]; [constructor|].
  cbn [chunks]. constructor; [|apply IH].
  destruct size; [lia|]. done.
Qed.

(** Two lists of lists with the same shape are indexed alike after
    [concat]. *)
Lemma concat_lookup_aligned {A B} (xss : list (list A)) (yss : list (list B))
    (d : nat) (x : A) :
  Forall2 (fun xs ys => length xs = length ys) xss yss ->
  concat xss !! d = Some x ->
  exists p xs ys j,
    xss !! p = Some xs /\ yss !! p = Some ys /\ xs !! j = Some x
    /\ concat yss !! d = ys !! j.
Proof.
  intros Hall. revert d. induction Hall as [|xs ys xss yss Hlen _ IH]; intros d Hd.
  - done.
  - cbn [concat] in *. destruct (decide (d < length xs)) as [Hlt|Hge].
    + rewrite lookup_app_l in Hd by done.
      exists 0, xs, ys, d. do 3 (split; [done|]).
      apply lookup_app_l. lia.
    + rewrite lookup_app_r in Hd by lia.
      destruct (IH _ Hd) as (p & xs' & ys' & j & Hp & Hq & Hj & Heq).
      exists (S p), xs', ys', j. do 3 (split; [done|]).
      rewrite lookup_app_r by lia. by rewrite <- Hlen.
Qed.

(** An entry of a concatenation lies in one of the lists, behind all the
    entries of the lists before it. *)
Lemma concat_lookup_page {A} (xss : list (list A)) (d : nat) (x : A) :
  concat xss !! d = Some x ->
  exists p xs j,
    xss !! p = Some xs /\ xs !! j = Some x
    /\ d = sum_list (length <$> take p xss) + j.
Proof.
  revert d. induction xss as [|xs xss IH]; intros d Hd; [done|].
  cbn [concat] in Hd. destruct (decide (d < length xs)) as [Hlt|Hge].
  - rewrite lookup_app_l in Hd by done. exists 0, xs, d. by cbn.
  - rewrite lookup_app_r in Hd by lia.
    destruct (IH _ Hd) as (p & xs' & j & Hp & Hj & Hpos).
    exists (S p), xs', j. split; [done|]. split; [done|].
    change (take (S p) (xs :: xss)) with (xs :: take p xss).
    rewrite fmap_cons. change (sum_list (?n :: ?l)) with (n + sum_list l). lia.
Qed.

Section IndexFacts.
Context (hash : nat -> term -> Z) (canonical : term -> term)
        {overflow : Overflow}.

#[local] Abbreviation filter_bit := (Index.filter_bit hash canonical).
#[local] Abbreviation represents := (Index.represents hash canonical).


(** *** Bloom filters *)

Lemma row_indices_bound (t : term) (h : nat) (m : Z) (r : nat) :
  (1 <= m)%Z -> r ∈ row_indices hash t h m -> r < Z.to_nat m.
Proof.
  intros Hm (i & -> & _)%list_elem_of_fmap.
  pose proof (Z.mod_pos_bound (hash i t) m). lia.
Qed.

Lemma length_add_term (h : nat) (m : Z) (f : list bool) (t : term) :
  length (add_term hash canonical h m f t) = length f.
Proof. apply length_set_rows. Qed.

Lemma length_add_terms (h : nat) (m : Z) (f : list bool) (doc : document) :
  length (foldl (add_term hash canonical h m) f doc) = length f.
Proof.
  revert f. induction doc as [|t doc IH]; intros f; [done|].
  cbn. by rewrite IH, length_add_term.
Qed.

Lemma length_bloom_filter (h : nat) (m : Z) (doc : document) :
  length (bloom_filter hash canonical h m doc) = Z.to_nat m.
Proof. unfold bloom_filter. by rewrite length_add_terms, length_replicate. Qed.

Lemma add_terms_keeps (h : nat) (m : Z) (f : list bool) (doc : document) (r : nat) :
  f !! r = Some true ->
  foldl (add_term hash canonical h m) f doc !! r = Some true.
Proof.
  revert f. induction doc as [|t doc IH]; intros f Hf; [done|].
  cbn. apply IH. by apply set_rows_keeps.
Qed.

(** Every row index of every k-mer of a document is set in its filter. *)
Lemma bloom_filter_member (h : nat) (m : Z) (doc : document) (t : term) (r : nat) :
  (1 <= m)%Z ->
  t ∈ doc ->
  r ∈ row_indices hash (canonical t) h m ->
  bloom_filter hash canonical h m doc !! r = Some true.
Proof.
  intros Hm Ht Hr. unfold bloom_filter.
  pose proof (row_indices_bound _ _ _ _ Hm Hr) as Hbound.
  assert (Hgen : forall f, length f = Z.to_nat m ->
            foldl (add_term hash canonical h m) f doc !! r = Some true).
  { induction doc as [|t' doc IH]; intros f Hlen.
    - by apply elem_of_nil in Ht.
    - cbn. apply elem_of_cons in Ht as [->|Ht].
      + apply add_terms_keeps. apply set_rows_sets; [done|lia].
      + apply IH; [done|]. by rewrite length_add_term. }
  apply Hgen. by rewrite length_replicate.
Qed.

(** *** What a batch file holds *)

Lemma filter_bit_app (h : nat) (m : Z) (docs1 docs2 : list document) (d r : nat) :
  filter_bit h m (docs1 ++ docs2) d r
  = if decide (d < length docs1) then filter_bit h m docs1 d r
    else filter_bit h m docs2 (d - length docs1) r.
Proof.
  unfold Index.filter_bit. case_decide as Hd.
  - by rewrite lookup_app_l.
  - by rewrite lookup_app_r by lia.
Qed.

Lemma serialize_represents (h : nat) (m : Z) (docs : list document) :
  represents h m docs (serialize m (materialize hash canonical h m docs)).
Proof.
  unfold Index.represents, serialize, materialize. cbn [signature_size num_documents body].
  rewrite !length_fmap, length_seq. do 3 (split; [done|]).
  intros r row Hrow. rewrite list_lookup_fmap in Hrow.
  destruct (seq 0 (Z.to_nat m) !! r) as [r'|] eqn:Hr; [|done].
  apply lookup_seq in Hr as [-> _]. cbn in Hrow. injection Hrow as <-.
  split.
  - by rewrite length_pack_row, !length_fmap.
  - intros d. rewrite row_bit_pack_row, !list_lookup_fmap. unfold Index.filter_bit.
    by destruct (docs !! d).
Qed.

Lemma merge_represents (h : nat) (m : Z) (docs1 docs2 : list document) (b1 b2 : batch) :
  represents h m docs1 b1 -> represents h m docs2 b2 ->
  represents h m (docs1 ++ docs2) (merge b1 b2).
Proof.
  intros (Hm1 & HB1 & Hlen1 & Hrows1) (Hm2 & HB2 & Hlen2 & Hrows2).
  unfold Index.represents, merge. cbn [signature_size num_documents body].
  rewrite length_app, length_zip_with, Hlen1, Hlen2, HB1, HB2.
  split; [done|]. split; [done|]. split; [lia|].
  intros r row (r1 & r2 & -> & Hr1 & Hr2)%lookup_zip_with_Some.
  destruct (Hrows1 r r1 Hr1) as [_ Hbits1].
  destruct (Hrows2 r r2 Hr2) as [_ Hbits2].
  split.
  - by rewrite length_pack_row, length_app, !length_unpack_row.
  - intros d. rewrite row_bit_pack_row, filter_bit_app.
    rewrite lookup_app, !lookup_unpack_row. case_decide as Hd.
    + cbn. apply Hbits1.
    + rewrite length_unpack_row. case_decide as Hd2; cbn; [apply Hbits2|].
      unfold Index.filter_bit. by rewrite lookup_ge_None_2 by lia.
Qed.

Lemma merge_level_represents (h : nat) (m : Z) (gs : list (list document)) (bs : list batch) :
  Forall2 (represents h m) gs bs ->
  Forall2 (represents h m) (pair_up gs) (merge_level bs).
Proof.
  revert bs. induction gs as [| |g1 g2 gs IH] using list_pair_ind; intros bs Hall.
  - by inversion Hall.
  - inversion Hall as [|? b ? bs' Hb Hrest]; subst. inversion Hrest; subst.
    cbn. by constructor.
  - inversion Hall as [|? b1 ? bs1 Hb1 Hrest1]; subst.
    inversion Hrest1 as [|? b2 ? bs2 Hb2 Hrest2]; subst.
    cbn. constructor; [by apply merge_represents|]. by apply IH.
Qed.

Lemma merge_tree_represents (h : nat) (m : Z) (fuel : nat)
    (gs : list (list document)) (bs : list batch) :
  Forall2 (represents h m) gs bs ->
  gs <> [] ->
  length bs <= S fuel ->
  exists b, merge_tree fuel bs = Some b /\ represents h m (concat gs) b.
Proof.
  revert gs bs. induction fuel as [|fuel IH]; intros gs bs Hall Hne Hlen.
  - inversion Hall as [|g b gs' bs' Hb Hrest]; subst; [done|].
    inversion Hrest; subst; [|cbn in Hlen; lia].
    exists b. split; [done|]. cbn. by rewrite app_nil_r.
  - inversion Hall as [|g b gs' bs' Hb Hrest]; subst; [done|].
    inversion Hrest as [|g2 b2 gs2 bs2 Hb2 Hrest2]; subst.
    + exists b. split; [done|]. cbn. by rewrite app_nil_r.
    + cbn [merge_tree]. rewrite <- (concat_pair_up (g :: g2 :: gs2)).
      apply IH.
      * by apply merge_level_represents.
      * done.
      * rewrite length_merge_level. cbn [length] in *. lia.
Qed.

(** The classic builder returns a file, and the file is the bit-sliced form
    of the filters of all documents, in input order. *)
Lemma classic_construct_represents (h : nat) (m : Z) (batch_size : nat)
    (docs : list document) :
  1 <= batch_size -> docs <> [] ->
  exists b, classic_construct hash canonical h m batch_size docs = Some b
            /\ represents h m docs b.
Proof.
  intros Hsize Hne. unfold classic_construct. cbv zeta.
  set (gs := chunks (length docs) batch_size docs).
  rewrite <- (concat_chunks (length docs) batch_size docs) by done.
  fold gs. apply merge_tree_represents.
  - apply Forall2_fmap_r, Forall_Forall2_diag, Forall_forall.
    intros g _. apply serialize_represents.
  - subst gs. destruct docs as [|doc docs]; [done|]. done.
  - rewrite length_fmap. lia.
Qed.

(** The combined row of a k-mer has bit [d] set exactly when the k-mer
    passes the AND test for document [d]. *)
Lemma row_bit_kmer_row (b : batch) (h : nat) (t : term) (d : nat) :
  well_formed b -> 1 <= h ->
  length (kmer_row hash canonical b h t) = Index.row_size (num_documents b)
  /\ row_bit (kmer_row hash canonical b h t) d = passes hash canonical b h d t.
Proof.
  intros (Hm & Hlen & Hrows) Hh. unfold kmer_row, passes.
  rewrite <- (forallb_fmap (fun row => row_bit row d) (fetch_row b)).
  apply row_bit_and_rows.
  - unfold row_indices. destruct h as [|h]; [lia|]. done.
  - apply Forall_fmap, Forall_forall. intros r Hr. cbn.
    apply row_indices_bound in Hr; [|done].
    unfold fetch_row.
    destruct (lookup_lt_is_Some_2 (body b) r) as [row Hrow]; [lia|].
    rewrite Hrow. cbn. rewrite Forall_lookup in Hrows. by eapply Hrows.
Qed.

Lemma next_16bit (c : Z) : (0 <= c <= 65535)%Z -> (0 <= next c <= 65535)%Z.
Proof.
  intros Hc. unfold next. destruct (Z.ltb_spec c 65535); [lia|].
  pose proof (Z.mod_pos_bound overflowed 65536). lia.
Qed.

(** After all k-mers of a list have been added, the counter of document
    [d] has advanced by the number of k-mers that pass the AND test for
    [d], as long as that does not lead beyond 65535. *)
Lemma counters_after (b : batch) (h : nat) (ts : list term) (cs : list Z)
    (d : nat) (c : Z) :
  well_formed b -> 1 <= h ->
  cs !! d = Some c -> (0 <= c)%Z ->
  (c + Z.of_nat (length (List.filter (passes hash canonical b h d) ts)) <= 65535)%Z ->
  foldl (fun cs t => add_row (kmer_row hash canonical b h t) cs) cs ts !! d
  = Some (c + Z.of_nat (length (List.filter (passes hash canonical b h d) ts)))%Z.
Proof.
  intros Hwf Hh. revert cs c. induction ts as [|t ts IH]; intros cs c Hc Hlow Hhigh.
  - cbn. by rewrite Z.add_0_r.
  - cbn [foldl List.filter] in *.
    destruct (row_bit_kmer_row b h t d Hwf Hh) as [_ Hbit].
    rewrite (IH _ (bumped (passes hash canonical b h d t) c)).
    + destruct (passes hash canonical b h d t); cbn [bumped length] in *; [|done].
      unfold next. rewrite (proj2 (Z.ltb_lt c 65535)) by lia. f_equal. lia.
    + by rewrite add_row_lookup, Hc, Hbit.
    + destruct (passes hash canonical b h d t); cbn [bumped]; [|done].
      unfold next. destruct (Z.ltb_spec c 65535); [lia|].
      pose proof (Z.mod_pos_bound overflowed 65536). lia.
    + destruct (passes hash canonical b h d t); cbn [bumped length] in *; [|done].
      unfold next. rewrite (proj2 (Z.ltb_lt c 65535)) by lia. lia.
Qed.

(** Whatever is added, a counter holds a 16-bit value. *)
Lemma counters_16bit (b : batch) (h : nat) (ts : list term) (cs : list Z) :
  (forall d c, cs !! d = Some c -> (0 <= c <= 65535)%Z) ->
  forall d c,
    foldl (fun cs t => add_row (kmer_row hash canonical b h t) cs) cs ts !! d = Some c ->
    (0 <= c <= 65535)%Z.
Proof.
  revert cs. induction ts as [|t ts IH]; intros cs Hcs d c; [apply Hcs|].
  cbn [foldl]. apply IH. clear d c. intros d c.
  rewrite add_row_lookup. destruct (cs !! d) as [c0|] eqn:Hc0; [|done].
  intros [= <-]. specialize (Hcs d c0 Hc0).
  unfold bumped. destruct (row_bit _ d); [by apply next_16bit|done].
Qed.

Lemma length_counts (b : batch) (h k : nat) (Q : term) :
  length (counts hash canonical b h k Q) = num_documents b.
Proof.
  unfold counts.
  assert (Hgen : forall ts cs,
            length (foldl (fun cs t => add_row (kmer_row hash canonical b h t) cs) cs ts)
            = length cs).
  { induction ts as [|t ts IH]; intros cs; [done|].
    cbn. by rewrite IH, length_add_row. }
  by rewrite Hgen, length_replicate.
Qed.

(** The counter of a document after a query: the number of hits, when
    that is at most 65535. *)
Lemma counts_lookup (b : batch) (h k : nat) (Q : term) (d : nat) :
  well_formed b -> 1 <= h -> d < num_documents b ->
  (hits hash canonical b h k Q d <= 65535)%Z ->
  counts hash canonical b h k Q !! d = Some (hits hash canonical b h k Q d).
Proof.
  intros Hwf Hh Hd Hhits. unfold counts, hits in *.
  rewrite (counters_after b h _ _ d 0%Z Hwf Hh); [done| |lia|lia].
  by apply lookup_replicate_2.
Qed.

Lemma counts_16bit (b : batch) (h k : nat) (Q : term) (d : nat) (c : Z) :
  counts hash canonical b h k Q !! d = Some c -> (0 <= c <= 65535)%Z.
Proof.
  unfold counts. apply counters_16bit.
  intros d' c' [-> _]%lookup_replicate. lia.
Qed.

(** What the search reports is what the counters hold. *)
Lemma search_reports_counts (b : batch) (h k : nat) (Q : term) (top_k : nat)
    (s : Z) (d : nat) :
  (s, d) ∈ search hash canonical b h k Q top_k ->
  counts hash canonical b h k Q !! d = Some s.
Proof.
  unfold search. intros Hin%subseteq_take.
  rewrite merge_sort_Permutation in Hin.
  apply elem_of_lookup_imap in Hin as (i & c & [= -> ->] & Hc). done.
Qed.

Lemma search_reports_all (b : batch) (h k : nat) (Q : term) (top_k : nat)
    (s : Z) (d : nat) :
  num_documents b <= top_k ->
  counts hash canonical b h k Q !! d = Some s ->
  (s, d) ∈ search hash canonical b h k Q top_k.
Proof.
  intros Htop Hc. unfold search. rewrite take_ge.
  - rewrite merge_sort_Permutation.
    by apply (elem_of_lookup_imap_2 (fun d c => (c, d))).
  - rewrite (Permutation_length (merge_sort_Permutation _ _)).
    by rewrite length_imap, length_counts.
Qed.

Lemma hits_bounds (b : batch) (h k : nat) (Q : term) (d : nat) :
  (0 <= hits hash canonical b h k Q d <= Z.of_nat (length (kmers Q k)))%Z.
Proof.
  unfold hits. pose proof (List.filter_length_le (passes hash canonical b h d) (kmers Q k)).
  lia.
Qed.

(** The same for the search over the pages of a compact index. *)
Lemma compact_search_reports_counts (pages : list batch) (h k : nat) (Q : term)
    (top_k : nat) (s : Z) (d : nat) :
  (s, d) ∈ compact_search hash canonical pages h k Q top_k ->
  compact_counts hash canonical pages h k Q !! d = Some s.
Proof.
  unfold compact_search. intros Hin%subseteq_take.
  rewrite merge_sort_Permutation in Hin.
  apply elem_of_lookup_imap in Hin as (i & c & [= -> ->] & Hc). done.
Qed.

(** A counter that the query leaves behind, for a query of at most 65535
    k-mers. *)
Lemma counter_counts_hits (b : batch) (h k : nat) (Q : term) (s : Z) (d : nat) :
  well_formed b -> 1 <= h ->
  (Z.of_nat (length (kmers Q k)) <= 65535)%Z ->
  counts hash canonical b h k Q !! d = Some s ->
  d < num_documents b
  /\ s = hits hash canonical b h k Q d
  /\ (0 <= s <= Z.of_nat (length (kmers Q k)))%Z
  /\ (s < 65536)%Z
  /\ (length (kmers Q k) = 1 -> s = 0%Z \/ s = 1%Z).
Proof.
  intros Hwf Hh Hshort Hc.
  assert (Hd : d < num_documents b).
  { rewrite <- (length_counts b h k Q). by eapply lookup_lt_Some. }
  pose proof (hits_bounds b h k Q d) as Hbounds.
  rewrite counts_lookup in Hc by (done || lia). injection Hc as <-.
  split; [done|]. split; [done|]. split; [done|]. split; lia.
Qed.


Lemma represents_well_formed (h : nat) (m : Z) (docs : list document) (b : batch) :
  (1 <= m)%Z -> represents h m docs b -> well_formed b.
Proof.
  intros Hm (Hsig & HB & Hlen & Hrows). unfold well_formed.
  rewrite Hsig, HB. do 2 (split; [done|]).
  apply Forall_lookup. intros r row Hrow. by destruct (Hrows r row Hrow).
Qed.

(** A document's k-mers, queried one at a time against the classic index
    built from the documents. *)
Lemma classic_index_keeps_kmers (docs : list document) (h : nat) (m : Z)
    (batch_size d : nat) (doc : document) (t : term) :
  (1 <= m)%Z -> 1 <= h -> 1 <= batch_size ->
  docs !! d = Some doc -> t ∈ doc ->
  exists b,
    classic_construct hash canonical h m batch_size docs = Some b
    /\ (forall r, r ∈ row_indices hash (canonical t) h m ->
                  row_bit (fetch_row b r) d = true)
    /\ counts hash canonical b h (length t) t !! d = Some 1%Z
    /\ (forall top_k s,
          (s, d) ∈ search hash canonical b h (length t) t top_k -> (1 <= s)%Z)
    /\ (forall top_k, length docs <= top_k ->
          (1%Z, d) ∈ search hash canonical b h (length t) t top_k).
Proof.
  intros Hm Hh Hsize Hdoc Ht.
  destruct (classic_construct_represents h m batch_size docs) as (b & Hb & Hrep);
    [done | by destruct docs |].
  pose proof (represents_well_formed h m docs b Hm Hrep) as Hwf.
  destruct Hrep as (Hsig & HB & Hlen & Hrows).
  assert (Hd : d < num_documents b).
  { rewrite HB. by eapply lookup_lt_Some. }
  assert (Hbits : forall r, r ∈ row_indices hash (canonical t) h m ->
                    row_bit (fetch_row b r) d = true).
  { intros r Hr. pose proof (row_indices_bound _ _ _ _ Hm Hr) as Hbound.
    destruct (lookup_lt_is_Some_2 (body b) r) as [row Hrow]; [lia|].
    unfold fetch_row. rewrite Hrow. cbn.
    destruct (Hrows r row Hrow) as [_ ->]. unfold Index.filter_bit. rewrite Hdoc. cbn.
    by rewrite (bloom_filter_member h m doc t r Hm Ht Hr). }
  assert (Hcount : counts hash canonical b h (length t) t !! d = Some 1%Z).
  { assert (passes hash canonical b h d t = true) as Hpass.
    { unfold passes. apply forallb_forall. intros r Hr%list_elem_of_In.
      rewrite Hsig in Hr. by apply Hbits. }
    assert (Hone : hits hash canonical b h (length t) t d = 1%Z).
    { unfold hits. rewrite kmers_single. cbn. by rewrite Hpass. }
    rewrite counts_lookup by (done || lia). by rewrite Hone. }
  exists b. split; [done|]. split; [done|]. split; [done|]. split.
  - intros top_k s Hin%search_reports_counts. rewrite Hcount in Hin.
    injection Hin as <-. lia.
  - intros top_k Htop. apply search_reports_all; [lia|done].
Qed.

(** C1.  Build a classic index from any documents, with at least one hash
    function, a signature size of at least 1 and batches of at least one
    document.  For document [d] and any k-mer [t] its source emits: the
    build returns an index; in it each of the h rows at the indices
    [hash_i(t) mod m] has bit [d] set; the query consisting of [t] alone
    leaves the counter of [d] at 1; so every score reported for [d] is at
    least 1, and [d] is reported with score 1 when the result is not cut
    short of the number of documents. *)
Theorem no_false_negatives (docs : list document) (h : nat) (m : Z)
    (batch_size d : nat) (doc : document) (t : term) :
  (1 <= m)%Z -> 1 <= h -> 1 <= batch_size ->
  docs !! d = Some doc -> t ∈ doc ->
  exists b,
    classic_construct hash canonical h m batch_size docs = Some b
    /\ (forall r, r ∈ row_indices hash (canonical t) h m ->
                  row_bit (fetch_row b r) d = true)
    /\ counts hash canonical b h (length t) t !! d = Some 1%Z
    /\ (forall top_k s,
          (s, d) ∈ search hash canonical b h (length t) t top_k -> (1 <= s)%Z)
    /\ (forall top_k, length docs <= top_k ->
          (1%Z, d) ∈ search hash canonical b h (length t) t top_k).
Proof. apply classic_index_keeps_kmers. Qed.

(** The same for a compact index: the counter of document [d], found in
    the page that holds [d], is at 1 after a query of one of its k-mers. *)
Lemma compact_index_keeps_kmers (docs : list document) (h : nat)
    (m_page : list document -> Z) (batch_size page_size d : nat)
    (doc : document) (t : term) :
  (forall page, 1 <= m_page page)%Z ->
  1 <= h -> 1 <= batch_size -> 1 <= page_size ->
  docs !! d = Some doc -> t ∈ doc ->
  exists pages,
    compact_construct hash canonical h m_page batch_size page_size docs = Some pages
    /\ compact_counts hash canonical pages h (length t) t !! d = Some 1%Z.
Proof.
  intros Hm Hh Hbatch Hpage Hdoc Ht. unfold compact_construct, compact_counts.
  set (gs := chunks (length docs) page_size docs).
  set (build := fun page =>
         classic_construct hash canonical h (m_page page) batch_size page).
  assert (Hgs : Forall (fun g => g <> []) gs) by by apply chunks_nonempty.
  destruct (mapM_is_Some_2 build gs) as [pages Hpages].
  { eapply Forall_impl; [exact Hgs|]. intros g Hg. cbn.
    destruct (classic_construct_represents h (m_page g) batch_size g Hbatch Hg)
      as (b & Hb & _).
    by exists b. }
  exists pages. split; [done|].
  apply mapM_Some_1 in Hpages.
  assert (Hlens : Forall2 (fun (g : list document) (cs : list Z) => length g = length cs)
                    gs ((fun b => counts hash canonical b h (length t) t) <$> pages)).
  { apply Forall2_fmap_r. eapply Forall2_impl; [exact Hpages|].
    intros g b Hb. cbn.
    destruct (classic_construct_represents h (m_page g) batch_size g Hbatch)
      as (b' & Hb' & (_ & HB & _)).
    { intros ->. unfold build in Hb. by destruct batch_size. }
    unfold build in Hb. rewrite Hb in Hb'. injection Hb' as <-.
    by rewrite length_counts. }
  rewrite <- (concat_chunks (length docs) page_size docs) in Hdoc by done.
  fold gs in Hdoc.
  destruct (concat_lookup_aligned _ _ _ _ Hlens Hdoc)
    as (p & g & cs & j & Hg & Hcs & Hj & ->).
  rewrite list_lookup_fmap in Hcs.
  destruct (pages !! p) as [b|] eqn:Hb; [|done]. injection Hcs as <-.
  pose proof (Forall2_lookup_lr _ _ _ _ _ _ Hpages Hg Hb) as Hbuilt.
  destruct (classic_index_keeps_kmers g h (m_page g) batch_size j doc t
              (Hm g) Hh Hbatch Hj Ht) as (b' & Hb' & _ & Hcount & _).
  unfold build in Hbuilt. rewrite Hbuilt in Hb'. by injection Hb' as <-.
Qed.

End IndexFacts.

(** *** Concrete runs *)

#[local] Existing Instance wrapping.

Lemma no_false_negatives_witness :
  exists b,
    classic_construct sample_hash as_given 2 11 2 sample_docs = Some b
    /\ counts sample_hash as_given b 2 2 [65; 67]%Z !! 2 = Some 1%Z
    /\ (1%Z, 2) ∈ search sample_hash as_given b 2 2 [65; 67]%Z 3.
Proof.
  destruct (no_false_negatives sample_hash as_given sample_docs 2 11 2 2
              [[71; 84]; [65; 67]]%Z [65; 67]%Z)
    as (b & Hb & _ & Hcount & _ & Hsearch).
  - lia.
  - lia.
  - lia.
  - reflexivity.
  - apply list_elem_of_further, list_elem_of_here.
  - exists b. split; [exact Hb|]. split; [exact Hcount|].
    apply Hsearch. cbn. lia.
Defined.

Lemma sample_index_built :
  classic_construct sample_hash as_given 2 11 2 sample_docs = Some sample_index.
Proof. reflexivity. Qed.

Lemma one_row_index_built :
  classic_construct sample_hash as_given 1 1 1 [[[65%Z]]] = Some one_row_index.
Proof. reflexivity. Qed.

Lemma sample_index_well_formed : well_formed sample_index.
Proof.
  split; [cbn; lia|]. split; [reflexivity|].
  repeat (constructor; [reflexivity|]). constructor.
Defined.


Lemma one_row_index_well_formed : well_formed one_row_index.
Proof.
  split; [cbn; lia|]. split; [reflexivity|]. by repeat constructor.
Qed.

Lemma one_row_index_always_passes (hash : nat -> term -> Z) (t : term) :
  passes hash as_given one_row_index 1 0 t = true.
Proof.
  unfold passes, row_indices. cbn [signature_size one_row_index seq fmap list_fmap forallb].
  by rewrite Z.mod_1_r.
Qed.

(** On [one_row_index] every k-mer of a query counts, and what is reported
    is what the one counter holds: a 16-bit value. *)
Lemma one_row_index_score {overflow : Overflow} (hash : nat -> term -> Z)
    (Q : term) (n : Z) :
  Z.of_nat (length Q) = n -> (1 <= n)%Z ->
  hits hash as_given one_row_index 1 1 Q 0 = n
  /\ exists s, search hash as_given one_row_index 1 1 Q 10 = [(s, 0)]
               /\ (0 <= s <= 65535)%Z.
Proof.
  intros Hlen Hn.
  assert (Hhits : hits hash as_given one_row_index 1 1 Q 0 = n).
  { unfold hits.
    assert (Hall : forall ts : list term,
              List.filter (passes hash as_given one_row_index 1 0) ts = ts).
    { induction ts as [|t ts IH]; [done|]. cbn [List.filter].
      by rewrite one_row_index_always_passes, IH. }
    rewrite Hall, length_kmers by lia. lia. }
  split; [exact Hhits|].
  pose proof (length_counts hash as_given one_row_index 1 1 Q) as Hl.
  pose proof (counts_16bit hash as_given one_row_index 1 1 Q 0) as Hc.
  unfold search.
  destruct (counts hash as_given one_row_index 1 1 Q) as [|c [|? ?]];
    [discriminate Hl | | discriminate Hl].
  exists c. split; [reflexivity|]. by apply Hc.
Qed.


(* ================================================================== *)
(** * Part III: further properties of the code *)
(* ================================================================== *)

(** ** [normalize_kmer]: edge cases *)

(** A call with any scratch buffer, up to the branch: where the scan stops,
    what it has seen on the way, and what runs afterwards. *)
Lemma run_branches (q buf : list Z) (k : nat) :
  k < length q ->
  exists c a b t,
    c <= k / 2
    /\ (forall i, i < c -> q !! i = q !! (k - i))
    /\ (c < k / 2 -> a <> b)
    /\ q !! c = Some a /\ q !! (k - c) = Some b
    /\ Forall (is_query_load k) t
    /\ run q buf k
       = if bool_decide (a <= b)%Z
         then Some (Ptr Query 0, mkState q buf (Load Query 0 :: Load Query k :: t))
         else (reverse_copy k k 0 ≫= fun _ => mret (Ptr Buffer 0))
                (mkState q buf (Load Query 0 :: Load Query k :: t)).
Proof.
  intros Hq.
  destruct (scan_runs (k / 2) k 0 (mkState q buf []))
    as (c & t & Hrun & Hc & Ht & Heq & Hne); [done | lia | lia |].
  cbn [query_bytes buffer_bytes trace app] in Hrun, Hne, Heq.
  rewrite Nat.sub_0_r in Hrun.
  destruct (lookup_lt_is_Some_2 q c) as [a Ha]; [lia|].
  destruct (lookup_lt_is_Some_2 q (k - c)) as [b Hb]; [lia|].
  exists c, a, b, (t ++ [Load Query c; Load Query (k - c)]).
  split; [lia|]. split; [intros i Hi; apply Heq; lia|].
  split; [intros Hlt ->; apply (Hne Hlt); by rewrite Ha, Hb|].
  do 2 (split; [done|]). split.
  { apply Forall_app. split; [done|].
    constructor; [exists c; split; [done|lia]|].
    constructor; [exists (k - c); split; [done|lia]|]. constructor. }
  unfold run, normalize_kmer. rewrite bind_unfold, Hrun. cbv beta iota.
  set (s1 := mkState q buf _).
  rewrite (bind_load Query c s1 a _ Ha); cbv beta.
  rewrite (bind_load Query (k - c) (record (Load Query c) s1) b _ Hb); cbv beta.
  destruct (bool_decide (a <= b)%Z).
  - subst s1. rewrite Nat.sub_diag. unfold mret, cmd_ret, record. cbn.
    by rewrite <- ?app_assoc.
  - cbv zeta. rewrite Nat.sub_diag, Nat.sub_0_r.
    replace (k - c + c) with k by lia.
    subst s1. unfold record. cbn. by rewrite <- ?app_assoc.
Qed.

(** A copy of [n >= 1] bytes into a buffer that is too short stops at the
    first store behind its end. *)
Lemma reverse_copy_overruns (n last d : nat) (s : state) :
  1 <= n -> n <= last -> last <= length (query_bytes s) ->
  length (buffer_bytes s) < d + n ->
  reverse_copy n last d s = None.
Proof.
  revert last d s. induction n as [|n IH]; intros last d s Hn Hlast Hq Hbuf; [lia|].
  destruct (lookup_lt_is_Some_2 (query_bytes s) (last - 1)) as [v Hv]; [lia|].
  cbn [reverse_copy]. rewrite (bind_load Query (last - 1) s v _ Hv); cbv beta.
  rewrite bind_unfold. unfold store. case_decide as Hd; [|done].
  cbn in Hd. apply IH.
  - destruct n; [lia|]. lia.
  - lia.
  - cbn. lia.
  - cbn. rewrite length_insert. lia.
Qed.

(** X1.  The query memory has to reach past the window.  When it holds no more
    than [k] bytes, the first comparison reads outside of it, at offset [k]
    (or at offset 0 of an empty query), and the call faults. *)
Theorem normalize_kmer_reads_past_short_query (q buf : list Z) (k : nat) :
  length q <= k -> run q buf k = None.
Proof.
  intros Hq. unfold run, normalize_kmer. rewrite bind_unfold.
  destruct (k / 2) as [|fuel]; cbn [scan].
  - destruct q as [|x q]; [done|].
    rewrite (bind_load Query 0 _ x) by done. cbv beta.
    rewrite bind_unfold, load_out_of_range; [done|]. cbn in *. lia.
  - destruct q as [|x q]; [done|].
    rewrite (bind_load Query 0 _ x) by done. cbv beta.
    rewrite bind_unfold, load_out_of_range; [done|]. cbn in *. lia.
Qed.

Lemma normalize_kmer_reads_past_short_query_witness :
  run [65; 67; 71; 84]%Z [0; 0; 0; 0]%Z 4 = None.
Proof.
  exact (normalize_kmer_reads_past_short_query [65; 67; 71; 84]%Z [0; 0; 0; 0]%Z 4
           ltac:(cbn; lia)).
Defined.

(** X2.  The byte behind the window decides.  When the first byte of the window
    differs from the byte at offset [k], one past the window, nothing else is
    compared: the window comes back as it is when its first byte is the
    smaller one, and reversed in the scratch buffer otherwise. *)
Theorem normalize_kmer_decided_behind_window (q buf : list Z) (k : nat) (a b : Z) :
  1 <= k -> k < length q -> k <= length buf ->
  q !! 0 = Some a -> q !! k = Some b -> a <> b ->
  ((a < b)%Z ->
     exists s, run q buf k = Some (Ptr Query 0, s) /\ buffer_bytes s = buf
               /\ result_window q buf k = Some (take k q))
  /\ ((b < a)%Z ->
     exists s, run q buf k = Some (Ptr Buffer 0, s)
               /\ result_window q buf k = Some (reverse (take k q))).
Proof.
  intros Hk Hq Hbuf Ha Hb Hab.
  destruct (run_branches q buf k Hq)
    as (c & a' & b' & t & Hc & Heq & _ & Ha' & Hb' & _ & Hrun).
  assert (c = 0) as ->.
  { destruct c as [|c]; [done|]. exfalso.
    specialize (Heq 0 ltac:(lia)). rewrite Nat.sub_0_r, Ha, Hb in Heq. congruence. }
  rewrite Nat.sub_0_r in Hb'. rewrite Ha in Ha'. rewrite Hb in Hb'.
  injection Ha' as <-. injection Hb' as <-.
  split; intros Hlt.
  - rewrite bool_decide_eq_true_2 in Hrun by lia.
    eexists. split; [exact Hrun|]. split; [done|].
    unfold result_window. rewrite Hrun. cbn. by rewrite drop_0.
  - rewrite bool_decide_eq_false_2 in Hrun by lia.
    rewrite bind_unfold in Hrun.
    destruct (reverse_copy_runs k k 0 (mkState q buf (Load Query 0 :: Load Query k :: t)))
      as (t2 & Hcopy & _); [lia | cbn; lia | cbn; lia |].
    cbn [query_bytes buffer_bytes trace] in Hcopy.
    rewrite Hcopy in Hrun. unfold mret, cmd_ret in Hrun.
    eexists. split; [exact Hrun|].
    unfold result_window. rewrite Hrun. cbn [window_at region_bytes buffer_bytes].
    rewrite take_0, Nat.sub_diag, !drop_0. cbn [app].
    rewrite take_app_length'; [done|]. rewrite length_reverse, length_take. lia.
Qed.

Lemma normalize_kmer_decided_behind_window_witness :
  result_window [67; 65; 84; 71; 65]%Z [0; 0; 0; 0]%Z 4 = Some [71; 84; 65; 67]%Z.
Proof.
  destruct (normalize_kmer_decided_behind_window
              [67; 65; 84; 71; 65]%Z [0; 0; 0; 0]%Z 4 67%Z 65%Z)
    as [_ Hrev]; [cbn; lia | cbn; lia | cbn; lia | reflexivity | reflexivity | lia |].
  destruct (Hrev ltac:(lia)) as (s & _ & Hres). exact Hres.
Defined.

(** X3.  When the scan finds no unequal pair up to the middle, the window comes
    back as it is and nothing is written; a window of length 0 is such a
    case. *)
Theorem normalize_kmer_no_mismatch (q buf : list Z) (k : nat) :
  k < length q ->
  (forall i, i <= k / 2 -> q !! i = q !! (k - i)) ->
  exists s, run q buf k = Some (Ptr Query 0, s)
            /\ buffer_bytes s = buf /\ query_bytes s = q
            /\ store_count (trace s) = 0.
Proof.
  intros Hq Hsame.
  destruct (run_branches q buf k Hq)
    as (c & a & b & t & Hc & _ & _ & Ha & Hb & Ht & Hrun).
  assert (a = b) as ->.
  { specialize (Hsame c Hc). rewrite Ha, Hb in Hsame. congruence. }
  rewrite bool_decide_eq_true_2 in Hrun by lia.
  eexists. split; [exact Hrun|]. do 2 (split; [done|]).
  cbn. unfold store_count. cbn.
  clear -Ht. induction Ht as [|e t (off & -> & _) _ IH]; [done|]. exact IH.
Qed.

Lemma normalize_kmer_no_mismatch_witness :
  exists s, run [65; 67; 71; 67; 65]%Z [] 4 = Some (Ptr Query 0, s)
            /\ buffer_bytes s = [] /\ query_bytes s = [65; 67; 71; 67; 65]%Z
            /\ store_count (trace s) = 0.
Proof.
  apply (normalize_kmer_no_mismatch [65; 67; 71; 67; 65]%Z [] 4); [cbn; lia|].
  intros i Hi. change (4 / 2) with 2 in Hi.
  destruct i as [|[|[|i]]]; [reflexivity | reflexivity | reflexivity | lia].
Defined.

(** X4.  The window that comes back has the bytes of the window that went in:
    the same length and the same bytes, possibly in another order. *)
Theorem normalize_kmer_keeps_bytes (q buf : list Z) (k : nat) :
  k < length q -> k <= length buf ->
  exists w, result_window q buf k = Some w
            /\ length w = k /\ w ≡ₚ take k q.
Proof.
  intros Hq Hbuf.
  destruct (run_cases q buf k Hq Hbuf)
    as (c & a & b & t & _ & _ & _ & _ & _ & [(_ & Hrun & _)|(_ & Hrun & _)]).
  - exists (take k q). unfold result_window. rewrite Hrun. cbn. rewrite drop_0.
    split; [done|]. split; [|done]. rewrite length_take. lia.
  - exists (reverse (take k q)). unfold result_window. rewrite Hrun. cbn.
    rewrite drop_0, take_app_length' by (rewrite length_reverse, length_take; lia).
    split; [done|]. split; [|apply reverse_Permutation].
    rewrite length_reverse, length_take. lia.
Qed.

Lemma normalize_kmer_keeps_bytes_witness :
  exists w, result_window [67; 65; 84; 71; 65]%Z [0; 0; 0; 0]%Z 4 = Some w
            /\ length w = 4 /\ w ≡ₚ take 4 [67; 65; 84; 71; 65]%Z.
Proof.
  apply (normalize_kmer_keeps_bytes [67; 65; 84; 71; 65]%Z [0; 0; 0; 0]%Z 4); cbn; lia.
Defined.

(** X5.  A scratch buffer of fewer than [k] bytes is overrun as soon as the
    reversed copy is taken: the call faults. *)
Theorem normalize_kmer_short_buffer (q buf : list Z) (k : nat) (a b : Z) :
  k < length q -> length buf < k ->
  q !! 0 = Some a -> q !! k = Some b -> (b < a)%Z ->
  run q buf k = None.
Proof.
  intros Hq Hbuf Ha Hb Hlt.
  destruct (run_branches q buf k Hq)
    as (c & a' & b' & t & Hc & Heq & _ & Ha' & Hb' & _ & Hrun).
  assert (c = 0) as ->.
  { destruct c as [|c]; [done|]. exfalso.
    specialize (Heq 0 ltac:(lia)). rewrite Nat.sub_0_r, Ha, Hb in Heq.
    injection Heq as ->. lia. }
  rewrite Nat.sub_0_r in Hb'. rewrite Ha in Ha'. rewrite Hb in Hb'.
  injection Ha' as <-. injection Hb' as <-.
  rewrite bool_decide_eq_false_2 in Hrun by lia.
  rewrite bind_unfold, reverse_copy_overruns in Hrun; [done|lia|lia|cbn; lia|cbn; lia].
Qed.

Lemma normalize_kmer_short_buffer_witness :
  run [67; 65; 84; 71; 65]%Z [0; 0; 0]%Z 4 = None.
Proof.
  apply (normalize_kmer_short_buffer [67; 65; 84; 71; 65]%Z [0; 0; 0]%Z 4 67%Z 65%Z);
    [cbn; lia | cbn; lia | reflexivity | reflexivity | lia].
Defined.

(** ** Mapping an index file *)

Import Mmap.

(** X6.  [initialize_mmap] gives up only when [open] or [mmap] fail.  A failing
    [madvise] is reported and the mapping is returned all the same; the
    pointer handed back is the start of the mapping advanced by [curr_pos]. *)
Theorem initialize_mmap_outcomes (path : string) (smd : stream_metadata)
    (env : answers) (s : os) :
  (open_returns env = (-1)%Z ->
     exists msg, initialize_mmap path smd env s = (Exited msg, print_errno msg s))
  /\ (open_returns env <> (-1)%Z -> mmap_returns env = None ->
     exists msg s', initialize_mmap path smd env s = (Exited msg, s')
                    /\ mapped s' = mapped s)
  /\ (forall addr, open_returns env <> (-1)%Z -> mmap_returns env = Some addr ->
     exists s', initialize_mmap path smd env s
                = (Done (open_returns env, (curr_pos smd + addr)%Z), s')
                /\ mapped s' = <[addr := end_pos smd]> (mapped s)
                /\ open_fds s' = {[ open_returns env ]} ∪ open_fds s
                /\ reported s'
                   = if bool_decide (madvise_returns env = 0)%Z then reported s
                     else reported s ++ ["madvise failed"]).
Proof.
  unfold initialize_mmap. split; [|split].
  - intros ->. eexists. reflexivity.
  - intros Hopen Hmap. rewrite bool_decide_eq_false_2 by done. cbv zeta.
    rewrite Hmap. eexists _, _. split; reflexivity.
  - intros addr Hopen Hmap. rewrite bool_decide_eq_false_2 by done. cbv zeta.
    rewrite Hmap. eexists. split; [reflexivity|].
    by destruct (bool_decide (madvise_returns env = 0)%Z).
Qed.

(** X7.  What [initialize_mmap] set up, [destroy_mmap] takes down: called with
    the pair that was returned and the same metadata, it unmaps the very
    range that was mapped and closes the descriptor that was opened, reports
    nothing, and leaves descriptors and mappings as they were before. *)
Theorem destroy_mmap_undoes_initialize (path : string) (smd : stream_metadata)
    (env : answers) (s s' : os) (fd mmap_ptr : Z) :
  initialize_mmap path smd env s = (Done (fd, mmap_ptr), s') ->
  fd ∉ open_fds s ->
  mapped s !! (mmap_ptr - curr_pos smd)%Z = None ->
  open_fds (destroy_mmap fd mmap_ptr smd s') = open_fds s
  /\ mapped (destroy_mmap fd mmap_ptr smd s') = mapped s
  /\ reported (destroy_mmap fd mmap_ptr smd s') = reported s'.
Proof.
  unfold initialize_mmap. case_bool_decide as Hopen; [done|]. cbv zeta.
  destruct (mmap_returns env) as [addr|]; [|done].
  intros [= <- <- <-] Hfresh Hfree.
  unfold destroy_mmap, munmap, close.
  replace (curr_pos smd + addr - curr_pos smd)%Z with addr in * by lia.
  destruct (bool_decide (madvise_returns env = 0)%Z);
    cbn [mapped open_fds reported print_errno];
    (rewrite bool_decide_eq_true_2 by apply lookup_insert_eq);
    cbv iota beta; cbn [mapped open_fds reported print_errno];
    (rewrite bool_decide_eq_true_2 by set_solver);
    cbn [open_fds mapped reported];
    (split; [set_solver|]); (split; [|done]);
    rewrite delete_insert_eq; by apply delete_id.
Qed.

Lemma destroy_mmap_undoes_initialize_witness :
  mapped (destroy_mmap 3 4128 (mkSmd 32 1000)
            (mkOs ({[ 3%Z ]} ∪ ∅) (<[4096%Z := 1000%Z]> ∅) [])) = ∅
  /\ open_fds (destroy_mmap 3 4128 (mkSmd 32 1000)
                 (mkOs ({[ 3%Z ]} ∪ ∅) (<[4096%Z := 1000%Z]> ∅) [])) = ∅.
Proof.
  destruct (destroy_mmap_undoes_initialize "index.cobs" (mkSmd 32 1000)
              (mkAnswers 3 (Some 4096%Z) 0) (mkOs ∅ ∅ [])
              (mkOs ({[ 3%Z ]} ∪ ∅) (<[4096%Z := 1000%Z]> ∅) []) 3 4128)
    as (Hfds & Hmapped & _).
  - reflexivity.
  - apply not_elem_of_empty.
  - apply lookup_empty.
  - split; [exact Hmapped | exact Hfds].
Defined.

Lemma round_up_ge (len : Z) : (len <= round_up len < len + os_page_size)%Z.
Proof. unfold round_up, os_page_size. lia. Qed.

(** The range of a mapping of its own: on mappings as the system lays them
    out, unmapping the pages of the range removes that mapping and nothing
    else. *)
Lemma unmap_own_mapping (m : gmap Z Z) (addr len : Z) :
  laid_out m -> m !! addr = Some len ->
  unmap_range addr (addr + round_up len) m = delete addr m.
Proof.
  intros [Hpages Hapart] Hown.
  destruct (Hpages _ _ Hown) as [_ Hlen].
  pose proof (round_up_ge len) as Hup.
  assert (Hothers : forall a l, m !! a = Some l -> a <> addr ->
            in_range addr (addr + round_up len) a l = false).
  { intros a l Ha Hne. unfold in_range.
    destruct (Hapart _ _ _ _ Ha Hown Hne) as [Hbelow|Habove].
    - apply andb_false_iff. right. apply Z.ltb_ge. lia.
    - apply andb_false_iff. left. apply Z.ltb_ge. lia. }
  assert (Habove :
            (forall a l, m !! a = Some l -> a <> addr ->
               in_range addr (addr + round_up len) a l = false) ->
            (forall l, m !! addr = Some l -> l = len) ->
            map_fold (fun a l above =>
                        if in_range addr (addr + round_up len) a l
                           && (addr + round_up len <? a + round_up l)%Z
                        then <[(addr + round_up len)%Z
                               := (a + l - (addr + round_up len))%Z]> above
                        else above) (∅ : gmap Z Z) m = ∅).
  { apply (map_fold_weak_ind
             (fun (r m' : gmap Z Z) =>
                (forall a l, m' !! a = Some l -> a <> addr ->
                   in_range addr (addr + round_up len) a l = false) ->
                (forall l, m' !! addr = Some l -> l = len) -> r = ∅)).
    - done.
    - intros a l m' r Hfresh IH Hothers' Hown'.
      rewrite IH.
      + destruct (decide (a = addr)) as [->|Hne].
        * rewrite (Hown' l) by apply lookup_insert_eq.
          by rewrite Z.ltb_irrefl, andb_false_r.
        * by rewrite (Hothers' a l) by (done || apply lookup_insert_eq).
      + intros a' l' Ha' Hne. apply Hothers'; [|done].
        rewrite lookup_insert_ne; [done|]. intros ->. congruence.
      + intros l' Hl'. apply Hown'. rewrite lookup_insert_ne; [done|].
        intros ->. congruence. }
  unfold unmap_range.
  assert (Habove' : forall l, m !! addr = Some l -> l = len) by (intros l; congruence).
  rewrite (Habove Hothers Habove'), (right_id ∅ (∪)).
  apply map_eq. intros k. rewrite map_lookup_imap.
  destruct (decide (k = addr)) as [->|Hne].
  - rewrite Hown, lookup_delete_eq. cbn [mbind option_bind]. unfold in_range.
    rewrite (proj2 (Z.ltb_lt addr (addr + round_up len))) by lia.
    cbn [andb]. by rewrite Z.ltb_irrefl.
  - rewrite lookup_delete_ne by done. destruct (m !! k) as [l|] eqn:Hk; [|done].
    cbn [mbind option_bind]. by rewrite (Hothers k l Hk Hne).
Qed.

(** X8.  Whatever pointer and metadata it is given, [destroy_mmap] goes on to
    close the descriptor after the unmapping, failed or not: afterwards the
    descriptor is not open and no other descriptor has changed; and a mapping
    that starts elsewhere and has no page in the range from
    [mmap_ptr - curr_pos] on is still there. *)
Theorem destroy_mmap_always_closes (fd mmap_ptr : Z) (smd : stream_metadata) (s : os) :
  (fd ∉ open_fds (destroy_mmap fd mmap_ptr smd s))
  /\ (forall fd', fd' <> fd ->
        fd' ∈ open_fds (destroy_mmap fd mmap_ptr smd s) <-> fd' ∈ open_fds s)
  /\ (forall a l,
        mapped s !! a = Some l ->
        a <> (mmap_ptr - curr_pos smd)%Z ->
        (a + round_up l <= mmap_ptr - curr_pos smd
         \/ mmap_ptr - curr_pos smd + round_up (end_pos smd) <= a)%Z ->
        mapped (destroy_mmap fd mmap_ptr smd s) !! a = Some l).
Proof.
  assert (Hkept : forall a l,
            mapped s !! a = Some l ->
            a <> (mmap_ptr - curr_pos smd)%Z ->
            (a + round_up l <= mmap_ptr - curr_pos smd
             \/ mmap_ptr - curr_pos smd + round_up (end_pos smd) <= a)%Z ->
            mapped (munmap (mmap_ptr - curr_pos smd)%Z (end_pos smd) s).2 !! a = Some l).
  { intros a l Ha Hne Hout. unfold munmap.
    case_bool_decide as Hown; [|case_bool_decide as Hvalid]; cbn [snd mapped].
    - by rewrite lookup_delete_ne.
    - unfold unmap_range. apply lookup_union_Some_l.
      rewrite map_lookup_imap, Ha. cbn.
      assert (in_range (mmap_ptr - curr_pos smd)
                (mmap_ptr - curr_pos smd + round_up (end_pos smd)) a l = false) as ->; [|done].
      unfold in_range. apply andb_false_iff.
      destruct Hout; [right|left]; apply Z.ltb_ge; lia.
    - done. }
  assert (Hfds : open_fds (munmap (mmap_ptr - curr_pos smd)%Z (end_pos smd) s).2
                 = open_fds s).
  { unfold munmap. by repeat case_bool_decide. }
  unfold destroy_mmap.
  destruct (munmap (mmap_ptr - curr_pos smd)%Z (end_pos smd) s) as [unmapped s1].
  cbn [snd] in Hkept, Hfds.
  assert (Hs2 : open_fds (if unmapped then s1
                          else print_errno "could not unmap index file" s1) = open_fds s
                /\ mapped (if unmapped then s1
                           else print_errno "could not unmap index file" s1) = mapped s1).
  { by destruct unmapped. }
  destruct Hs2 as [Hfds2 Hmapped2].
  set (s2 := if unmapped then s1 else print_errno "could not unmap index file" s1) in *.
  unfold close. case_bool_decide as Hfd; cbn [open_fds mapped print_errno];
    rewrite ?Hfds2, ?Hmapped2.
  - split; [set_solver|]. split; [set_solver|]. exact Hkept.
  - split; [by rewrite <- Hfds2|]. split; [done|]. exact Hkept.
Qed.

(** ** The command-line tool, continued *)

Import CobsMore CliSamples.

Lemma to_lower_char_idem (c : ascii) :
  to_lower_char (to_lower_char c) = to_lower_char c.
Proof. destruct c as [[] [] [] [] [] [] [] []]; reflexivity. Qed.

Lemma to_lower_idem (s : string) : to_lower (to_lower s) = to_lower s.
Proof.
  induction s as [|c s IH]; [done|]. cbn. by rewrite to_lower_char_idem, IH.
Qed.

Lemma StringToFileType_known (s : string) (w : world) :
  to_lower s ∈ file_type_names ->
  exists ft, StringToFileType s w = (Returned ft, w).
Proof.
  unfold StringToFileType, file_type_names. generalize (to_lower s) as t.
  intros t Ht.
  repeat (apply elem_of_cons in Ht as [->|Ht]; [by eexists|]).
  by apply elem_of_nil in Ht.
Qed.

Lemma StringToFileType_unknown (s : string) (w : world) :
  to_lower s ∉ file_type_names ->
  StringToFileType s w
  = (Died ("Unknown file type " +:+ to_lower s),
     mkWorld (files w) (out w) (err w ++ ["Unknown file type " +:+ to_lower s])).
Proof.
  unfold StringToFileType, file_type_names. generalize (to_lower s) as t.
  intros t Ht.
  repeat case_bool_decide; try reflexivity; exfalso; apply Ht;
    repeat match goal with
           | H : _ \/ _ |- _ => destruct H as [->| ->]
           | H : ?t = _ |- ?t ∈ _ => rewrite H
           end;
    repeat first [apply list_elem_of_here | apply list_elem_of_further].
Qed.

(** X9.  [StringToFileType] looks at the lower-cased name only: a name is
    accepted exactly when its lower-cased form is one of the ten known
    spellings, and then the world is left as it was; any other name makes
    the tool die with the lower-cased name in the message. *)
Theorem StringToFileType_known_names (s : string) (w : world) :
  StringToFileType (to_lower s) w = StringToFileType s w
  /\ (to_lower s ∈ file_type_names ->
        exists ft, StringToFileType s w = (Returned ft, w))
  /\ (to_lower s ∉ file_type_names ->
        StringToFileType s w
        = (Died ("Unknown file type " +:+ to_lower s),
           mkWorld (files w) (out w)
                   (err w ++ ["Unknown file type " +:+ to_lower s]))).
Proof.
  split; [|split].
  - unfold StringToFileType. by rewrite to_lower_idem.
  - apply StringToFileType_known.
  - apply StringToFileType_unknown.
Qed.

(** X10.  [classic_construct] checks the file type only after the output
    directory has been dealt with.  With [--clobber], an existing output
    directory and an unknown file type: when the removal goes through, the
    directory and everything below it is gone by the time the tool dies on
    the file type; when the removal fails, its exception leaves the tool and
    the file type is never looked at. *)
Theorem classic_construct_erases_before_file_type `{Library}
    (argv : list string) (o : construct_options classic_params) (w : world) :
  cmdline_classic argv = Some o ->
  out_dir o ∈ files w ->
  clobber o = true ->
  to_lower (file_type o) ∉ file_type_names ->
  let listed := mkWorld (files w) (out w) (err w ++ print_result_classic o) in
  (remove_all_fails (out_dir o) listed = None ->
     Cli.classic_construct argv w
     = (Died ("Unknown file type " +:+ to_lower (file_type o)),
        mkWorld (filter (fun q => ¬ below (out_dir o) q) (files w)) (out w)
                (err w ++ print_result_classic o
                       ++ ["Unknown file type " +:+ to_lower (file_type o)])))
  /\ (forall what gone,
        remove_all_fails (out_dir o) listed = Some (what, gone) ->
        Cli.classic_construct argv w
        = (Threw what,
           mkWorld (filter (fun q => ¬ (below (out_dir o) q /\ gone q = true)) (files w))
                   (out w) (err w ++ print_result_classic o))).
Proof.
  intros Hparse Hin Hclobber Htype listed.
  unfold Cli.classic_construct. rewrite Hparse.
  rewrite !tool_bind_unfold, !for_each_cerr, !tool_bind_unfold.
  rewrite check_output_existing by done.
  rewrite Hclobber. unfold remove_all. fold listed. split.
  - intros ->. unfold classic_build.
    rewrite tool_bind_unfold, StringToFileType_unknown by done.
    cbn [files out err listed]. by rewrite <- app_assoc.
  - by intros what gone ->.
Qed.

Lemma bam_is_no_file_type : to_lower "bam" ∉ file_type_names.
Proof.
  intros Hin. unfold file_type_names in Hin.
  repeat (apply elem_of_cons in Hin as [Hin|Hin]; [discriminate|]).
  by apply elem_of_nil in Hin.
Defined.

Lemma classic_construct_erases_before_file_type_witness :
  Cli.classic_construct (H := typed_library "bam")
    ["cobs classic_construct"; "in"; "out"; "-C"] sample_world
  = (Died ("Unknown file type " +:+ to_lower "bam"),
     mkWorld (filter (fun q => ¬ below "out" q) (files sample_world))
             (out sample_world)
             (err sample_world ++ [] ++ ["Unknown file type " +:+ to_lower "bam"])).
Proof.
  destruct (classic_construct_erases_before_file_type (H := typed_library "bam")
              ["cobs classic_construct"; "in"; "out"; "-C"]
              (mkConstruct "in" "out" "bam" true false tt) sample_world
              eq_refl sample_world_has_out eq_refl bam_is_no_file_type)
    as [Hdies _].
  exact (Hdies eq_refl).
Defined.

(** X11.  The directory check when nothing is in the way.  For both construct
    tools: when the output directory does not exist, or it exists and
    [--continue] was given without [--clobber], the construction starts with
    the file system as it was; only the parameter listing has been written
    to standard error. *)
Theorem construct_continues_without_erasing `{Library}
    (argv_c argv_p : list string)
    (oc : construct_options classic_params)
    (op : construct_options compact_params) (w : world) :
  cmdline_classic argv_c = Some oc ->
  cmdline_compact argv_p = Some op ->
  out_dir oc ∉ files w \/ (clobber oc = false /\ continue_ oc = true) ->
  out_dir op ∉ files w \/ (clobber op = false /\ continue_ op = true) ->
  Cli.classic_construct argv_c w
    = classic_build oc (mkWorld (files w) (out w) (err w ++ print_result_classic oc))
  /\ Cli.compact_construct argv_p w
    = compact_build op (mkWorld (files w) (out w) (err w ++ print_result_compact op)).
Proof.
  intros Hc Hp Hoc Hop.
  assert (Hcheck : forall dir cl co lines,
            dir ∉ files w \/ (cl = false /\ co = true) ->
            check_output dir cl co (mkWorld (files w) (out w) (err w ++ lines))
            = (Returned tt, mkWorld (files w) (out w) (err w ++ lines))).
  { intros dir cl co lines Hdir. unfold check_output.
    rewrite tool_bind_unfold. unfold fs_exists. cbn [files].
    case_bool_decide as Hin; [|done].
    destruct Hdir as [Hnot|[-> ->]]; [done|]. reflexivity. }
  unfold Cli.classic_construct, Cli.compact_construct. rewrite Hc, Hp.
  rewrite !tool_bind_unfold, !for_each_cerr, !tool_bind_unfold.
  by rewrite !Hcheck.
Qed.

Lemma construct_continues_without_erasing_witness :
  Cli.classic_construct (H := sample_library)
    ["cobs classic_construct"; "in"; "out"; "--continue"] sample_world
  = classic_build (H := sample_library) (mkConstruct "in" "out" "any" false true tt)
      (mkWorld (files sample_world) (out sample_world) (err sample_world ++ [])).
Proof.
  destruct (construct_continues_without_erasing (H := sample_library)
              ["cobs classic_construct"; "in"; "out"; "--continue"]
              ["cobs compact_construct"; "in"; "out"; "--continue"]
              (mkConstruct "in" "out" "any" false true tt)
              (mkConstruct "in" "out" "any" false true tt)
              sample_world eq_refl eq_refl
              (or_intror (conj eq_refl eq_refl))
              (or_intror (conj eq_refl eq_refl))) as [Hclassic _].
  exact Hclassic.
Defined.

(** *** [main] and the dispatch *)

Lemma cout_then {A} (line : string) (k : Tool A) (w : world) :
  (cout line ≫= fun _ => k) w
  = k (mkWorld (files w) (out w ++ [line]) (err w)).
Proof. reflexivity. Qed.

Lemma main_usage_lines `{Library} (arg0 : string) (w : world) :
  exists rest,
    main_usage arg0 w
    = (Returned 0%Z,
       mkWorld (files w)
               (out w ++ ["(Co)mpact (B)it-Sliced (S)ignature Index for Genome Search";
                          EmptyString;
                          "Usage: " +:+ arg0 +:+ " <subtool> ..."] ++ rest)
               (err w)).
Proof.
  destruct (main_usage_prints_only arg0 w) as (a & usage & Hrun).
  pose proof (main_usage_returns_zero arg0 w) as Hzero.
  rewrite Hrun in Hzero. cbn in Hzero. injection Hzero as ->.
  revert Hrun. unfold main_usage. rewrite !cout_then. cbn [files out err].
  set (k := _ ≫= _). intros Hrun.
  assert (Hk : prints_only k).
  { subst k. apply prints_only_bind.
    { apply prints_only_for_each. intros t. destruct (shortline t).
      - apply prints_only_ret.
      - apply prints_only_bind; [apply prints_only_cout|]. intros _.
        apply prints_only_bind; [|intros _; apply prints_only_cout].
        apply prints_only_for_each. intros; apply prints_only_cout. }
    intros _. apply prints_only_bind.
    { apply prints_only_for_each. intros t. destruct (shortline t).
      - apply prints_only_cout.
      - apply prints_only_ret. }
    intros _. apply prints_only_bind; [apply prints_only_cout|]. intros _.
    apply prints_only_ret. }
  match type of Hrun with k ?w5 = _ => destruct (Hk w5) as (a & rest & Hrest) end.
  rewrite Hrest in Hrun. cbn [files out err] in Hrun.
  injection Hrun as -> Hout.
  exists ([EmptyString; "Available subtools: "] ++ rest).
  rewrite Hrest. cbn [files out err]. f_equal. f_equal.
  rewrite <- !app_assoc. reflexivity.
Qed.

(** X12.  Called with the program name alone, [main] writes the usage text, with
    the line naming the program as it was called, to standard output and
    exits with 0; standard error and the file system stay as they were. *)
Theorem main_without_subtool_prints_usage `{Library} (arg0 : string) (w : world) :
  exists usage,
    run_main [arg0] w = (Exit 0, mkWorld (files w) (out w ++ usage) (err w))
    /\ ("Usage: " +:+ arg0 +:+ " <subtool> ...") ∈ usage.
Proof.
  destruct (main_usage_lines arg0 w) as (rest & Hrun).
  eexists. split.
  - unfold run_main, main. rewrite Hrun. reflexivity.
  - do 2 apply list_elem_of_further. apply list_elem_of_here.
Qed.

(** X13.  A subtool of the table that returns decides the exit code: [main] hands
    it the arguments after the subtool name, preceded by the program name
    and the subtool name as one string, and exits with the value it
    returns, in the world it leaves. *)
Theorem main_returns_subtool_code `{Library}
    (arg0 : string) (rest : list string) (w w' : world) (t : SubTool) (code : Z) :
  t ∈ subtools ->
  func t (progsub arg0 (name t) :: rest) w = (Returned code, w') ->
  run_main (arg0 :: name t :: rest) w = (Exit code, w').
Proof.
  intros Ht Hrun. unfold run_main, main. rewrite (find_subtool t Ht).
  unfold catching. by rewrite Hrun.
Qed.

Lemma main_returns_subtool_code_witness :
  run_main (H := sample_library) ["cobs"; "print_kmers"; "ACGTACGTACGTACGTACGTACGTACGTACGTAC"]
           (mkWorld ∅ [] [])
  = (Exit 0,
     mkWorld ∅ ["ACGTACGTACGTACGTACGTACGTACGTACG";
                "CGTACGTACGTACGTACGTACGTACGTACGT";
                "GTACGTACGTACGTACGTACGTACGTACGTA"] []).
Proof.
  pose (t := mkSubTool "print_kmers" (print_kmers (H := sample_library)) true
               "print all canonical kmers from <query>").
  assert (Ht : t ∈ subtools (H := sample_library)).
  { unfold subtools. do 10 apply list_elem_of_further. apply list_elem_of_here. }
  exact (main_returns_subtool_code (H := sample_library) "cobs"
           ["ACGTACGTACGTACGTACGTACGTACGTACGTAC"] (mkWorld ∅ [] []) _ t 0 Ht eq_refl).
Defined.

(** X14.  A command line that the option parser rejects: each of
    [classic_construct], [compact_construct], [query] and [print_kmers]
    returns -1 once the parser has printed its complaint, and does nothing
    else; [main] exits with that -1 (an exception out of the parser is
    caught by [main] as any other, a [die] inside it ends the process). *)
Theorem main_rejected_command_line `{Library}
    (arg0 : string) (rest : list string) (w : world) :
  let args name := progsub arg0 name :: rest in
  let rejected name :=
    match cmdline_rejected (args name) w with
    | (Returned _, w') => (Exit (-1), w')
    | (Died _, w') => (Terminated, w')
    | (Threw what, w') =>
        (Exit (-1), mkWorld (files w') (out w') (err w' ++ ["EXCEPTION: " +:+ what]))
    end in
  (cmdline_classic (args "classic_construct") = None ->
     run_main (arg0 :: "classic_construct" :: rest) w = rejected "classic_construct")
  /\ (cmdline_compact (args "compact_construct") = None ->
     run_main (arg0 :: "compact_construct" :: rest) w = rejected "compact_construct")
  /\ (cmdline_query (args "query") = None ->
     run_main (arg0 :: "query" :: rest) w = rejected "query")
  /\ (cmdline_kmers (args "print_kmers") = None ->
     run_main (arg0 :: "print_kmers" :: rest) w = rejected "print_kmers").
Proof.
  intros args rejected. subst args rejected. cbv beta.
  split; [|split; [|split]]; intros Hparse; unfold run_main, main.
  - change (List.find _ subtools)
      with (Some (mkSubTool "classic_construct" Cli.classic_construct true
                    "constructs a classic index from the documents in <in_dir>")).
    cbn [func]. unfold catching, Cli.classic_construct. rewrite Hparse, tool_bind_unfold.
    by destruct (cmdline_rejected _ w) as [[| |] ?].
  - change (List.find _ subtools)
      with (Some (mkSubTool "compact_construct" Cli.compact_construct true
                    "creates the folders used for further construction")).
    cbn [func]. unfold catching, Cli.compact_construct. rewrite Hparse, tool_bind_unfold.
    by destruct (cmdline_rejected _ w) as [[| |] ?].
  - change (List.find _ subtools)
      with (Some (mkSubTool "query" query true "query an index")).
    cbn [func]. unfold catching, query. rewrite Hparse, tool_bind_unfold.
    by destruct (cmdline_rejected _ w) as [[| |] ?].
  - change (List.find _ subtools)
      with (Some (mkSubTool "print_kmers" print_kmers true
                    "print all canonical kmers from <query>")).
    cbn [func]. unfold catching, print_kmers. rewrite Hparse, tool_bind_unfold.
    by destruct (cmdline_rejected _ w) as [[| |] ?].
Qed.

Lemma length_append (s1 s2 : string) :
  String.length (s1 +:+ s2) = String.length s1 + String.length s2.
Proof.
  induction s1 as [|c s1 IH]; [done|].
  change (String c s1 +:+ s2) with (String c (s1 +:+ s2)). cbn. by rewrite IH.
Qed.

Lemma length_substring_0 (n : nat) (s : string) :
  String.length (String.substring 0 n s) = Nat.min n (String.length s).
Proof.
  revert n. induction s as [|c s IH]; intros [|n]; cbn; try done.
  by rewrite IH.
Qed.

Lemma substring_0_all (n : nat) (s : string) :
  String.length s <= n -> String.substring 0 n s = s.
Proof.
  revert n. induction s as [|c s IH]; intros [|n] Hn; cbn in *; try done; try lia.
  rewrite IH by lia. done.
Qed.

Lemma substring_0_prefix (n : nat) (s : string) :
  String.prefix (String.substring 0 n s) s = true.
Proof.
  revert n. induction s as [|c s IH]; intros [|n]; cbn; try done.
  destruct (ascii_dec c c); [apply IH|done].
Qed.

(** X15.  The call string handed to a subtool is cut to the 255 characters that
    fit the buffer of [main]: it is always a prefix of "arg0 arg1", never
    longer than 255 characters, and the whole of it when that fits. *)
Theorem progsub_fits_buffer (arg0 arg1 : string) :
  String.length (progsub arg0 arg1) <= 255
  /\ String.prefix (progsub arg0 arg1) (arg0 +:+ " " +:+ arg1) = true
  /\ (String.length arg0 + 1 + String.length arg1 <= 255 ->
        progsub arg0 arg1 = arg0 +:+ " " +:+ arg1)
  /\ (255 < String.length arg0 + 1 + String.length arg1 ->
        String.length (progsub arg0 arg1) = 255).
Proof.
  unfold progsub. split; [|split; [|split]].
  - rewrite length_substring_0. lia.
  - apply substring_0_prefix.
  - intros Hfits. apply substring_0_all. rewrite !length_append. cbn. lia.
  - intros Hlong. rewrite length_substring_0, !length_append.
    change (String.length " ") with 1. lia.
Qed.

(** *** [query] *)

(** X16.  A successful query: the file is searched as a classic index when it has
    the classic header, else as a compact index when it has that header;
    the results are written to standard output one per line, in the order
    of the result vector, as [name - score], followed by the timer, and the
    tool returns 0. *)
Theorem query_prints_results_then_timer `{Library}
    (argv : list string) (o : query_options) (w w' : world)
    (result : list (Z * string)) (timer : string) :
  cmdline_query argv = Some o ->
  has_classic_header (in_file o) w = true \/ has_compact_header (in_file o) w = true ->
  (if has_classic_header (in_file o) w then search_classic o w else search_compact o w)
    = (Returned (result, timer), w') ->
  query argv w
  = (Returned 0%Z,
     mkWorld (files w') (out w' ++ (result_line <$> result) ++ [timer]) (err w')).
Proof.
  intros Hparse Hheader Hsearch. unfold query. rewrite Hparse.
  rewrite tool_bind_unfold. unfold reading at 1.
  assert (Hprint : forall w1,
            (for_each (fun res => cout (result_line res)) result ≫= fun _ =>
               cout timer ≫= fun _ => mret 0%Z) w1
            = (Returned 0%Z,
               mkWorld (files w1) (out w1 ++ (result_line <$> result) ++ [timer]) (err w1))).
  { clear. induction result as [|res result IH]; intros w1.
    - reflexivity.
    - cbn [for_each fmap list_fmap]. rewrite tool_bind_unfold, tool_bind_unfold.
      unfold cout at 1. rewrite <- tool_bind_unfold, IH. cbn [files out err].
      by rewrite <- app_assoc. }
  destruct (has_classic_header (in_file o) w) eqn:Hclassic.
  - rewrite tool_bind_unfold, Hsearch. apply Hprint.
  - destruct Hheader as [|Hcompact]; [done|].
    rewrite !tool_bind_unfold. unfold reading at 1. rewrite Hcompact, Hsearch.
    apply Hprint.
Qed.

Lemma query_prints_results_then_timer_witness :
  query (H := sample_library) ["cobs query"; "compact.cobs"; "ACGT"]
        (mkWorld {[ "compact.cobs" ]} [] [])
  = (Returned 0%Z,
     mkWorld {[ "compact.cobs" ]} ([] ++ (result_line <$> []) ++ ["timer"]) []).
Proof.
  exact (query_prints_results_then_timer (H := sample_library)
           ["cobs query"; "compact.cobs"; "ACGT"] (mkQuery "compact.cobs" "ACGT" 100)
           (mkWorld {[ "compact.cobs" ]} [] []) (mkWorld {[ "compact.cobs" ]} [] [])
           [] "timer" eq_refl (or_intror eq_refl) eq_refl).
Defined.

(** *** [print_kmers] and the term loop of [generate_queries] *)

(** X17.  For a query at least as long as [kmer_size], [print_kmers] writes
    [|query| - kmer_size] lines to standard output and nothing else: line
    [i] is the canonical form of the window at offset [i].  A query of
    exactly [kmer_size] characters gives no line at all. *)
Theorem print_kmers_lines `{Library}
    (argv : list string) (query : string) (kmer_size : Z) (w : world) :
  cmdline_kmers argv = Some (query, kmer_size) ->
  (0 <= kmer_size <= Z.of_nat (String.length query))%Z ->
  (Z.of_nat (String.length query) < 2 ^ 64)%Z ->
  exists lines,
    print_kmers argv w = (Returned 0%Z, mkWorld (files w) (out w ++ lines) (err w))
    /\ Z.of_nat (length lines) = (Z.of_nat (String.length query) - kmer_size)%Z
    /\ forall i, (Z.of_nat i < Z.of_nat (String.length query) - kmer_size)%Z ->
         lines !! i
         = Some (canonicalize_kmer (String.substring i (Z.to_nat kmer_size) query)).
Proof.
  intros Hparse Hk Hsize.
  exists (canonicalize_kmer <$> kmer_windows query kmer_size). split; [|split].
  - unfold print_kmers. rewrite Hparse, bool_decide_eq_true_2 by lia.
    generalize (kmer_windows query kmer_size) as windows. clear. intros windows.
    revert w. induction windows as [|x windows IH]; intros w.
    + cbn. rewrite app_nil_r. by destruct w.
    + cbn [for_each fmap list_fmap]. rewrite tool_bind_unfold, tool_bind_unfold.
      unfold cout at 1. rewrite <- tool_bind_unfold, IH. cbn [files out err].
      by rewrite <- app_assoc.
  - rewrite length_fmap. by apply kmer_windows_count.
  - intros i Hi. rewrite list_lookup_fmap. unfold kmer_windows, kmer_loop_bound.
    rewrite Z.mod_small by lia.
    change (map ?f ?l) with (f <$> l). rewrite list_lookup_fmap.
    rewrite lookup_seq_lt by lia. reflexivity.
Qed.

Lemma print_kmers_lines_witness :
  exists lines,
    print_kmers (H := sample_library) ["cobs print_kmers"; "ACGTACGTACGTACGTACGTACGTACGTACGTAC"]
                (mkWorld ∅ [] [])
      = (Returned 0%Z, mkWorld ∅ ([] ++ lines) [])
    /\ Z.of_nat (length lines) = (34 - 31)%Z.
Proof.
  destruct (print_kmers_lines (H := sample_library)
              ["cobs print_kmers"; "ACGTACGTACGTACGTACGTACGTACGTACGTAC"]
              "ACGTACGTACGTACGTACGTACGTACGTACGTAC" 31 (mkWorld ∅ [] []) eq_refl
              ltac:(cbn; lia) ltac:(cbn; lia)) as (lines & Hrun & Hlen & _).
  exists lines. split; [exact Hrun|exact Hlen].
Defined.

(** X18.  For a query shorter than [kmer_size], the bound
    [query.size() - kmer_size] of the loop of [print_kmers] wraps around in
    [size_t] to [2^64 - (kmer_size - |query|)]: it is positive, so the loop
    condition holds at [i = 0] although no window of [kmer_size] characters
    fits into the query, and it is larger than the length of the query. *)
Theorem print_kmers_short_query_wraps (query : string) (kmer_size : Z) :
  (Z.of_nat (String.length query) < kmer_size < 2 ^ 32)%Z ->
  kmer_loop_bound query kmer_size
    = (2 ^ 64 - (kmer_size - Z.of_nat (String.length query)))%Z
  /\ (0 < kmer_loop_bound query kmer_size)%Z
  /\ (Z.of_nat (String.length query) < kmer_loop_bound query kmer_size)%Z.
Proof.
  intros Hk. unfold kmer_loop_bound.
  assert (Hmod : ((Z.of_nat (String.length query) - kmer_size) mod 2 ^ 64
                  = 2 ^ 64 - (kmer_size - Z.of_nat (String.length query)))%Z).
  { symmetry. apply Z.mod_unique with (q := (-1)%Z); lia. }
  rewrite Hmod. lia.
Qed.

Lemma print_kmers_short_query_wraps_witness :
  kmer_loop_bound "ACG" 31 = (2 ^ 64 - (31 - Z.of_nat (String.length "ACG")))%Z.
Proof.
  exact (proj1 (print_kmers_short_query_wraps "ACG" 31 ltac:(cbn; lia))).
Defined.

Lemma negative_terms_from_lookup (fuel i j : nat) (neg : string) (term_size : nat) :
  i + j + term_size <= String.length neg ->
  j < fuel ->
  negative_terms_from fuel i neg term_size !! j
  = Some (String.substring (i + j) term_size neg).
Proof.
  revert i j. induction fuel as [|fuel IH]; intros i j Hin Hfuel; [lia|].
  cbn [negative_terms_from].
  destruct (Nat.leb_spec (i + term_size) (String.length neg)) as [Hle|Hgt]; [|lia].
  destruct j as [|j].
  - cbn. by rewrite Nat.add_0_r.
  - cbn [lookup list_lookup]. rewrite IH by lia. f_equal. f_equal. lia.
Qed.

(** X19.  The loop over the terms of a negative query in [generate_queries]
    visits every window: [|neg| - term_size + 1] of them, the one at offset
    [i] in place [i], and none when the query is shorter than
    [term_size]. *)
Theorem negative_terms_every_window (neg : string) (term_size : nat) :
  length (negative_terms neg term_size) = String.length neg + 1 - term_size
  /\ (forall i, i + term_size <= String.length neg ->
        negative_terms neg term_size !! i = Some (String.substring i term_size neg))
  /\ (String.length neg < term_size -> negative_terms neg term_size = []).
Proof.
  split; [|split].
  - unfold negative_terms. rewrite negative_terms_from_count by lia. lia.
  - intros i Hi. unfold negative_terms.
    rewrite negative_terms_from_lookup by lia. reflexivity.
  - intros Hshort. apply length_zero_iff_nil.
    unfold negative_terms. rewrite negative_terms_from_count by lia. lia.
Qed.

(** ** The loops of [generate_queries] and [print_document_list] *)

Lemma collect_negatives_spec (it : list string) (missing : nat) :
  collect_negatives it missing
  = if decide (missing <= length (filter (fun s => s <> EmptyString) it))
    then Some ((fun s => mkGenQuery s no_document None)
                 <$> take missing (filter (fun s => s <> EmptyString) it))
    else None.
Proof.
  revert missing. induction it as [|neg it IH]; intros missing.
  - destruct missing; cbn; [done|]. rewrite decide_False by lia. done.
  - destruct missing as [|missing].
    { cbn [collect_negatives]. rewrite decide_True by lia. done. }
    cbn [collect_negatives]. case_bool_decide as Hempty.
    + rewrite filter_cons_False by (intros Hne; by apply Hne). apply IH.
    + rewrite filter_cons_True by done. rewrite IH. cbn [length take].
      destruct (decide (missing <= _)) as [Hle|Hgt].
      * rewrite decide_True by lia. reflexivity.
      * rewrite decide_False by lia. reflexivity.
Qed.

(** X20.  When at least [num_negative] of the generated negative queries are
    still non-empty, the queries handed to the shuffle are the positives
    followed by the first [num_negative] non-empty negatives, in the order
    they were generated, each marked with the document index [size_t(-1)]. *)
Theorem gather_queries_takes_first_nonempty
    (positives : list Query) (negatives : list string) (num_negative : nat) :
  num_negative <= length (filter (fun s => s <> EmptyString) negatives) ->
  gather_queries positives negatives num_negative
  = Queries (positives
             ++ ((fun s => mkGenQuery s no_document None)
                   <$> take num_negative (filter (fun s => s <> EmptyString) negatives))).
Proof.
  intros Henough. unfold gather_queries.
  pose proof (length_filter (fun s => s <> EmptyString) negatives) as Hfilter.
  destruct (Nat.ltb_spec (length negatives) num_negative) as [Hlt|_]; [lia|].
  rewrite collect_negatives_spec, decide_True by done. reflexivity.
Qed.

Lemma gather_queries_takes_first_nonempty_witness :
  gather_queries [mkGenQuery "ACGT" 0 (Some 0%Z)] ["TTTT"; EmptyString; "GGGG"; "CCCC"] 2
  = Queries ([mkGenQuery "ACGT" 0 (Some 0%Z)]
             ++ ((fun s => mkGenQuery s no_document None)
                   <$> take 2 (filter (fun s => s <> EmptyString)
                                      ["TTTT"; EmptyString; "GGGG"; "CCCC"]))).
Proof.
  exact (gather_queries_takes_first_nonempty [mkGenQuery "ACGT" 0 (Some 0%Z)]
           ["TTTT"; EmptyString; "GGGG"; "CCCC"] 2 ltac:(vm_compute; lia)).
Defined.

(** X21.  The check before the collection counts the cleared negatives too: when
    fewer than [num_negative] negatives are non-empty while the vector still
    holds [num_negative] entries, the check passes, nothing dies, and the
    collecting loop steps over the end of the vector. *)
Theorem gather_queries_runs_past_the_end
    (positives : list Query) (negatives : list string) (num_negative : nat) :
  length (filter (fun s => s <> EmptyString) negatives) < num_negative ->
  num_negative <= length negatives ->
  gather_queries positives negatives num_negative = PastTheEnd.
Proof.
  intros Hfew Hsize. unfold gather_queries.
  destruct (Nat.ltb_spec (length negatives) num_negative) as [Hlt|_]; [lia|].
  rewrite collect_negatives_spec, decide_False by lia. reflexivity.
Qed.

Lemma gather_queries_runs_past_the_end_witness :
  gather_queries [] ["TTTT"; EmptyString; EmptyString] 2 = PastTheEnd.
Proof.
  exact (gather_queries_runs_past_the_end [] ["TTTT"; EmptyString; EmptyString] 2
           ltac:(vm_compute; lia) ltac:(vm_compute; lia)).
Defined.

#[local] Abbreviation sumZ := (foldr Z.add 0%Z).

Lemma sumZ_nonneg (l : list Z) :
  Forall (fun n => (0 <= n)%Z) l -> (0 <= sumZ l)%Z.
Proof. induction 1 as [|n l Hn _ IH]; cbn; lia. Qed.

Lemma sumZ_take_step (l : list Z) (d : nat) (n : Z) :
  l !! d = Some n -> sumZ (take (S d) l) = (sumZ (take d l) + n)%Z.
Proof.
  revert d. induction l as [|x l IH]; intros [|d] Hd; cbn in *; try done.
  - injection Hd as ->. rewrite take_0. cbn. lia.
  - rewrite (IH d Hd). lia.
Qed.

Lemma sumZ_take_mono (l : list Z) (d1 d2 : nat) :
  Forall (fun n => (0 <= n)%Z) l -> d1 <= d2 ->
  (sumZ (take d1 l) <= sumZ (take d2 l))%Z.
Proof.
  intros Hl. revert d1 d2. induction Hl as [|x l Hx Hl IH]; intros d1 d2 Hd.
  - by rewrite !take_nil.
  - destruct d1 as [|d1], d2 as [|d2]; cbn; try lia.
    + pose proof (sumZ_nonneg (take d2 l) (Forall_take _ _ _ Hl)). lia.
    + specialize (IH d1 d2). lia.
Qed.

Lemma sumZ_locate (l : list Z) (g : Z) :
  Forall (fun n => (0 <= n)%Z) l -> (0 <= g < sumZ l)%Z ->
  exists d n, l !! d = Some n /\ (sumZ (take d l) <= g < sumZ (take d l) + n)%Z.
Proof.
  intros Hl. revert g. induction Hl as [|x l Hx Hl IH]; intros g Hg; cbn in Hg; [lia|].
  destruct (decide (g < x)%Z) as [Hlt|Hge].
  - exists 0, x. cbn. split; [done|lia].
  - destruct (IH (g - x)%Z) as (d & n & Hd & Hrange); [lia|].
    exists (S d), n. cbn. split; [done|lia].
Qed.

Lemma terms_prefixsum_from (l prefixsum : list Z) (total : Z) :
  Forall (fun n => (0 <= n)%Z) l -> (0 <= total)%Z -> (total + sumZ l < 2 ^ 64)%Z ->
  foldl (fun '(prefixsum, total_terms) n =>
           (prefixsum ++ [total_terms], size_t_add total_terms n))
        (prefixsum, total) l
  = (prefixsum ++ ((fun d => (total + sumZ (take d l))%Z) <$> seq 0 (length l)),
     (total + sumZ l)%Z).
Proof.
  intros Hl. revert prefixsum total.
  induction Hl as [|n l Hn Hl IH]; intros prefixsum total Htotal Hsum.
  - cbn. by rewrite app_nil_r, Z.add_0_r.
  - cbn [foldl]. cbn [foldr] in Hsum.
    pose proof (sumZ_nonneg l Hl) as Hnonneg.
    unfold size_t_add at 2. rewrite Z.mod_small by lia.
    rewrite IH by lia. f_equal.
    + rewrite <- app_assoc. f_equal. cbn [length seq fmap list_fmap app take foldr].
      rewrite Z.add_0_r. f_equal.
      rewrite <- fmap_S_seq, <- list_fmap_compose.
      apply list_fmap_ext. intros _ d _. cbn. lia.
    + cbn. lia.
Qed.

(** X22.  The prefix sums of [generate_queries] split the term numbers among the
    documents.  When the term counts add up without wrapping, [total_terms]
    is their sum, entry [d] of [terms_prefixsum] is the number of terms in
    the documents before [d], and every term number below [total_terms]
    falls into the range of exactly one document. *)
Theorem terms_prefixsum_partitions (num_terms : list Z) :
  Forall (fun n => (0 <= n)%Z) num_terms ->
  (sumZ num_terms < 2 ^ 64)%Z ->
  (terms_prefixsum num_terms).2 = sumZ num_terms
  /\ length (terms_prefixsum num_terms).1 = length num_terms
  /\ (forall d, d < length num_terms ->
        (terms_prefixsum num_terms).1 !! d = Some (sumZ (take d num_terms)))
  /\ (forall g, (0 <= g < sumZ num_terms)%Z ->
        exists d first n,
          (terms_prefixsum num_terms).1 !! d = Some first
          /\ num_terms !! d = Some n
          /\ (first <= g < first + n)%Z
          /\ forall d' first' n',
               (terms_prefixsum num_terms).1 !! d' = Some first' ->
               num_terms !! d' = Some n' ->
               (first' <= g < first' + n')%Z -> d' = d).
Proof.
  intros Hl Hsum. unfold terms_prefixsum.
  rewrite terms_prefixsum_from by (done || lia).
  cbn [fst snd app].
  assert (Hentry : forall d, d < length num_terms ->
            ((fun d => (0 + sumZ (take d num_terms))%Z) <$> seq 0 (length num_terms)) !! d
            = Some (sumZ (take d num_terms))).
  { intros d Hd. rewrite list_lookup_fmap, lookup_seq_lt by done. reflexivity. }
  split; [lia|]. split; [by rewrite length_fmap, length_seq|]. split; [exact Hentry|].
  intros g Hg. destruct (sumZ_locate num_terms g Hl Hg) as (d & n & Hd & Hrange).
  pose proof (lookup_lt_Some _ _ _ Hd) as Hdlt.
  exists d, (sumZ (take d num_terms)), n.
  split; [by apply Hentry|]. split; [done|]. split; [done|].
  intros d' first' n' Hfirst' Hn' Hrange'.
  pose proof (lookup_lt_Some _ _ _ Hn') as Hdlt'.
  rewrite Hentry in Hfirst' by done. injection Hfirst' as <-.
  pose proof (sumZ_take_step _ _ _ Hd) as Hstep.
  pose proof (sumZ_take_step _ _ _ Hn') as Hstep'.
  destruct (Nat.lt_trichotomy d' d) as [Hlt|[->|Hgt]]; [|done|].
  - pose proof (sumZ_take_mono num_terms (S d') d Hl ltac:(lia)). lia.
  - pose proof (sumZ_take_mono num_terms (S d) d' Hl ltac:(lia)). lia.
Qed.

Lemma terms_prefixsum_partitions_witness :
  (terms_prefixsum [3; 10; 4]%Z).2 = sumZ [3; 10; 4]%Z
  /\ length (terms_prefixsum [3; 10; 4]%Z).1 = length [3; 10; 4]%Z.
Proof.
  destruct (terms_prefixsum_partitions [3; 10; 4]%Z
              ltac:(repeat (constructor; [lia|]); constructor)
              ltac:(vm_compute; reflexivity)) as (Htotal & Hlen & _).
  split; [exact Htotal|exact Hlen].
Defined.

Lemma document_statistics_from (l : list Z) (max_kmers total : Z) :
  Forall (fun n => (0 <= n)%Z) l -> (0 <= total)%Z -> (total + sumZ l < 2 ^ 64)%Z ->
  foldl (fun '(max_kmers, total_kmers) n =>
           (Z.max max_kmers n, size_t_add total_kmers n))
        (max_kmers, total) l
  = (foldl Z.max max_kmers l, (total + sumZ l)%Z).
Proof.
  intros Hl. revert max_kmers total.
  induction Hl as [|n l Hn Hl IH]; intros max_kmers total Htotal Hsum.
  - cbn. by rewrite Z.add_0_r.
  - cbn [foldl]. cbn [foldr] in Hsum.
    pose proof (sumZ_nonneg l Hl) as Hnonneg.
    unfold size_t_add at 2. rewrite Z.mod_small by lia.
    rewrite IH by lia. cbn. f_equal. lia.
Qed.

Lemma foldl_max_bounds (l : list Z) (m : Z) :
  (m <= foldl Z.max m l)%Z
  /\ Forall (fun n => (n <= foldl Z.max m l)%Z) l
  /\ (foldl Z.max m l = m \/ foldl Z.max m l ∈ l).
Proof.
  revert m. induction l as [|n l IH]; intros m; cbn.
  - split; [lia|]. split; [constructor|by left].
  - destruct (IH (Z.max m n)) as (Hge & Hall & Hin).
    split; [lia|]. split; [constructor; [lia|done]|].
    destruct Hin as [Heq|Hin].
    + rewrite Heq. destruct (Z.max_spec m n) as [[_ ->]|[_ ->]].
      * right. apply list_elem_of_here.
      * by left.
    + right. by apply list_elem_of_further.
Qed.

(** X23.  The statistics loop of [print_document_list].  When the term counts
    add up without wrapping, [total_kmers] is their sum and [max_kmers] is
    the largest of them: no document has more, some document has exactly
    that many (for an empty list it is 0), and it never exceeds
    [total_kmers]. *)
Theorem document_statistics_max_and_total (num_terms : list Z) :
  Forall (fun n => (0 <= n)%Z) num_terms ->
  (sumZ num_terms < 2 ^ 64)%Z ->
  (document_statistics num_terms).2 = sumZ num_terms
  /\ Forall (fun n => (n <= (document_statistics num_terms).1)%Z) num_terms
  /\ (num_terms <> [] -> (document_statistics num_terms).1 ∈ num_terms)
  /\ (num_terms = [] -> (document_statistics num_terms).1 = 0%Z)
  /\ ((document_statistics num_terms).1 <= (document_statistics num_terms).2)%Z.
Proof.
  intros Hl Hsum. unfold document_statistics.
  rewrite document_statistics_from by (done || lia). cbn [fst snd].
  destruct (foldl_max_bounds num_terms 0) as (Hge & Hall & Hin).
  split; [lia|]. split; [done|]. split; [|split].
  - intros Hne. destruct Hin as [Hzero|Hin]; [|done].
    destruct num_terms as [|n l]; [done|].
    rewrite Hzero. apply Forall_cons in Hall as [Hn _], Hl as [Hn' _].
    rewrite Hzero in Hn. assert (n = 0%Z) as -> by lia. apply list_elem_of_here.
  - by intros ->.
  - destruct Hin as [->|Hin].
    + pose proof (sumZ_nonneg num_terms Hl). lia.
    + apply list_elem_of_lookup in Hin as [d Hd].
      pose proof (sumZ_take_step _ _ _ Hd) as Hstep.
      pose proof (sumZ_nonneg (take d num_terms) (Forall_take _ _ _ Hl)).
      pose proof (sumZ_take_mono num_terms (S d) (length num_terms) Hl
                    ltac:(apply lookup_lt_Some in Hd; lia)) as Hmono.
      rewrite firstn_all in Hmono. lia.
Qed.

Lemma document_statistics_max_and_total_witness :
  (document_statistics [3; 10; 4]%Z).2 = sumZ [3; 10; 4]%Z
  /\ ((document_statistics [3; 10; 4]%Z).1 <= (document_statistics [3; 10; 4]%Z).2)%Z.
Proof.
  destruct (document_statistics_max_and_total [3; 10; 4]%Z
              ltac:(repeat (constructor; [lia|]); constructor)
              ltac:(vm_compute; reflexivity)) as (Htotal & _ & _ & _ & Hle).
  split; [exact Htotal|exact Hle].
Defined.

(** ** The score histogram of src/exp_fp_dist.cpp *)

Import ExpFpDist.

Lemma count_scores_lookup (result : list (Z * string)) (counts : gmap Z Z) (s : Z) :
  (0 <= default 0 (counts !! s))%Z ->
  (default 0 (counts !! s)
   + Z.of_nat (length (filter (fun r => r.1 = s) result)) < 2 ^ 64)%Z ->
  count_scores counts result !! s
  = match length (filter (fun r => r.1 = s) result) with
    | O => counts !! s
    | S n => Some (default 0 (counts !! s) + Z.of_nat (S n))%Z
    end.
Proof.
  revert counts. induction result as [|r result IH]; intros counts Hlow Hhigh; [done|].
  unfold count_scores. cbn [foldl]. fold (count_scores (<[r.1 := ((default 0 (counts !! r.1) + 1) mod 2 ^ 64)%Z]> counts) result).
  destruct (decide (r.1 = s)) as [Hs|Hs].
  - rewrite filter_cons_True in Hhigh |- * by done. cbn [length] in Hhigh |- *.
    rewrite Hs in *.
    rewrite IH; rewrite lookup_insert_eq; cbn [default from_option Datatypes.id];
      rewrite ?Z.mod_small by lia; try lia.
    destruct (length (filter (fun r => r.1 = s) result)); f_equal; lia.
  - rewrite filter_cons_False in Hhigh |- * by done.
    rewrite IH; rewrite lookup_insert_ne by done; done.
Qed.

Lemma histogram_concat (results : list (list (Z * string))) (counts : gmap Z Z) :
  foldl count_scores counts results = count_scores counts (concat results).
Proof.
  revert counts. induction results as [|result results IH]; intros counts; [done|].
  cbn [foldl concat]. rewrite IH. unfold count_scores. by rewrite foldl_app.
Qed.

(** X24.  After the loop over the queries, the map holds for every score the
    number of results with that score, over all queries together; a score
    that no result has is not a key of the map. *)
Theorem histogram_counts_each_score (results : list (list (Z * string))) (s : Z) :
  (Z.of_nat (length (concat results)) < 2 ^ 64)%Z ->
  histogram results !! s
  = match length (filter (fun r => r.1 = s) (concat results)) with
    | O => None
    | S n => Some (Z.of_nat (S n))
    end.
Proof.
  intros Hsize. unfold histogram. rewrite histogram_concat.
  pose proof (length_filter (fun r : Z * string => r.1 = s) (concat results)) as Hle.
  rewrite count_scores_lookup; rewrite lookup_empty; cbn [default]; try lia.
  by destruct (length (filter _ (concat results))).
Qed.

Lemma histogram_counts_each_score_witness :
  histogram [[(1%Z, "a"); (0%Z, "b")]; [(1%Z, "a"); (5%Z, "b")]] !! 1%Z
  = match length (filter (fun r => r.1 = 1%Z)
                         (concat [[(1%Z, "a"); (0%Z, "b")]; [(1%Z, "a"); (5%Z, "b")]])) with
    | O => None
    | S n => Some (Z.of_nat (S n))
    end.
Proof.
  exact (histogram_counts_each_score
           [[(1%Z, "a"); (0%Z, "b")]; [(1%Z, "a"); (5%Z, "b")]] 1
           ltac:(vm_compute; reflexivity)).
Defined.

Lemma strictly_sorted_rows (rows : list (Z * Z)) :
  StronglySorted (fun x y => (x.1 <= y.1)%Z) rows ->
  NoDup rows.*1 ->
  StronglySorted (fun x y => (x.1 < y.1)%Z) rows.
Proof.
  induction 1 as [|x rows Hsorted IH Hall]; intros Hnodup; [constructor|].
  cbn in Hnodup. apply NoDup_cons in Hnodup as [Hnotin Hnodup].
  constructor; [by apply IH|].
  apply Forall_forall. intros y Hy.
  pose proof (proj1 (Forall_forall _ _) Hall y Hy) as Hle. cbn in Hle.
  assert (x.1 <> y.1).
  { intros Heq. apply Hnotin. rewrite Heq. apply list_elem_of_fmap. by exists y. }
  lia.
Qed.

(** X25.  The lines written for one index are one per distinct score, in strictly
    ascending order of the score, each carrying the count of that score. *)
Theorem histogram_lines_ascending (results : list (list (Z * string))) (index : Z) :
  exists rows : list (Z * Z),
    histogram_lines results index
    = (fun a : Z * Z => pretty a.1 +:+ "," +:+ pretty a.2 +:+ "," +:+ pretty index) <$> rows
    /\ StronglySorted (fun x y => (x.1 < y.1)%Z) rows
    /\ forall s c, (s, c) ∈ rows <-> histogram results !! s = Some c.
Proof.
  unfold histogram_lines.
  set (R := fun x y : Z * Z => (x.1 <= y.1)%Z).
  set (rows := merge_sort R (map_to_list (histogram results))).
  assert (Hperm : rows ≡ₚ map_to_list (histogram results)) by apply merge_sort_Permutation.
  exists rows. split; [reflexivity|]. split.
  - apply strictly_sorted_rows.
    + assert (Htrans : Transitive R) by (intros x y z; unfold R; lia).
      assert (Htotal : Total R) by (intros x y; unfold R; lia).
      apply (StronglySorted_merge_sort R).
    + rewrite Hperm. apply NoDup_fst_map_to_list.
  - intros s c. rewrite Hperm. apply elem_of_map_to_list.
Qed.

(** ** [doc_dump] *)

Import DocDump.

Lemma dump_document_runs (i : nat) (d : document) (w : world) :
  exists first last,
    dump_document i d w
    = (Returned tt, mkWorld (files w) (out w ++ terms d) (err w ++ [first; last])).
Proof.
  unfold dump_document. do 2 eexists.
  rewrite tool_bind_unfold. unfold cerr at 1.
  rewrite tool_bind_unfold, for_each_cout. unfold cerr. cbn [files out err].
  by rewrite <- app_assoc.
Qed.

Lemma dump_from_runs (filelist : list document) (i : nat) (w : world) :
  exists lines,
    dump_from i filelist w
    = (Returned tt,
       mkWorld (files w) (out w ++ concat (terms <$> filelist)) (err w ++ lines))
    /\ length lines = 2 * length filelist.
Proof.
  revert i w. induction filelist as [|d filelist IH]; intros i w.
  - exists []. cbn. rewrite !app_nil_r. by destruct w.
  - cbn [dump_from]. rewrite tool_bind_unfold.
    destruct (dump_document_runs i d w) as (first & last & ->).
    match goal with |- context [dump_from (S i) filelist ?w1] =>
      destruct (IH (S i) w1) as (lines & Hrun & Hlen); rewrite Hrun end.
    cbn [files out err]. exists (first :: last :: lines). split.
    + f_equal. f_equal.
      * cbn [fmap list_fmap concat]. by rewrite <- app_assoc.
      * by rewrite <- app_assoc.
    + cbn [length]. lia.
Qed.

(** X26.  [doc_dump] writes the terms of all documents to standard output, one
    per line, document after document in the order of the list, and nothing
    else there; standard error gets the line with the number of documents
    and two lines for each document; the tool returns 0 and leaves the file
    system as it was. *)
Theorem doc_dump_writes_all_terms (filelist : list document) (w : world) :
  exists lines,
    doc_dump filelist w
    = (Returned 0%Z,
       mkWorld (files w) (out w ++ concat (terms <$> filelist))
               (err w ++ ("Found " +:+ pretty (length filelist) +:+ " documents.") :: lines))
    /\ length lines = 2 * length filelist.
Proof.
  unfold doc_dump. rewrite tool_bind_unfold. unfold cerr at 1.
  rewrite tool_bind_unfold.
  match goal with |- context [dump_from 0 filelist ?w1] =>
    destruct (dump_from_runs filelist 0 w1) as (lines & Hrun & Hlen); rewrite Hrun end.
  cbn [files out err]. exists lines. split; [|done].
  cbn. by rewrite <- app_assoc.
Qed.
